(** * jsfinder: the crawler's traversal engine, its retry executor and its
      error taxonomy, embedded from the Go sources.

    Sources embedded:
    - [pkg/utils/retry.go]  (retry executor; the error taxonomy is the second
      half of the same file);
    - the crawler package ([Crawler], [crawlURL], [extractLinks],
      [isValidLink], [addJSFile], [CrawlDomain], [CrawlFromStdin]).

    Conventions.
    - Go [int] and [time.Duration] (nanoseconds) are [Z].
    - [float64] is the IEEE 754 binary64 format, that of Rocq's primitive
      floats: its [+], [-], [*] and [<] are the primitive operations.
      [math.Pow], and the result of converting to [int64] a double that
      [int64] cannot represent (which the language leaves to the
      implementation), are methods of the class [GoRuntime].
    - [rand.Float64()], [time.Now()], the state of a [context.Context] and
      the outcome of every network call are inputs supplied by an explicit
      environment.
    - The packages [net/url] and [golang.org/x/net/html] are not part of the
      repository: [url.Parse], [URL.ResolveReference], [URL.String] and
      [html.Parse] are section variables. *)

From Stdlib Require Import ZArith Lia Bool String List.
From Stdlib Require Import PrimFloat SpecFloat FloatOps.
From stdpp Require Import base option list gmap strings pretty.

Local Open Scope Z_scope.
Local Set Warnings "-register-all".

(* ===================================================================== *)
(** ** Error taxonomy (second half of pkg/utils/retry.go)                 *)
(* ===================================================================== *)

Module Errors.

(** [type ErrorType int] with its [iota] constants, in source order. *)
Inductive ErrorType : Set :=
  | UnknownError
  | NetworkError
  | TimeoutError
  | HTTPError
  | ParseError
  | ConfigError
  | ValidationError
  | FileError.

Definition ErrorType_eqb (a b : ErrorType) : bool :=
  match a, b with
  | UnknownError, UnknownError
  | NetworkError, NetworkError
  | TimeoutError, TimeoutError
  | HTTPError, HTTPError
  | ParseError, ParseError
  | ConfigError, ConfigError
  | ValidationError, ValidationError
  | FileError, FileError => true
  | _, _ => false
  end.

(** [func (e ErrorType) String() string] *)
Definition ErrorType_String (e : ErrorType) : string :=
  match e with
  | NetworkError => "NETWORK_ERROR"
  | TimeoutError => "TIMEOUT_ERROR"
  | HTTPError => "HTTP_ERROR"
  | ParseError => "PARSE_ERROR"
  | ConfigError => "CONFIG_ERROR"
  | ValidationError => "VALIDATION_ERROR"
  | FileError => "FILE_ERROR"
  | UnknownError => "UNKNOWN_ERROR"
  end.

(** A value stored in [Context map[string]interface{}]. *)
Inductive ctxval : Set :=
  | CtxInt (n : Z)
  | CtxStr (s : string).

(** An [error] value that is not an [*AppError]: what the type switches of
    the package can observe of it. *)
Record GoError : Set := mkGoError {
  goMessage : string;            (* err.Error() *)
  goIsNetError : bool;           (* errors.As(err, &net.Error) *)
  goNetTimeout : bool;           (* netErr.Timeout() *)
  goIsDNSError : bool;           (* errors.As(err, &*net.DNSError) *)
  goIsDeadlineExceeded : bool    (* errors.Is(err, context.DeadlineExceeded) *)
}.

(** A non-nil Go [error]: either a plain error or an [*AppError]
    ([type AppError struct]).  [nil] is [None] in [option error]. *)
Inductive error : Type :=
  | Plain (g : GoError)
  | App (Type_ : ErrorType) (Message : string) (Cause : option error)
        (Context : gmap string ctxval) (Timestamp : Z) (Retryable : bool).

Definition Type_of (e : error) : option ErrorType :=
  match e with App t _ _ _ _ _ => Some t | Plain _ => None end.

Definition Message_of (e : error) : option string :=
  match e with App _ m _ _ _ _ => Some m | Plain _ => None end.

Definition Retryable_of (e : error) : option bool :=
  match e with App _ _ _ _ _ r => Some r | Plain _ => None end.

Definition Cause_of (e : error) : option error :=
  match e with App _ _ c _ _ _ => c | Plain _ => None end.

Definition isApp (e : error) : bool :=
  match e with App _ _ _ _ _ _ => true | Plain _ => false end.

(** [func isRetryableError(errType ErrorType, cause error) bool] *)
Definition isRetryableError (errType : ErrorType) (cause : option error) : bool :=
  match errType with
  | NetworkError | TimeoutError => true
  | HTTPError => true
  | _ => false
  end.

(** [func NewError(errType, message, cause) *AppError]; [now] is
    [time.Now()]. *)
Definition NewError (now : Z) (errType : ErrorType) (message : string)
    (cause : option error) : error :=
  App errType message cause ∅ now (isRetryableError errType cause).

Definition NewNetworkError now message cause := NewError now NetworkError message cause.
Definition NewTimeoutError now message cause := NewError now TimeoutError message cause.
Definition NewParseError now message cause := NewError now ParseError message cause.
Definition NewConfigError now message cause := NewError now ConfigError message cause.
Definition NewValidationError now message cause := NewError now ValidationError message cause.
Definition NewFileError now message cause := NewError now FileError message cause.

(** [func (e *AppError) WithContext(key, value) *AppError] *)
Definition WithContext (e : error) (key : string) (value : ctxval) : error :=
  match e with
  | App t m c ctx ts r => App t m c (<[key := value]> ctx) ts r
  | Plain g => Plain g
  end.

(** [func NewHTTPError(message, statusCode, cause) *AppError] *)
Definition NewHTTPError (now : Z) (message : string) (statusCode : Z)
    (cause : option error) : error :=
  WithContext (NewError now HTTPError message cause) "status_code" (CtxInt statusCode).

(** [func IsNetworkError(err error) bool] *)
Definition IsNetworkError (err : error) : bool :=
  match err with
  | App t _ _ _ _ _ => ErrorType_eqb t NetworkError
  | Plain g => if goIsNetError g then true
               else if goIsDNSError g then true else false
  end.

(** [func IsTimeoutError(err error) bool] *)
Definition IsTimeoutError (err : error) : bool :=
  match err with
  | App t _ _ _ _ _ => ErrorType_eqb t TimeoutError
  | Plain g => if goIsNetError g && goNetTimeout g then true
               else if goIsDeadlineExceeded g then true else false
  end.

(** [func IsRetryableError(err error) bool] *)
Definition IsRetryableError (err : error) : bool :=
  match err with
  | App _ _ _ _ _ r => r
  | Plain _ => if IsNetworkError err || IsTimeoutError err then true else false
  end.

(** [strings.Contains(s, sub)] *)
Fixpoint strings_Contains (s sub : string) : bool :=
  if String.prefix sub s then true
  else match s with
       | EmptyString => false
       | String _ s' => strings_Contains s' sub
       end.

(** [func (e *AppError) Error() string], and [err.Error()] of a plain
    error.  [%v] of the cause is the cause's own [Error()]. *)
Fixpoint Error_ (e : error) : string :=
  match e with
  | Plain g => goMessage g
  | App t m c _ _ _ =>
      match c with
      | Some c' => ErrorType_String t ++ ": " ++ m ++ " (caused by: " ++ Error_ c' ++ ")"
      | None => ErrorType_String t ++ ": " ++ m
      end
  end%string.

(** [func WrapError(err error, message string) error] *)
Definition WrapError (now : Z) (err : option error) (message : string)
    : option error :=
  match err with
  | None => None
  | Some (App t m c ctx _ r) =>
      Some (App t (message ++ ": " ++ m)%string c ctx now r)
  | Some (Plain g as e) =>
      let errType :=
        if IsNetworkError e then NetworkError
        else if IsTimeoutError e then TimeoutError
        else if strings_Contains (Error_ e) "parse" then ParseError
        else UnknownError in
      Some (NewError now errType message (Some e))
  end.

(** Wrapping once per message of [ms], the first message innermost; the
    [k]-th wrap happens at time [now k]. *)
Fixpoint WrapMany (now : nat -> Z) (k : nat) (err : option error)
    (ms : list string) : option error :=
  match ms with
  | [] => err
  | m :: ms' => WrapMany now (S k) (WrapError (now k) err m) ms'
  end.

End Errors.

(* ===================================================================== *)
(** ** Retry executor (first half of pkg/utils/retry.go)                  *)
(* ===================================================================== *)

Module RetryExec.
Import Errors.

Definition Duration := Z.
Definition Nanosecond : Duration := 1.
Definition Microsecond : Duration := 1000 * Nanosecond.
Definition Millisecond : Duration := 1000 * Microsecond.
Definition Second : Duration := 1000 * Millisecond.
Definition Minute : Duration := 60 * Second.

(** [type RetryConfig struct] *)
Record RetryConfig : Type := mkRetryConfig {
  MaxAttempts : Z;
  InitialDelay : Duration;
  MaxDelay : Duration;
  BackoffFactor : float;
  Jitter : bool;
  RetryableErrors : list ErrorType;
  Timeout : Duration
}.

(** [func DefaultRetryConfig() *RetryConfig] *)
Definition DefaultRetryConfig : RetryConfig := {|
  MaxAttempts := 3;
  InitialDelay := 100 * Millisecond;
  MaxDelay := 30 * Second;
  BackoffFactor := 2;
  Jitter := true;
  RetryableErrors := [NetworkError; TimeoutError; HTTPError];
  Timeout := 5 * Minute
|}.

(** [func NetworkRetryConfig() *RetryConfig] *)
Definition NetworkRetryConfig : RetryConfig := {|
  MaxAttempts := 5;
  InitialDelay := 200 * Millisecond;
  MaxDelay := 10 * Second;
  BackoffFactor := 1.5;
  Jitter := true;
  RetryableErrors := [NetworkError; TimeoutError; HTTPError];
  Timeout := 2 * Minute
|}.

(** [func QuickRetryConfig() *RetryConfig] *)
Definition QuickRetryConfig : RetryConfig := {|
  MaxAttempts := 2;
  InitialDelay := 50 * Millisecond;
  MaxDelay := 1 * Second;
  BackoffFactor := 2;
  Jitter := false;
  RetryableErrors := [NetworkError; TimeoutError];
  Timeout := 10 * Second
|}.

(** [float64(n)] for an integer [n]: the nearest double, ties to even. *)
Definition float64_of_int (n : Z) : float :=
  SF2Prim (binary_normalize prec emax n 0 false).

(** The integer part of a double, the fraction discarded; [None] for a
    NaN and for the infinities. *)
Definition float64_trunc (x : float) : option Z :=
  match Prim2SF x with
  | S754_zero _ => Some 0
  | S754_finite s m e =>
      let a := if 0 <=? e then Z.pos m * 2 ^ e else Z.pos m / 2 ^ (- e) in
      Some (if s then - a else a)
  | S754_infinity _ | S754_nan => None
  end.

(** What [calculateDelay] takes from outside the repository: [math.Pow],
    and the value of [int64(x)] for a double [x] whose integer part [int64]
    cannot represent, which the language specification leaves to the
    implementation. *)
Class GoRuntime : Type := mkGoRuntime {
  math_Pow : float -> float -> float;
  int64_of_unrepresentable : float -> Z
}.

Section Delay.
Context {rt : GoRuntime}.

(** [time.Duration(x)] for a double [x]. *)
Definition Duration_of_float (x : float) : Duration :=
  match float64_trunc x with
  | Some z => if (- 2 ^ 63 <=? z) && (z <? 2 ^ 63) then z
              else int64_of_unrepresentable x
  | None => int64_of_unrepresentable x
  end.

(** [func calculateDelay(attempt int, config *RetryConfig) time.Duration];
    [r] is the sample [rand.Float64()] drawn when jitter is enabled. *)
Definition calculateDelay (attempt : Z) (config : RetryConfig) (r : float)
    : Duration :=
  let delay := (float64_of_int (InitialDelay config)
                * math_Pow (BackoffFactor config)
                           (float64_of_int (attempt - 1)))%float in
  let delay := if (float64_of_int (MaxDelay config) <? delay)%float
               then float64_of_int (MaxDelay config) else delay in
  let delay :=
    if Jitter config then
      let jitterRange := (delay * 0.25)%float in
      let jitter := ((r - 0.5) * 2 * jitterRange)%float in
      let delay := (delay + jitter)%float in
      if (delay <? 0)%float then float64_of_int (InitialDelay config)
      else delay
    else delay in
  Duration_of_float delay.

End Delay.

(** [func isErrorRetryable(err error, retryableErrors []ErrorType) bool];
    the [for] loop returns at the first element equal to the error's type. *)
Fixpoint isErrorRetryable_loop (t : ErrorType) (retryable : bool)
    (retryableErrors : list ErrorType) : bool :=
  match retryableErrors with
  | [] => false
  | errType :: rest =>
      if ErrorType_eqb t errType then retryable
      else isErrorRetryable_loop t retryable rest
  end.

Definition isErrorRetryable (err : option error)
    (retryableErrors : list ErrorType) : bool :=
  match err with
  | None => false
  | Some (App t _ _ _ _ r) => isErrorRetryable_loop t r retryableErrors
  | Some (Plain g) => IsRetryableError (Plain g)
  end.

(** [type RetryResult struct].  [TotalTime] is wall-clock time and is not
    modelled.  Two ghost fields: [Delays] records every call of
    [calculateDelay] made by the loop, as (attempt, delay); [Panicked] says
    that [Retry] has panicked instead of returning, in which case the other
    fields belong to no result. *)
Record RetryResult : Type := mkRetryResult {
  Success : bool;
  Attempts : Z;
  LastError : option error;
  AllErrors : list error;
  Delays : list (Z * Duration);
  Panicked : bool
}.

(** What the surroundings of one [Retry] call decide, per attempt. *)
Record RetryEnv : Type := mkRetryEnv {
  (* [ctx.Done()] is ready at the [select] that opens attempt [i] *)
  doneBefore : Z -> bool;
  (* [fn(ctx)] on attempt [i]; [None] is a nil error *)
  fnResult : Z -> option error;
  (* in the backoff [select] after attempt [i], [ctx.Done()] wins over
     [time.After(delay)] *)
  doneDuringDelay : Z -> Duration -> bool;
  (* [rand.Float64()] drawn by [calculateDelay] after attempt [i] *)
  randFloat64 : Z -> float;
  (* [ctx.Err()] *)
  ctxErr : error;
  (* [time.Now()] *)
  timeNow : Z
}.

Section Retry.
Context {rt : GoRuntime}.
Variable env : RetryEnv.
Variable config : RetryConfig.

(** The body of [for attempt := 1; attempt <= config.MaxAttempts; attempt++].
    [fuel] is the number of iterations left before [attempt] passes
    [MaxAttempts]. *)
Fixpoint Retry_loop (fuel : nat) (attempt : Z) (result : RetryResult)
    : RetryResult :=
  match fuel with
  | O => result
  | S fuel' =>
      let result := {| Success := Success result; Attempts := attempt;
                       LastError := LastError result;
                       AllErrors := AllErrors result;
                       Delays := Delays result;
                       Panicked := Panicked result |} in
      if doneBefore env attempt then
        let e := NewTimeoutError (timeNow env)
                   "retry operation cancelled or timed out" (Some (ctxErr env)) in
        {| Success := Success result; Attempts := Attempts result;
           LastError := Some e; AllErrors := AllErrors result ++ [e];
           Delays := Delays result; Panicked := Panicked result |}
      else
        match fnResult env attempt with
        | None =>
            {| Success := true; Attempts := Attempts result;
               LastError := LastError result; AllErrors := AllErrors result;
               Delays := Delays result; Panicked := Panicked result |}
        | Some err =>
            let result := {| Success := Success result;
                             Attempts := Attempts result;
                             LastError := Some err;
                             AllErrors := AllErrors result ++ [err];
                             Delays := Delays result;
                             Panicked := Panicked result |} in
            if negb (isErrorRetryable (Some err) (RetryableErrors config))
            then result
            else if attempt =? MaxAttempts config then result
            else
              let delay := calculateDelay attempt config
                             (randFloat64 env attempt) in
              let result := {| Success := Success result;
                               Attempts := Attempts result;
                               LastError := LastError result;
                               AllErrors := AllErrors result;
                               Delays := Delays result ++ [(attempt, delay)];
                               Panicked := Panicked result |} in
              if doneDuringDelay env attempt delay then
                let e := NewTimeoutError (timeNow env)
                           "retry operation cancelled or timed out during delay"
                           (Some (ctxErr env)) in
                {| Success := Success result; Attempts := Attempts result;
                   LastError := Some e; AllErrors := AllErrors result ++ [e];
                   Delays := Delays result; Panicked := Panicked result |}
              else Retry_loop fuel' (attempt + 1) result
      end
  end.

End Retry.

Section RetryCall.
Context {rt : GoRuntime}.

(** [func Retry(ctx, config, fn, logger) *RetryResult]; a nil [config] is
    replaced by [DefaultRetryConfig()].  The allocation
    [make([]error, 0, config.MaxAttempts)] that precedes the loop panics
    when [MaxAttempts] is negative. *)
Definition Retry (env : RetryEnv) (config : option RetryConfig) : RetryResult :=
  let config := match config with
                | None => DefaultRetryConfig
                | Some c => c
                end in
  if MaxAttempts config <? 0 then
    {| Success := false; Attempts := 0; LastError := None;
       AllErrors := []; Delays := []; Panicked := true |}
  else
    Retry_loop env config (Z.to_nat (MaxAttempts config)) 1
      {| Success := false; Attempts := 0; LastError := None;
         AllErrors := []; Delays := []; Panicked := false |}.

(** [func WithRetry(config, logger) func(RetryableFunc) RetryableFunc]:
    the wrapped function returns [result.LastError]. *)
Definition WithRetry (config : option RetryConfig) (env : RetryEnv)
    : option error :=
  LastError (Retry env config).

(** Attempt [i] of the loop fails with an error that [isErrorRetryable]
    accepts, no context is done at its two [select]s, and so the loop goes
    on to attempt [i+1]. *)
Definition retried (env : RetryEnv) (config : RetryConfig) (i : Z) : bool :=
  negb (doneBefore env i)
  && match fnResult env i with
     | Some err => isErrorRetryable (Some err) (RetryableErrors config)
     | None => false
     end
  && negb (doneDuringDelay env i
             (calculateDelay i config (randFloat64 env i))).

(** The result record as the loop leaves it after such an attempt [i]. *)
Definition afterFailure (env : RetryEnv) (config : RetryConfig)
    (result : RetryResult) (i : Z) : RetryResult :=
  match fnResult env i with
  | Some err =>
      {| Success := Success result; Attempts := i; LastError := Some err;
         AllErrors := AllErrors result ++ [err];
         Delays := Delays result
                   ++ [(i, calculateDelay i config (randFloat64 env i))];
         Panicked := Panicked result |}
  | None => result
  end.

End RetryCall.

(** The errors returned by attempts [a], [a+1], ..., [a+n-1]. *)
Definition errorsOf (env : RetryEnv) (a : Z) (n : nat) : list error :=
  omap (fnResult env) (seqZ a (Z.of_nat n)).

End RetryExec.

(* ===================================================================== *)
(** ** Traversal engine (package crawler)                                 *)
(* ===================================================================== *)

Module Crawler.
Import Errors RetryExec.

(** [type Config struct] *)
Record Config : Type := mkConfig {
  Domain : string;
  OutputFile : string;
  MaxDepth : Z;
  Threads : Z;
  Timeout_ : Z;
  IgnoreRobots : bool;
  Verbose : bool
}.

(** The fields of [net/url.URL] the crawler reads. *)
Record URL : Type := mkURL {
  Scheme : string;
  Opaque : string;
  Host : string;
  Path : string;
  Fragment : string
}.

(** [html.NodeType] and [html.Node] with its attributes and children. *)
Inductive NodeType : Set :=
  | ErrorNode | TextNode | DocumentNode | ElementNode | CommentNode
  | DoctypeNode.

Definition NodeType_eqb (a b : NodeType) : bool :=
  match a, b with
  | ErrorNode, ErrorNode | TextNode, TextNode | DocumentNode, DocumentNode
  | ElementNode, ElementNode | CommentNode, CommentNode
  | DoctypeNode, DoctypeNode => true
  | _, _ => false
  end.

Record Attribute : Set := mkAttr { Key : string; Val : string }.

Inductive Node : Type :=
  | mkNode (Type_ : NodeType) (Data : string) (Attr : list Attribute)
           (children : list Node).

(** What one call of the closure [retryFn] meets on the network. *)
Inductive HTTPOutcome : Type :=
  | NewRequestFails (cause : GoError)     (* http.NewRequestWithContext *)
  | DoFails (cause : GoError)             (* c.client.Do(req) *)
  | Response (StatusCode : Z) (content : string) (readErr : option GoError).
                            (* resp, then io.ReadAll(resp.Body) = content, readErr *)

Section WithLibraries.
Context {rt : GoRuntime}.

(** [url.Parse]; [None] stands for a non-nil error. *)
Variable url_Parse : string -> option URL.
(** [base.ResolveReference(ref).String()] *)
Variable ResolveReference_String : URL -> URL -> string.
(** [html.Parse(strings.NewReader(s))]; [None] stands for a non-nil error. *)
Variable html_Parse : string -> option Node.
(** For a pattern of [jsPatterns] (by index) the values [match[1]] of
    [pattern.FindAllStringSubmatch(htmlContent, -1)], in order. *)
Variable jsSubmatches : nat -> string -> list string.

(** [func (c *Crawler) resolveURL(href, baseURL string) string] *)
Definition resolveURL (href baseURL : string) : string :=
  match url_Parse baseURL with
  | None => href
  | Some base =>
      match url_Parse href with
      | None => href
      | Some ref => ResolveReference_String base ref
      end
  end.

(** [func (c *Crawler) isValidLink(link, baseURL string) bool] *)
Definition isValidLink (link baseURL : string) : bool :=
  match url_Parse link with
  | None => false
  | Some parsedLink =>
      match url_Parse baseURL with
      | None => false
      | Some parsedBase => String.eqb (Host parsedLink) (Host parsedBase)
      end
  end.

(** The [for _, attr := range n.Attr] loop of [extractLinks]: only the first
    attribute whose key is ["href"] is looked at ([break]). *)
Fixpoint hrefLoop (baseURL : string) (attrs : list Attribute)
    (links : list string) : list string :=
  match attrs with
  | [] => links
  | attr :: rest =>
      if String.eqb (Key attr) "href" then
        let link := resolveURL (Val attr) baseURL in
        if isValidLink link baseURL then links ++ [link] else links
      else hrefLoop baseURL rest links
  end.

(** The closure [f] of [extractLinks], threading the captured slice
    [links]. *)
Fixpoint extractLinks_f (baseURL : string) (n : Node) (links : list string)
    : list string :=
  match n with
  | mkNode ty data attrs children =>
      let links :=
        if NodeType_eqb ty ElementNode && String.eqb data "a"
        then hrefLoop baseURL attrs links
        else links in
      (fix siblings (cs : list Node) (links : list string) : list string :=
         match cs with
         | [] => links
         | child :: cs' => siblings cs' (extractLinks_f baseURL child links)
         end) children links
  end.

(** [func (c *Crawler) extractLinks(htmlContent, baseURL string) []string] *)
Definition extractLinks (htmlContent baseURL : string) : list string :=
  match html_Parse htmlContent with
  | None => []
  | Some doc => extractLinks_f baseURL doc []
  end.

(** The two sets of the crawler and its sink. *)
Record Sets : Type := mkSets {
  jsFiles : gmap string bool;
  output : option (list string)     (* [c.output]; [None] is nil *)
}.

(** [func (c *Crawler) addJSFile(jsURL string)] (body under [jsFilesMux]). *)
Definition addJSFile (jsURL : string) (s : Sets) : Sets :=
  if negb (default false (jsFiles s !! jsURL)) then
    {| jsFiles := <[jsURL := true]> (jsFiles s);
       output := match output s with
                 | Some lines => Some (lines ++ [jsURL])
                 | None => None
                 end |}
  else s.

(** [func (c *Crawler) extractJSFromHTML(htmlContent, baseURL string)] *)
Definition extractJSFromHTML (htmlContent baseURL : string) (s : Sets) : Sets :=
  fold_left
    (fun s pattern =>
       fold_left (fun s m => addJSFile (resolveURL m baseURL) s)
                 (jsSubmatches pattern htmlContent) s)
    [0%nat; 1%nat] s.

(** The closure [retryFn] of [crawlURL] on one attempt: the error it
    returns and the value it leaves in the captured variable [body]. *)
Definition retryFn (now : Z) (targetURL : string) (o : HTTPOutcome)
    (body : string) : option error * string :=
  match o with
  | NewRequestFails cause =>
      (Some (NewNetworkError now
               ("failed to create request for " ++ targetURL)%string
               (Some (Plain cause))), body)
  | DoFails cause =>
      (Some (NewNetworkError now ("failed to fetch " ++ targetURL)%string
               (Some (Plain cause))), body)
  | Response status content readErr =>
      if 400 <=? status then
        (Some (NewHTTPError now ("HTTP error for " ++ targetURL)%string
                 status None), body)
      else
        match readErr with
        | Some cause =>
            (Some (NewNetworkError now
                     ("failed to read response body for " ++ targetURL)%string
                     (Some (Plain cause))), content)
        | None => (None, content)
        end
  end.

(** *** The goroutines of a crawl

    Every call of [crawlURL] runs in a goroutine of its own: the root call in
    the caller's, every other one in the goroutine started by [go func(url)]
    of its parent call.  A task is such a goroutine with its single
    [crawlURL] frame; its program counter names the source line it is about
    to execute. *)
Inductive PC : Type :=
  | WaitSem       (* spawned; blocked at [semaphore <- struct{}{}] *)
  | AtEntry       (* [crawlURL] called; at [if depth > c.config.MaxDepth] *)
  | AtLock        (* at [c.visitedMux.Lock()] *)
  | AtTest        (* holds the lock; at [if c.visited[targetURL]] *)
  | AtUnlockSeen  (* at [c.visitedMux.Unlock(); return nil] *)
  | AtInsert      (* at [c.visited[targetURL] = true] *)
  | AtUnlock      (* at the second [c.visitedMux.Unlock()] *)
  | Fetching      (* inside [utils.Retry(opCtx.Ctx, c.retryConfig, retryFn, ..)] *)
  | Waiting       (* children spawned; inside [wg.Wait()] *)
  | Returned (ret : option error)
                  (* [crawlURL] has returned [ret] to its caller *)
  | Finished.     (* the goroutine has run its deferred calls and ended *)

Record Task : Type := mkTask {
  url : string;            (* targetURL *)
  depth : Z;
  parent : option nat;     (* the task whose [semaphore] and [wg] this
                              goroutine uses; [None] for the root call *)
  pc : PC
}.

Definition set_pc (t : Task) (p : PC) : Task :=
  {| url := url t; depth := depth t; parent := parent t; pc := p |}.

Record State : Type := mkState {
  tasks : list Task;                 (* index = task id *)
  visited : gmap string bool;        (* c.visited *)
  visitedMux : option nat;           (* holder of c.visitedMux *)
  sets : Sets;                       (* c.jsFiles, c.output *)
  fetched : list (string * Z);       (* ghost: every call of utils.Retry,
                                        as (targetURL, depth) *)
  failed : list (nat * string);      (* ghost: task and targetURL of every
                                        Retry that returned Success = false *)
  logged : list error                (* ghost: arguments of utils.LogError *)
}.

(** What the network and the contexts do during one call of [utils.Retry]
    inside [crawlURL]. *)
Record FetchEnv : Type := mkFetchEnv {
  http : Z -> HTTPOutcome;     (* what attempt [i] of retryFn meets *)
  ctxEnv : RetryEnv            (* contexts, random source and clock; its
                                  [fnResult] is replaced by the closure *)
}.

(** The body left by the attempts [1..n] of [retryFn], in order. *)
Fixpoint bodyAfter (now : Z) (targetURL : string) (h : Z -> HTTPOutcome)
    (n : nat) : string :=
  match n with
  | O => ""
  | S n' => snd (retryFn now targetURL (h (Z.of_nat n))
                   (bodyAfter now targetURL h n'))
  end.

Definition retryEnvOf (targetURL : string) (fe : FetchEnv) : RetryEnv :=
  let ce := ctxEnv fe in
  {| doneBefore := doneBefore ce;
     fnResult := fun i => fst (retryFn (timeNow ce) targetURL (http fe i) "");
     doneDuringDelay := doneDuringDelay ce;
     randFloat64 := randFloat64 ce;
     ctxErr := ctxErr ce;
     timeNow := timeNow ce |}.

(** Labels of the atomic steps; [t] is the task that moves. *)
Inductive Action : Type :=
  | Acquire (t : nat)                (* semaphore <- struct{}{} *)
  | Enter (t : nat)                  (* the depth test *)
  | Lock (t : nat)                   (* c.visitedMux.Lock() *)
  | Test (t : nat)                   (* if c.visited[targetURL] *)
  | Insert (t : nat)                 (* c.visited[targetURL] = true *)
  | Unlock (t : nat)                 (* c.visitedMux.Unlock() *)
  | FetchDone (t : nat) (fe : FetchEnv)
                                     (* utils.Retry returns; on success the
                                        page is processed and the children
                                        are spawned *)
  | Join (t : nat)                   (* wg.Wait() returns; return nil *)
  | Release (t : nat).               (* child: log, <-semaphore, wg.Done() *)

Variable config : Config.
(** [c.retryConfig], set by [New] to [utils.NetworkRetryConfig()]. *)
Definition retryConfig : RetryConfig := NetworkRetryConfig.

(** A goroutine of [p]'s fan-out occupies a slot of [p]'s [semaphore] from
    its send until its deferred receive. *)
Definition holdsSlot (p : nat) (t : Task) : bool :=
  match parent t with
  | Some q => Nat.eqb p q &&
              match pc t with
              | WaitSem | Finished => false
              | _ => true
              end
  | None => false
  end.

(** [len(semaphore)] of task [p]. *)
Definition semLen (s : State) (p : nat) : Z :=
  Z.of_nat (length (filter (fun t => holdsSlot p t = true) (tasks s))).

(** Every goroutine counted by [p]'s [wg] has called [wg.Done()]. *)
Definition childrenDone (s : State) (p : nat) : bool :=
  forallb (fun t => match parent t with
                    | Some q => if Nat.eqb p q
                                then match pc t with Finished => true | _ => false end
                                else true
                    | None => true
                    end) (tasks s).

Definition upd_task (s : State) (i : nat) (t : Task) : State :=
  {| tasks := <[i := t]> (tasks s); visited := visited s;
     visitedMux := visitedMux s; sets := sets s; fetched := fetched s;
     failed := failed s; logged := logged s |}.

Definition spawn (p : nat) (d : Z) (links : list string) : list Task :=
  map (fun link => {| url := link; depth := d + 1; parent := Some p;
                      pc := WaitSem |}) links.

(** One atomic step of task [t]; [None] when the step is not enabled (the
    goroutine is blocked, or is not at that line). *)
Definition step (s : State) (a : Action) : option State :=
  match a with
  | Acquire i =>
      match tasks s !! i with
      | Some t =>
          match pc t, parent t with
          | WaitSem, Some p =>
              if semLen s p <? Threads config
              then Some (upd_task s i (set_pc t AtEntry))
              else None
          | _, _ => None
          end
      | None => None
      end
  | Enter i =>
      match tasks s !! i with
      | Some t =>
          match pc t with
          | AtEntry =>
              if MaxDepth config <? depth t
              then Some (upd_task s i (set_pc t (Returned None)))
              else Some (upd_task s i (set_pc t AtLock))
          | _ => None
          end
      | None => None
      end
  | Lock i =>
      match tasks s !! i with
      | Some t =>
          match pc t, visitedMux s with
          | AtLock, None =>
              Some {| tasks := <[i := set_pc t AtTest]> (tasks s);
                      visited := visited s; visitedMux := Some i;
                      sets := sets s; fetched := fetched s;
                      failed := failed s; logged := logged s |}
          | _, _ => None
          end
      | None => None
      end
  | Test i =>
      match tasks s !! i with
      | Some t =>
          match pc t with
          | AtTest =>
              if default false (visited s !! url t)
              then Some (upd_task s i (set_pc t AtUnlockSeen))
              else Some (upd_task s i (set_pc t AtInsert))
          | _ => None
          end
      | None => None
      end
  | Insert i =>
      match tasks s !! i with
      | Some t =>
          match pc t with
          | AtInsert =>
              Some {| tasks := <[i := set_pc t AtUnlock]> (tasks s);
                      visited := <[url t := true]> (visited s);
                      visitedMux := visitedMux s;
                      sets := sets s; fetched := fetched s;
                      failed := failed s; logged := logged s |}
          | _ => None
          end
      | None => None
      end
  | Unlock i =>
      match tasks s !! i with
      | Some t =>
          match pc t with
          | AtUnlockSeen =>
              Some {| tasks := <[i := set_pc t (Returned None)]> (tasks s);
                      visited := visited s; visitedMux := None;
                      sets := sets s; fetched := fetched s;
                      failed := failed s; logged := logged s |}
          | AtUnlock =>
              Some {| tasks := <[i := set_pc t Fetching]> (tasks s);
                      visited := visited s; visitedMux := None;
                      sets := sets s;
                      fetched := fetched s ++ [(url t, depth t)];
                      failed := failed s; logged := logged s |}
          | _ => None
          end
      | None => None
      end
  | FetchDone i fe =>
      match tasks s !! i with
      | Some t =>
          match pc t with
          | Fetching =>
              let now := timeNow (ctxEnv fe) in
              let result := Retry (retryEnvOf (url t) fe) (Some retryConfig) in
              if negb (Success result) then
                let err := WrapError now (LastError result)
                             ("failed to crawl " ++ url t ++ " after "
                              ++ pretty (Attempts result) ++ " attempts")%string in
                Some {| tasks := <[i := set_pc t (Returned err)]> (tasks s);
                        visited := visited s; visitedMux := visitedMux s;
                        sets := sets s; fetched := fetched s;
                        failed := failed s ++ [(i, url t)];
                        logged := logged s ++ match err with
                                              | Some e => [e]
                                              | None => []
                                              end |}
              else if Threads config <? 0 then None
                   (* make(chan struct{}, n) panics for a negative n *)
              else
                let body := bodyAfter now (url t) (http fe)
                              (Z.to_nat (Attempts result)) in
                let links := extractLinks body (url t) in
                Some {| tasks := <[i := set_pc t Waiting]> (tasks s)
                                 ++ spawn i (depth t) links;
                        visited := visited s; visitedMux := visitedMux s;
                        sets := extractJSFromHTML body (url t) (sets s);
                        fetched := fetched s; failed := failed s;
                        logged := logged s |}
          | _ => None
          end
      | None => None
      end
  | Join i =>
      match tasks s !! i with
      | Some t =>
          match pc t with
          | Waiting =>
              if childrenDone s i
              then Some (upd_task s i (set_pc t (Returned None)))
              else None
          | _ => None
          end
      | None => None
      end
  | Release i =>
      match tasks s !! i with
      | Some t =>
          match pc t, parent t with
          | Returned ret, Some _ =>
              Some {| tasks := <[i := set_pc t Finished]> (tasks s);
                      visited := visited s; visitedMux := visitedMux s;
                      sets := sets s; fetched := fetched s;
                      failed := failed s;
                      logged := logged s ++ match ret with
                                            | Some e => [e]
                                            | None => []
                                            end |}
          | _, _ => None
          end
      | None => None
      end
  end.

(** A schedule is a list of actions; it runs as long as each is enabled. *)
Fixpoint run (s : State) (sched : list Action) : option State :=
  match sched with
  | [] => Some s
  | a :: rest =>
      match step s a with
      | Some s' => run s' rest
      | None => None
      end
  end.

(** The crawler as [New] builds it, with the call [c.crawlURL(domain, 0)]
    about to start. *)
Definition start (out : option (list string)) (domain : string) : State :=
  {| tasks := [ {| url := domain; depth := 0; parent := None; pc := AtEntry |} ];
     visited := ∅; visitedMux := None;
     sets := {| jsFiles := ∅; output := out |};
     fetched := []; failed := []; logged := [] |}.

(** Number of calls of [utils.Retry] in flight. *)
Definition isFetching (t : Task) : bool :=
  match pc t with Fetching => true | _ => false end.

Definition inFlight (s : State) : Z :=
  Z.of_nat (length (filter (fun t => isFetching t = true) (tasks s))).

(** [func (c *Crawler) setupOutput() error]; [osCreate] is the error of
    [os.Create(c.config.OutputFile)], a plain error. *)
Definition setupOutput (osCreate : option GoError) : option GoError :=
  if negb (String.eqb (OutputFile config) "") then
    match osCreate with
    | Some g => Some g
    | None => None
    end
  else None.

(** [fmt.Errorf("failed to setup output: %w", err)]: a plain error that
    wraps [err]. *)
Definition setupError (err : GoError) : error :=
  Plain {| goMessage := "failed to setup output: " ++ goMessage err;
           goIsNetError := goIsNetError err;
           goNetTimeout := goNetTimeout err;
           goIsDNSError := goIsDNSError err;
           goIsDeadlineExceeded := goIsDeadlineExceeded err |}.

(** The value returned by the root call [c.crawlURL(domain, 0)] (task 0)
    once it has returned. *)
Definition rootReturn (s : State) : option (option error) :=
  match tasks s !! 0%nat with
  | Some t => match pc t with
              | Returned ret => Some ret
              | _ => None
              end
  | None => None
  end.

(** [func (c *Crawler) CrawlDomain(domain string) error] under the schedule
    [sched]; the outer [None]: the schedule does not bring the root call to
    its return. *)
Definition CrawlDomain (osCreate : option GoError) (domain : string)
    (sched : list Action) : option (option error) :=
  match setupOutput osCreate with
  | Some err => Some (Some (setupError err))
  | None =>
      match run (start (Some []) domain) sched with
      | Some s => rootReturn s
      | None => None
      end
  end.

(** The crawler between two sessions of [CrawlFromStdin]: the sets stay,
    the goroutines of the finished session are gone. *)
Definition nextSession (s : State) (domain : string) : State :=
  {| tasks := [ {| url := domain; depth := 0; parent := None; pc := AtEntry |} ];
     visited := visited s; visitedMux := visitedMux s; sets := sets s;
     fetched := fetched s; failed := []; logged := logged s |}.

(** The [for scanner.Scan()] loop of [CrawlFromStdin]; [lines] are the values
    [strings.TrimSpace(scanner.Text())], [scheds] the schedule of each
    session, [stderr] the lines printed for failed sessions. *)
Fixpoint stdinLoop (s : State) (lines : list string)
    (scheds : list (list Action)) (stderr : list error)
    : option (State * list error) :=
  match lines with
  | [] => Some (s, stderr)
  | domain :: rest =>
      if String.eqb domain "" then stdinLoop s rest scheds stderr
      else
        match scheds with
        | [] => None
        | sched :: scheds' =>
            match run (nextSession s domain) sched with
            | Some s' =>
                match rootReturn s' with
                | Some (Some err) => stdinLoop s' rest scheds' (stderr ++ [err])
                | Some None => stdinLoop s' rest scheds' stderr
                | None => None
                end
            | None => None
            end
        end
  end.

(** [func (c *Crawler) CrawlFromStdin() error]; [scannerErr] is
    [scanner.Err()]. *)
Definition CrawlFromStdin (osCreate : option GoError) (lines : list string)
    (scannerErr : option GoError) (scheds : list (list Action))
    : option (option error) :=
  match setupOutput osCreate with
  | Some err => Some (Some (setupError err))
  | None =>
      match stdinLoop (start (Some []) "") lines scheds [] with
      | Some _ => Some (option_map Plain scannerErr)
      | None => None
      end
  end.

(** *** Invariants of the goroutine machine *)

Definition inCritical (p : PC) : bool :=
  match p with
  | AtTest | AtUnlockSeen | AtInsert | AtUnlock => true
  | _ => false
  end.

(** The lock discipline of [visitedMux] and what it gives for the visited
    set and the calls of [utils.Retry]. *)
Record LockInv (s : State) : Prop := mkLockInv {
  inv_holder : forall i t, tasks s !! i = Some t -> inCritical (pc t) = true ->
                           visitedMux s = Some i;
  inv_insert : forall i t, tasks s !! i = Some t -> pc t = AtInsert ->
                           default false (visited s !! url t) = false;
  inv_unlock : forall i t, tasks s !! i = Some t -> pc t = AtUnlock ->
                           visited s !! url t = Some true
                           /\ ~ In (url t) (map fst (fetched s));
  inv_fetched : forall u, In u (map fst (fetched s)) ->
                           visited s !! u = Some true;
  inv_fetching : forall i t, tasks s !! i = Some t -> pc t = Fetching ->
                             In (url t) (map fst (fetched s));
  inv_nodup : NoDup (map fst (fetched s));
  inv_failed : forall i u, In (i, u) (failed s) -> In u (map fst (fetched s))
}.

(** A task that has passed the depth test is within the bound, and so is
    every fetch. *)
Definition pastDepthTest (p : PC) : bool :=
  match p with
  | AtLock | AtTest | AtUnlockSeen | AtInsert | AtUnlock | Fetching
  | Waiting => true
  | _ => false
  end.

Record DepthInv (s : State) : Prop := mkDepthInv {
  inv_depth_task : forall i t, tasks s !! i = Some t ->
                               pastDepthTest (pc t) = true ->
                               depth t <= MaxDepth config;
  inv_depth_fetched : forall u d, In (u, d) (fetched s) -> d <= MaxDepth config
}.

(** Every task but the root was accepted by [isValidLink] against the root
    URL; a returned error stems from the task's own failed [Retry]. *)
Record HostInv (domain : string) (s : State) : Prop := mkHostInv {
  inv_root : exists t, tasks s !! 0%nat = Some t /\ url t = domain
                       /\ parent t = None;
  inv_host : forall i t, tasks s !! i = Some t -> i <> 0%nat ->
                         isValidLink (url t) domain = true
                         /\ parent t <> None;
  inv_host_fetched : forall u d, In (u, d) (fetched s) ->
                                 u = domain \/ isValidLink u domain = true;
  inv_returned : forall i t e, tasks s !! i = Some t ->
                               pc t = Returned (Some e) ->
                               In (i, url t) (failed s)
}.

End WithLibraries.
End Crawler.

(* ===================================================================== *)
(** ** Concrete configurations, environments and pages                    *)
(* ===================================================================== *)

Module Scenarios.
Import Errors RetryExec.

(** *** The Go runtime of the scenarios

    [math.Pow] as far as the scenarios call it, on the base 1.5 or 2 and an
    exponent from 0 to 4: the power is a double, and [math.Pow] returns it.
    The conversion of a double that [int64] cannot represent gives the
    smallest [int64], as on amd64. *)
Fixpoint powNat (x : float) (n : nat) : float :=
  match n with
  | O => 1
  | S n' => (x * powNat x n')%float
  end.

#[export] Instance scenarioRuntime : GoRuntime := {|
  math_Pow := fun x y => match float64_trunc y with
                         | Some n => powNat x (Z.to_nat n)
                         | None => nan
                         end;
  int64_of_unrepresentable := fun _ => - 2 ^ 63
|}.

Definition deadlineExceeded : error :=
  Plain {| goMessage := "context deadline exceeded"; goIsNetError := false;
           goNetTimeout := false; goIsDNSError := false;
           goIsDeadlineExceeded := true |}.

(** No context is ever done, [fn] behaves as [fn], every random sample is
    one half. *)
Definition quietEnv (fn : Z -> option error) : RetryEnv := {|
  doneBefore := fun _ => false;
  fnResult := fn;
  doneDuringDelay := fun _ _ => false;
  randFloat64 := fun _ => 0.5%float;
  ctxErr := deadlineExceeded;
  timeNow := 0
|}.

Definition validationFailure : error :=
  NewValidationError 0 "invalid input" None.

Definition http500 : error :=
  NewHTTPError 0 "HTTP error for https://x.test/" 500 None.

(** [fn] fails with HTTP 500 on attempt 1 and succeeds afterwards. *)
Definition failOnce (i : Z) : option error :=
  if i =? 1 then Some http500 else None.

(** *** A small site

    [url.Parse], [ResolveReference(..).String()], [html.Parse] and the
    matches of the script patterns, tabulated on the strings that occur in
    the site below, with the values the Go packages return for them. *)

Import Crawler.

Definition http_ (host path fragment : string) : URL :=
  {| Scheme := "http"; Opaque := ""; Host := host; Path := path;
     Fragment := fragment |}.
Definition https (host path fragment : string) : URL :=
  {| Scheme := "https"; Opaque := ""; Host := host; Path := path;
     Fragment := fragment |}.
Definition relative (path fragment : string) : URL :=
  {| Scheme := ""; Opaque := ""; Host := ""; Path := path;
     Fragment := fragment |}.
Definition opaque (scheme rest : string) : URL :=
  {| Scheme := scheme; Opaque := rest; Host := ""; Path := "";
     Fragment := "" |}.

Definition urlTable : list (string * URL) :=
  [ ("https://x.test/", https "x.test" "/" "");
    ("https://x.test/a", https "x.test" "/a" "");
    ("https://x.test/b", https "x.test" "/b" "");
    ("https://x.test/a1", https "x.test" "/a1" "");
    ("https://x.test/a2", https "x.test" "/a2" "");
    ("https://x.test/b1", https "x.test" "/b1" "");
    ("https://x.test/b2", https "x.test" "/b2" "");
    ("https://x.test/p2", https "x.test" "/p2" "");
    ("https://x.test/a.js", https "x.test" "/a.js" "");
    ("https://x.test/#top", https "x.test" "/" "top");
    ("http://x.test/p2", http_ "x.test" "/p2" "");
    ("https://other.test/p", https "other.test" "/p" "");
    ("mailto:me@x.test", opaque "mailto" "me@x.test");
    ("javascript:void(0)", opaque "javascript" "void(0)");
    ("/a", relative "/a" ""); ("/b", relative "/b" "");
    ("/a1", relative "/a1" ""); ("/a2", relative "/a2" "");
    ("/b1", relative "/b1" ""); ("/b2", relative "/b2" "");
    ("/p2", relative "/p2" ""); ("/a.js", relative "/a.js" "");
    ("#top", relative "" "top") ].

Definition url_Parse (s : string) : option URL :=
  match find (fun e => String.eqb (fst e) s) urlTable with
  | Some e => Some (snd e)
  | None => None
  end.

(** [u.String()] for the shapes above. *)
Definition URL_String (u : URL) : string :=
  if negb (String.eqb (Opaque u) "") then Scheme u ++ ":" ++ Opaque u
  else (if String.eqb (Scheme u) "" then "" else Scheme u ++ "://")
       ++ Host u ++ Path u
       ++ (if String.eqb (Fragment u) "" then "" else "#" ++ Fragment u).

(** [base.ResolveReference(ref).String()] for absolute references,
    root-relative paths and fragment-only references. *)
Definition ResolveReference_String (base ref : URL) : string :=
  if negb (String.eqb (Scheme ref) "") then URL_String ref
  else if String.eqb (Path ref) "" then
    URL_String {| Scheme := Scheme base; Opaque := ""; Host := Host base;
                  Path := Path base; Fragment := Fragment ref |}
  else
    URL_String {| Scheme := Scheme base; Opaque := ""; Host := Host base;
                  Path := Path ref; Fragment := Fragment ref |}.

Definition anchor (href : string) : Node :=
  mkNode ElementNode "a" [ {| Key := "href"; Val := href |} ]
         [ mkNode TextNode "link" [] [] ].

Definition script (src : string) : Node :=
  mkNode ElementNode "script" [ {| Key := "src"; Val := src |} ] [].

Definition document (head body : list Node) : Node :=
  mkNode DocumentNode "" []
    [ mkNode ElementNode "html" []
        [ mkNode ElementNode "head" [] head;
          mkNode ElementNode "body" [] body ] ].

Definition pageRoot : string :=
  "<script src=/a.js></script><a href=/a>link</a><a href=/b>link</a><a href=https://other.test/p>link</a>".
Definition pageA : string := "<a href=/a1>link</a><a href=/a2>link</a>".
Definition pageB : string := "<a href=/b1>link</a><a href=/b2>link</a>".
Definition pageLeaf : string := "leaf".
Definition pageOdd : string :=
  "<a href=http://x.test/p2>link</a><a href=mailto:me@x.test>link</a><a href=javascript:void(0)>link</a><a href=#top>link</a>".

Definition html_Parse (s : string) : option Node :=
  if String.eqb s pageRoot then
    Some (document [script "/a.js"]
            [anchor "/a"; anchor "/b"; anchor "https://other.test/p"])
  else if String.eqb s pageA then
    Some (document [] [anchor "/a1"; anchor "/a2"])
  else if String.eqb s pageB then
    Some (document [] [anchor "/b1"; anchor "/b2"])
  else if String.eqb s pageOdd then
    Some (document []
            [anchor "http://x.test/p2"; anchor "mailto:me@x.test";
             anchor "javascript:void(0)"; anchor "#top"])
  else Some (document [] [mkNode TextNode s [] []]).

(** Only the unquoted pattern (index 1) matches the script tag of
    [pageRoot]. *)
Definition jsSubmatches (pattern : nat) (s : string) : list string :=
  if String.eqb s pageRoot then
    match pattern with
    | 1%nat => ["/a.js"]
    | _ => []
    end
  else [].

Definition cfgTwoThreads : Config := {|
  Domain := "https://x.test/"; OutputFile := ""; MaxDepth := 2;
  Threads := 2; Timeout_ := 30; IgnoreRobots := false; Verbose := false
|}.

Definition cfgDepthOne : Config := {|
  Domain := "https://x.test/"; OutputFile := ""; MaxDepth := 1;
  Threads := 5; Timeout_ := 30; IgnoreRobots := false; Verbose := false
|}.

(** The server answers 200 with [body] on every attempt. *)
Definition serves (body : string) : FetchEnv := {|
  http := fun _ => Response 200 body None;
  ctxEnv := quietEnv (fun _ => None)
|}.

(** The server answers 500 on every attempt. *)
Definition serves500 : FetchEnv := {|
  http := fun _ => Response 500 "" None;
  ctxEnv := quietEnv (fun _ => None)
|}.

(** The steps of a call of [crawlURL] from its entry to the start of its
    fetch. *)
Definition upToFetch (i : nat) : list Action :=
  [Enter i; Lock i; Test i; Insert i; Unlock i].

Definition stepS := step url_Parse ResolveReference_String html_Parse jsSubmatches.
Definition runS := run url_Parse ResolveReference_String html_Parse jsSubmatches.

(** Root, then /a and /b, then their four children, all up to their
    fetch. *)
Definition fanOut : list Action :=
  upToFetch 0 ++ [FetchDone 0 (serves pageRoot)]
  ++ [Acquire 1; Acquire 2]
  ++ upToFetch 1 ++ [FetchDone 1 (serves pageA)]
  ++ upToFetch 2 ++ [FetchDone 2 (serves pageB)]
  ++ [Acquire 3; Acquire 4; Acquire 5; Acquire 6]
  ++ upToFetch 3 ++ upToFetch 4 ++ upToFetch 5 ++ upToFetch 6.

(** A page at /a that links back to /b. *)
Definition pageToB : string := "<a href=/b>link</a>".

Definition html_Parse' (s : string) : option Node :=
  if String.eqb s pageToB then Some (document [] [anchor "/b"])
  else html_Parse s.

(** With a depth bound of 1: the root links to /a and /b, /a links to /b.
    The schedule fetches the root and /a and brings both calls for /b, the
    one at depth 2 (task 3) and the one at depth 1 (task 2), to their
    entry. *)
Definition twoPaths : list Action :=
  upToFetch 0 ++ [FetchDone 0 (serves pageRoot)]
  ++ [Acquire 1] ++ upToFetch 1 ++ [FetchDone 1 (serves pageToB)]
  ++ [Acquire 3; Acquire 2].

Definition stateTwoPaths : State :=
  Eval vm_compute in
    match run url_Parse ResolveReference_String html_Parse' jsSubmatches
              cfgDepthOne (start (Some []) "https://x.test/") twoPaths with
    | Some s => s
    | None => start None ""
    end.

(** The root fetch fails on all five attempts. *)
Definition rootFails : list Action :=
  upToFetch 0 ++ [FetchDone 0 serves500].

End Scenarios.

(* ===================================================================== *)
(** ** Auxiliary definitions for the retry executor                       *)
(* ===================================================================== *)

Module RetryAux.
Import Errors RetryExec.

(** The [RetryResult] that [Retry] allocates before its loop. *)
Definition emptyResult : RetryResult :=
  {| Success := false; Attempts := 0; LastError := None;
     AllErrors := []; Delays := []; Panicked := false |}.

(** The error [Retry] reports when [ctx.Done()] is ready before an
    attempt, and the one it reports when the backoff sleep is interrupted. *)
Definition cancelledBefore (env : RetryEnv) : error :=
  NewTimeoutError (timeNow env) "retry operation cancelled or timed out"
                  (Some (ctxErr env)).
Definition cancelledDuringDelay (env : RetryEnv) : error :=
  NewTimeoutError (timeNow env)
                  "retry operation cancelled or timed out during delay"
                  (Some (ctxErr env)).

End RetryAux.

(* ===================================================================== *)
(** ** Logging of errors (pkg/utils/logger.go and [LogError])             *)
(* ===================================================================== *)

Module Logging.
Import Errors.

(** [type LogLevel int] with its [iota] constants. *)
Inductive LogLevel : Set := DEBUG | INFO | WARN | ERROR | FATAL.

Definition LogLevel_int (l : LogLevel) : Z :=
  match l with
  | DEBUG => 0 | INFO => 1 | WARN => 2 | ERROR => 3 | FATAL => 4
  end.

(** One line handed to [log.Logger.Println]: the level, the message and the
    fields of the field logger (none for a plain logger).  The time stamp is
    left out, and the fields are kept as a map because the source prints
    them in the iteration order of a Go map. *)
Record LogLine : Type := mkLogLine {
  lineLevel : LogLevel;
  lineMsg : string;
  lineFields : gmap string string
}.

(** [type Logger struct]: its level and what it has written. *)
Record Logger : Type := mkLogger {
  level : LogLevel;
  written : list LogLine
}.

(** [func NewDefaultLogger() *Logger] *)
Definition NewDefaultLogger : Logger := {| level := INFO; written := [] |}.

(** [func (l *Logger) log(level, msg)] called without [args]. *)
Definition Logger_log (l : Logger) (lv : LogLevel) (msg : string) : Logger :=
  if LogLevel_int lv <? LogLevel_int (level l) then l
  else {| level := level l;
          written := written l
                     ++ [ {| lineLevel := lv; lineMsg := msg;
                             lineFields := ∅ |} ] |}.

(** [func (fl *FieldLogger) log(level, msg)] called without [args], for the
    field logger [l.WithFields(fields)]. *)
Definition FieldLogger_log (l : Logger) (fields : gmap string string)
    (lv : LogLevel) (msg : string) : Logger :=
  if LogLevel_int lv <? LogLevel_int (level l) then l
  else {| level := level l;
          written := written l
                     ++ [ {| lineLevel := lv; lineMsg := msg;
                             lineFields := fields |} ] |}.

(** [fmt.Sprintf("%v", v)] *)
Definition fmt_v (v : ctxval) : string :=
  match v with
  | CtxInt n => pretty n
  | CtxStr s => s
  end.

(** [func convertToStringMap(input) map[string]string] *)
Definition convertToStringMap (input : gmap string ctxval) : gmap string string :=
  fmt_v <$> input.

(** [func getLoggerOrDefault(logger *Logger) *Logger] *)
Definition getLoggerOrDefault (logger : option Logger) (defaultLogger : Logger)
    : Logger :=
  match logger with
  | Some l => l
  | None => defaultLogger
  end.

(** [func LogError(logger, err, context)] on the logger that
    [getLoggerOrDefault] selects. *)
Definition LogError (logger : Logger) (err : option error)
    (context : gmap string ctxval) : Logger :=
  match err with
  | None => logger
  | Some (App t m c ctx ts r as appErr) =>
      (* first the error's own context, then the caller's on top of it *)
      let allContext := context ∪ ctx in
      let fields := convertToStringMap allContext in
      match t with
      | NetworkError | TimeoutError =>
          FieldLogger_log logger fields WARN (Error_ appErr)
      | HTTPError =>
          match ctx !! "status_code" with
          | Some (CtxInt statusCode) =>
              if 500 <=? statusCode
              then FieldLogger_log logger fields ERROR (Error_ appErr)
              else FieldLogger_log logger fields WARN (Error_ appErr)
          | _ => FieldLogger_log logger fields WARN (Error_ appErr)
          end
      | ConfigError | ValidationError =>
          FieldLogger_log logger fields ERROR (Error_ appErr)
      | _ => FieldLogger_log logger fields ERROR (Error_ appErr)
      end
  | Some (Plain g as e) =>
      if 0 <? Z.of_nat (size context)
      then FieldLogger_log logger (convertToStringMap context) ERROR (Error_ e)
      else Logger_log logger ERROR (Error_ e)
  end.

End Logging.

(* ===================================================================== *)
(** ** Auxiliary definitions for the traversal engine                     *)
(* ===================================================================== *)

Module CrawlerAux.
Import Errors RetryExec Crawler.

(** A crawler whose resource set is empty and whose sink is open and
    empty. *)
Definition emptySets : Sets := {| jsFiles := ∅; output := Some [] |}.

(** [addJSFile] for each URL of a list, in order. *)
Definition addJSFiles (urls : list string) (s : Sets) : Sets :=
  fold_left (fun s u => addJSFile u s) urls s.

(** The sink holds each line once, and exactly the URLs of the resource
    set. *)
Definition SinkInv (s : Sets) : Prop :=
  exists lines,
    output s = Some lines
    /\ NoDup lines
    /\ forall u, In u lines <-> default false (jsFiles s !! u) = true.

(** The number of [a] elements of a document. *)
Fixpoint countAnchors (n : Node) : nat :=
  match n with
  | mkNode ty data _ children =>
      (if NodeType_eqb ty ElementNode && String.eqb data "a" then 1 else 0)
      + (fix sum (cs : list Node) : nat :=
           match cs with
           | [] => 0
           | c :: cs' => countAnchors c + sum cs'
           end) children
  end%nat.

(** The goroutine of a child is somewhere between taking its slot and
    giving it back. *)
Definition running (t : Task) : bool :=
  match pc t with
  | WaitSem | Waiting | Finished => false
  | _ => true
  end.

Definition isFinished (t : Task) : bool :=
  match pc t with Finished => true | _ => false end.

Definition isWaitSem (t : Task) : bool :=
  match pc t with WaitSem => true | _ => false end.

(** The tasks form a tree rooted at task 0: a child was spawned after its
    parent and one level deeper. *)
Record TreeInv (s : State) : Prop := mkTreeInv {
  tree_root : exists r, tasks s !! 0%nat = Some r /\ parent r = None
                        /\ depth r = 0;
  tree_child : forall i t, tasks s !! i = Some t -> i <> 0%nat ->
      exists p tp, parent t = Some p /\ (p < i)%nat
                   /\ tasks s !! p = Some tp
                   /\ depth t = depth tp + 1;
  tree_join : forall i t p tp,
      tasks s !! i = Some t -> parent t = Some p ->
      tasks s !! p = Some tp ->
      match pc tp with
      | Waiting => True
      | Returned _ | Finished => pc t = Finished
      | _ => False
      end;
  tree_root_never_finished : forall r, tasks s !! 0%nat = Some r ->
                                       pc r <> Finished /\ pc r <> WaitSem
}.

(** The call of a task has started its fetch, or is past it. *)
Definition startedFetch (p : PC) : bool :=
  match p with
  | Fetching | Waiting | Returned _ | Finished => true
  | _ => false
  end.

(** Every entry of the fetch log belongs to a task that started it. *)
Definition FetchedInv (s : State) : Prop :=
  forall u d, In (u, d) (fetched s) ->
    exists i t, tasks s !! i = Some t /\ url t = u /\ depth t = d
                /\ startedFetch (pc t) = true.

(** The moves of a program counter that one step can make. *)
Inductive moves : PC -> PC -> Prop :=
  | moves_acquire : moves WaitSem AtEntry
  | moves_too_deep : moves AtEntry (Returned None)
  | moves_enter : moves AtEntry AtLock
  | moves_lock : moves AtLock AtTest
  | moves_seen : moves AtTest AtUnlockSeen
  | moves_new : moves AtTest AtInsert
  | moves_insert : moves AtInsert AtUnlock
  | moves_unlock_seen : moves AtUnlockSeen (Returned None)
  | moves_unlock : moves AtUnlock Fetching
  | moves_failed (ret : option error) : moves Fetching (Returned ret)
  | moves_fetched : moves Fetching Waiting
  | moves_join : moves Waiting (Returned None)
  | moves_release (ret : option error) : moves (Returned ret) Finished.

Definition isWaiting (t : Task) : bool :=
  match pc t with Waiting => true | _ => false end.

(** The call is the one at work: its goroutine is past its semaphore and
    outside [wg.Wait()], or it is inside [wg.Wait()] while none of the
    goroutines it started holds a slot of its semaphore. *)
Definition atWork (s : State) (i : nat) (t : Task) : bool :=
  running t || (isWaiting t && (semLen s i =? 0)).

Definition OneAtWork (s : State) : Prop :=
  forall i j ti tj,
    tasks s !! i = Some ti -> tasks s !! j = Some tj ->
    atWork s i ti = true -> atWork s j tj = true -> i = j.

Section Failures.
Context {rt : GoRuntime}.

(** The [utils.Retry] of [crawlURL(targetURL, ..)] fails under [fe], and
    [e] is the error that [crawlURL] makes of it, logs and returns. *)
Definition failsWith (targetURL : string) (fe : FetchEnv) (e : error) : Prop :=
  let result := Retry (retryEnvOf targetURL fe) (Some retryConfig) in
  Success result = false
  /\ WrapError (timeNow (ctxEnv fe)) (LastError result)
       ("failed to crawl " ++ targetURL ++ " after "
        ++ pretty (Attempts result) ++ " attempts")%string = Some e.

(** Every entry of the failure log belongs to a call that has returned the
    error of its own failed fetch, and that error was logged. *)
Definition FailInv (s : State) : Prop :=
  forall i u, In (i, u) (failed s) ->
    exists t e fe,
      tasks s !! i = Some t /\ url t = u
      /\ failsWith u fe e /\ In e (logged s)
      /\ (pc t = Returned (Some e) \/ pc t = Finished).

End Failures.

End CrawlerAux.

(* ===================================================================== *)
(** ** Timeout manager (pkg/utils/timeout.go)                             *)
(* ===================================================================== *)

Module Timeouts.
Import RetryExec.

(** [type TimeoutConfig struct] *)
Record TimeoutConfig : Type := mkTimeoutConfig {
  OperationTimeout : Duration;
  GlobalTimeout : Duration;
  HeartbeatInterval : Duration;
  GracePeriod : Duration
}.

(** [func DefaultTimeoutConfig() *TimeoutConfig] *)
Definition DefaultTimeoutConfig : TimeoutConfig := {|
  OperationTimeout := 30 * Second; GlobalTimeout := 5 * Minute;
  HeartbeatInterval := 5 * Second; GracePeriod := 10 * Second |}.

(** [func HTTPTimeoutConfig() *TimeoutConfig] *)
Definition HTTPTimeoutConfig : TimeoutConfig := {|
  OperationTimeout := 15 * Second; GlobalTimeout := 2 * Minute;
  HeartbeatInterval := 3 * Second; GracePeriod := 5 * Second |}.

(** [func CrawlerTimeoutConfig() *TimeoutConfig] *)
Definition CrawlerTimeoutConfig : TimeoutConfig := {|
  OperationTimeout := 20 * Second; GlobalTimeout := 10 * Minute;
  HeartbeatInterval := 10 * Second; GracePeriod := 15 * Second |}.

(** [type OperationContext struct], as far as the manager acts on it: the
    context is represented by whether its [Cancel] was called, the channel
    [Done] by whether it is closed, the one-slot channel [Heartbeat] by
    whether its slot is filled. *)
Record OperationContext : Type := mkOperation {
  ID : string;
  OpTimeout : Duration;
  Cancelled : bool;
  DoneClosed : bool;
  HeartbeatFull : bool
}.

(** [type TimeoutManager struct].  [heap] holds every [OperationContext]
    ever allocated, by address; [operations] is the map from ids to
    addresses; [panicked] records a [close] of a closed channel. *)
Record TimeoutManager : Type := mkManager {
  tmConfig : TimeoutConfig;
  heap : list OperationContext;
  operations : gmap string nat;
  globalCancelled : bool;
  panicked : bool
}.

(** [func NewTimeoutManager(config, logger) *TimeoutManager] *)
Definition NewTimeoutManager (config : option TimeoutConfig) : TimeoutManager :=
  {| tmConfig := match config with
                 | Some c => c
                 | None => DefaultTimeoutConfig
                 end;
     heap := []; operations := ∅; globalCancelled := false;
     panicked := false |}.

(** [opCtx.Cancel()] *)
Definition cancelOp (op : OperationContext) : OperationContext :=
  {| ID := ID op; OpTimeout := OpTimeout op; Cancelled := true;
     DoneClosed := DoneClosed op; HeartbeatFull := HeartbeatFull op |}.

(** [close(opCtx.Done)]; the flag tells whether the channel was closed
    already, in which case Go panics. *)
Definition closeDone (op : OperationContext) : OperationContext * bool :=
  ({| ID := ID op; OpTimeout := OpTimeout op; Cancelled := Cancelled op;
      DoneClosed := true; HeartbeatFull := HeartbeatFull op |},
   DoneClosed op).

(** [func (tm *TimeoutManager) CreateOperation(id, timeout) *OperationContext];
    returns the manager and the address of the new operation. *)
Definition CreateOperation (tm : TimeoutManager) (id : string)
    (timeout : Duration) : TimeoutManager * nat :=
  let timeout := if timeout =? 0 then OperationTimeout (tmConfig tm)
                 else timeout in
  let opCtx := {| ID := id; OpTimeout := timeout; Cancelled := false;
                  DoneClosed := false; HeartbeatFull := false |} in
  let addr := length (heap tm) in
  ({| tmConfig := tmConfig tm;
      heap := heap tm ++ [opCtx];
      operations := <[id := addr]> (operations tm);
      globalCancelled := globalCancelled tm;
      panicked := panicked tm |}, addr).

(** [func (tm *TimeoutManager) CompleteOperation(id)] *)
Definition CompleteOperation (tm : TimeoutManager) (id : string)
    : TimeoutManager :=
  match operations tm !! id with
  | Some addr =>
      match heap tm !! addr with
      | Some opCtx =>
          let '(opCtx, twice) := closeDone opCtx in
          let opCtx := cancelOp opCtx in
          {| tmConfig := tmConfig tm;
             heap := <[addr := opCtx]> (heap tm);
             operations := delete id (operations tm);
             globalCancelled := globalCancelled tm;
             panicked := panicked tm || twice |}
      | None => tm
      end
  | None => tm
  end.

(** [func (tm *TimeoutManager) CancelOperation(id)] *)
Definition CancelOperation (tm : TimeoutManager) (id : string)
    : TimeoutManager :=
  match operations tm !! id with
  | Some addr =>
      match heap tm !! addr with
      | Some opCtx =>
          let opCtx := cancelOp opCtx in
          let '(opCtx, twice) := closeDone opCtx in
          {| tmConfig := tmConfig tm;
             heap := <[addr := opCtx]> (heap tm);
             operations := delete id (operations tm);
             globalCancelled := globalCancelled tm;
             panicked := panicked tm || twice |}
      | None => tm
      end
  | None => tm
  end.

(** [func (tm *TimeoutManager) SendHeartbeat(id)]: a send that is skipped
    when the slot is taken. *)
Definition SendHeartbeat (tm : TimeoutManager) (id : string) : TimeoutManager :=
  match operations tm !! id with
  | Some addr =>
      match heap tm !! addr with
      | Some opCtx =>
          if HeartbeatFull opCtx then tm
          else
            {| tmConfig := tmConfig tm;
               heap := <[addr := {| ID := ID opCtx;
                                    OpTimeout := OpTimeout opCtx;
                                    Cancelled := Cancelled opCtx;
                                    DoneClosed := DoneClosed opCtx;
                                    HeartbeatFull := true |}]> (heap tm);
               operations := operations tm;
               globalCancelled := globalCancelled tm;
               panicked := panicked tm |}
      | None => tm
      end
  | None => tm
  end.

(** [func (tm *TimeoutManager) GetOperationContext(id) (context.Context, bool)],
    as the address of the operation. *)
Definition GetOperationContext (tm : TimeoutManager) (id : string)
    : option nat :=
  operations tm !! id.

(** [func (tm *TimeoutManager) GetActiveOperations() int] *)
Definition GetActiveOperations (tm : TimeoutManager) : Z :=
  Z.of_nat (size (operations tm)).

(** One round of the loop of [Shutdown]: cancel and close the operation at
    an address. *)
Definition shutdownOne (hp : list OperationContext * bool) (addr : nat)
    : list OperationContext * bool :=
  match fst hp !! addr with
  | Some opCtx =>
      let '(opCtx, twice) := closeDone (cancelOp opCtx) in
      (<[addr := opCtx]> (fst hp), snd hp || twice)
  | None => hp
  end.

(** [func (tm *TimeoutManager) Shutdown()] *)
Definition Shutdown (tm : TimeoutManager) : TimeoutManager :=
  let '(h, p) := fold_left shutdownOne
                   (map snd (map_to_list (operations tm)))
                   (heap tm, panicked tm) in
  {| tmConfig := tmConfig tm; heap := h; operations := ∅;
     globalCancelled := true; panicked := p |}.

(** The second half of [monitorGlobalTimeout]: [opCtx.Cancel()] for every
    operation of the slice [operations], leaving the map as it is.  The
    slice was collected under the read lock and is used after the lock is
    released, so [snapshot] holds the addresses that were registered at
    some earlier moment. *)
Definition cancelAll (tm : TimeoutManager) (snapshot : list nat)
    : TimeoutManager :=
  {| tmConfig := tmConfig tm;
     heap := fold_left (fun (h : list OperationContext) (addr : nat) =>
                          match h !! addr with
                          | Some opCtx => <[addr := cancelOp opCtx]> h
                          | None => h
                          end)
                       snapshot (heap tm);
     operations := operations tm;
     globalCancelled := globalCancelled tm;
     panicked := panicked tm |}.

(** The [select] of [SendHeartbeat] on the operation it has looked up: a
    send on [Heartbeat] that is skipped when the slot is taken.  It runs
    after the read lock is released. *)
Definition sendTo (tm : TimeoutManager) (addr : nat) : TimeoutManager :=
  match heap tm !! addr with
  | Some opCtx =>
      if HeartbeatFull opCtx then tm
      else
        {| tmConfig := tmConfig tm;
           heap := <[addr := {| ID := ID opCtx;
                                OpTimeout := OpTimeout opCtx;
                                Cancelled := Cancelled opCtx;
                                DoneClosed := DoneClosed opCtx;
                                HeartbeatFull := true |}]> (heap tm);
           operations := operations tm;
           globalCancelled := globalCancelled tm;
           panicked := panicked tm |}
  | None => tm
  end.

(** What the manager, its callers and its monitor goroutines can do.  The
    calls that take [tm.mutex] for writing are atomic; what the source does
    outside the lock is an action of its own: the send of [SendHeartbeat]
    ([HeartbeatSent], on an operation that may have been completed since it
    was looked up) and the cancellations of [monitorGlobalTimeout]. *)
Inductive Call : Type :=
  | CallCreate (id : string) (timeout : Duration)
  | CallComplete (id : string)
  | CallCancel (id : string)
  | CallHeartbeat (id : string)
  | HeartbeatSent (addr : nat)
  | CallShutdown
  | GlobalExpired (snapshot : list nat)
                                  (* monitorGlobalTimeout cancels the
                                     operations it has collected *)
  | MonitorExpired (addr : nat)   (* monitorOperation of the operation at
                                     [addr] sees its context done and calls
                                     [tm.CancelOperation(opCtx.ID)] *)
  | MonitorHeartbeat (addr : nat). (* monitorOperation takes the heartbeat *)

Definition call (tm : TimeoutManager) (c : Call) : TimeoutManager :=
  match c with
  | CallCreate id timeout => fst (CreateOperation tm id timeout)
  | CallComplete id => CompleteOperation tm id
  | CallCancel id => CancelOperation tm id
  | CallHeartbeat id => SendHeartbeat tm id
  | HeartbeatSent addr => sendTo tm addr
  | CallShutdown => Shutdown tm
  | GlobalExpired snapshot => cancelAll tm snapshot
  | MonitorExpired addr =>
      match heap tm !! addr with
      | Some opCtx => CancelOperation tm (ID opCtx)
      | None => tm
      end
  | MonitorHeartbeat addr =>
      match heap tm !! addr with
      | Some opCtx =>
          {| tmConfig := tmConfig tm;
             heap := <[addr := {| ID := ID opCtx;
                                  OpTimeout := OpTimeout opCtx;
                                  Cancelled := Cancelled opCtx;
                                  DoneClosed := DoneClosed opCtx;
                                  HeartbeatFull := false |}]> (heap tm);
             operations := operations tm;
             globalCancelled := globalCancelled tm;
             panicked := panicked tm |}
      | None => tm
      end
  end.

Definition calls (tm : TimeoutManager) (cs : list Call) : TimeoutManager :=
  fold_left call cs tm.

(** The registered operations are allocated, open, and registered under
    their own id only; nothing has panicked; what is closed is cancelled. *)
Record ManagerInv (tm : TimeoutManager) : Prop := mkManagerInv {
  mi_registered : forall id addr, operations tm !! id = Some addr ->
      exists opCtx, heap tm !! addr = Some opCtx
                    /\ ID opCtx = id /\ DoneClosed opCtx = false;
  mi_no_panic : panicked tm = false;
  mi_closed_cancelled : forall addr opCtx, heap tm !! addr = Some opCtx ->
      DoneClosed opCtx = true -> Cancelled opCtx = true
}.

End Timeouts.

(* ===================================================================== *)
(** ** Further scenarios                                                  *)
(* ===================================================================== *)

Module MoreScenarios.
Import Errors RetryExec Crawler Scenarios.

(** A configuration that allows no attempt at all. *)
Definition cfgNoAttempts : RetryConfig := {|
  MaxAttempts := 0;
  InitialDelay := 100 * Millisecond;
  MaxDelay := 10 * Second;
  BackoffFactor := 2;
  Jitter := false;
  RetryableErrors := [NetworkError; TimeoutError; HTTPError];
  Timeout := 0
|}.

(** Every attempt fails with HTTP 500; a context is done when attempt 3 is
    about to start. *)
Definition doneAtThird : RetryEnv := {|
  doneBefore := fun i => i =? 3;
  fnResult := fun _ => Some http500;
  doneDuringDelay := fun _ _ => false;
  randFloat64 := fun _ => 0.5%float;
  ctxErr := deadlineExceeded;
  timeNow := 0
|}.

(** Every attempt fails with HTTP 500; a context is done during the sleep
    that follows attempt 2. *)
Definition doneInSecondSleep : RetryEnv := {|
  doneBefore := fun _ => false;
  fnResult := fun _ => Some http500;
  doneDuringDelay := fun i _ => i =? 2;
  randFloat64 := fun _ => 0.5%float;
  ctxErr := deadlineExceeded;
  timeNow := 0
|}.

(** The context a caller of [LogError] passes for a failed page. *)
Definition callerContext : gmap string ctxval :=
  {[ "url" := CtxStr "https://x.test/a"; "status_code" := CtxStr "n/a" ]}.

Definition cfgNoThreads : Config := {|
  Domain := "https://x.test/"; OutputFile := ""; MaxDepth := 2;
  Threads := 0; Timeout_ := 30; IgnoreRobots := false; Verbose := false
|}.

Definition cfgOneThread : Config := {|
  Domain := "https://x.test/"; OutputFile := ""; MaxDepth := 2;
  Threads := 1; Timeout_ := 30; IgnoreRobots := false; Verbose := false
|}.

(** The root page is fetched and its goroutines are started. *)
Definition rootFetched : list Action :=
  upToFetch 0 ++ [FetchDone 0 (serves pageRoot)].

(** The whole of a task that fetches a page without links. *)
Definition leafCall (i : nat) : list Action :=
  [Acquire i] ++ upToFetch i ++ [FetchDone i (serves pageLeaf); Join i;
                                 Release i].

(** A complete session: the root is fetched, then /a and /b are crawled
    one after the other, then the return of the root call. *)
Definition wholeCrawl : list Action :=
  rootFetched ++ leafCall 1 ++ leafCall 2 ++ [Join 0].

(** The root is fetched and the call for /a has started its fetch. *)
Definition childFetching : list Action :=
  rootFetched ++ [Acquire 1] ++ upToFetch 1.

Definition stateChildFetching : State :=
  Eval vm_compute in
    match run url_Parse ResolveReference_String html_Parse jsSubmatches
              cfgTwoThreads (start (Some []) "https://x.test/") childFetching
    with
    | Some s => s
    | None => start None ""
    end.

(** The fetch of /a fails on all five attempts, /b is crawled, and the
    root call returns. *)
Definition childFails : list Action :=
  rootFetched ++ [Acquire 1] ++ upToFetch 1
  ++ [FetchDone 1 serves500; Release 1] ++ leafCall 2 ++ [Join 0].

(** The call for a URL that is already in the visited set. *)
Definition seenCall : list Action := [Enter 0; Lock 0; Test 0; Unlock 0].

(** What [CrawlFromStdin] reads: the same URL on two lines with an empty
    line between them; and the schedules of the two sessions. *)
Definition stdinLines : list string :=
  ["https://x.test/"; ""; "https://x.test/"].
Definition stdinScheds : list (list Action) := [wholeCrawl; seenCall].

End MoreScenarios.

(* ===================================================================== *)
(** ** Properties of the error taxonomy                                   *)
(* ===================================================================== *)

Import Errors RetryExec.

Lemma WrapError_App (now : Z) t m c ctx ts r (msg : string) :
  WrapError now (Some (App t m c ctx ts r)) msg
  = Some (App t (msg ++ ": " ++ m)%string c ctx now r).
Proof. reflexivity. Qed.

Lemma WrapMany_App (now : nat -> Z) (ms : list string) : forall k t m c ctx ts r,
  exists m' ts',
    WrapMany now k (Some (App t m c ctx ts r)) ms = Some (App t m' c ctx ts' r).
Proof.
  induction ms as [|msg ms IH]; intros k t m c ctx ts r; simpl.
  - by exists m, ts.
  - apply IH.
Qed.

(** C8.  Wrapping a typed application error with a message yields a typed
    error of the same kind and the same retryable flag whose message is the
    given message, [": "], and the old message; after any number of wraps
    the kind, the flag, and hence the verdict of [IsRetryableError] and of
    [isErrorRetryable] for every list of retryable kinds are those of the
    original error. *)
Theorem C8_WrapError_preserves_kind_and_retryable :
  forall t m c ctx ts r,
    let e := App t m c ctx ts r in
    (forall now msg,
        exists e', WrapError now (Some e) msg = Some e'
                   /\ Type_of e' = Some t
                   /\ Retryable_of e' = Some r
                   /\ Message_of e' = Some (msg ++ ": " ++ m)%string)
    /\ (forall now k ms,
          exists e', WrapMany now k (Some e) ms = Some e'
                     /\ Type_of e' = Type_of e
                     /\ Retryable_of e' = Retryable_of e
                     /\ IsRetryableError e' = IsRetryableError e
                     /\ forall kinds, isErrorRetryable (Some e') kinds
                                      = isErrorRetryable (Some e) kinds).
Proof.
  intros t m c ctx ts r e; split.
  - intros now msg. eexists; split; [apply WrapError_App|]. by repeat split.
  - intros now k ms.
    destruct (WrapMany_App now ms k t m c ctx ts r) as (m' & ts' & Hw).
    eexists; split; [exact Hw|]. by repeat split.
Qed.

(* ===================================================================== *)
(** ** Properties of the retry executor                                   *)
(* ===================================================================== *)

Section RetryFacts.
Context {rt : GoRuntime}.
Variable env : RetryEnv.
Variable config : RetryConfig.

Lemma retried_inv i :
  retried env config i = true ->
  doneBefore env i = false
  /\ (exists err, fnResult env i = Some err
                  /\ isErrorRetryable (Some err) (RetryableErrors config) = true)
  /\ doneDuringDelay env i (calculateDelay i config (randFloat64 env i)) = false.
Proof.
  unfold retried. intros H.
  apply andb_prop in H as [H H3]. apply andb_prop in H as [H1 H2].
  apply negb_true_iff in H1, H3. repeat split; try done.
  destruct (fnResult env i) as [err|]; [by exists err | done].
Qed.

(** One iteration that fails and retries. *)
Lemma Retry_loop_retried fuel a res :
  retried env config a = true ->
  a <> MaxAttempts config ->
  Retry_loop env config (S fuel) a res
  = Retry_loop env config fuel (a + 1) (afterFailure env config res a).
Proof.
  intros (Hb & (err & Hfn & Hr) & Hd)%retried_inv Hne.
  unfold afterFailure. cbn [Retry_loop]. rewrite Hb, Hfn, Hr.
  apply Z.eqb_neq in Hne. cbn [negb]. rewrite Hne.
  cbn [Success Attempts LastError AllErrors Delays]. rewrite Hd. reflexivity.
Qed.

(** [j] such iterations in a row. *)
Lemma Retry_loop_advance (j : nat) : forall fuel a res,
  (forall i, a <= i < a + Z.of_nat j -> retried env config i = true) ->
  a + Z.of_nat j <= MaxAttempts config ->
  Retry_loop env config (j + fuel) a res
  = Retry_loop env config fuel (a + Z.of_nat j)
      (fold_left (afterFailure env config) (seqZ a (Z.of_nat j)) res).
Proof.
  induction j as [|j IH]; intros fuel a res Hall Hle.
  - simpl. by rewrite Z.add_0_r.
  - replace (S j + fuel)%nat with (S (j + fuel)) by lia.
    rewrite Retry_loop_retried; [| apply Hall; lia | lia].
    rewrite IH; [| intros i Hi; apply Hall; lia | lia].
    replace (a + 1 + Z.of_nat j) with (a + Z.of_nat (S j)) by lia.
    f_equal.
    rewrite (seqZ_cons a (Z.of_nat (S j))) by lia. simpl.
    by replace (Z.pred (Z.of_nat (S j))) with (Z.of_nat j) by lia.
Qed.

Lemma fold_afterFailure_fields (j : nat) : forall a res,
  (forall i, a <= i < a + Z.of_nat j -> retried env config i = true) ->
  let res' := fold_left (afterFailure env config) (seqZ a (Z.of_nat j)) res in
  Success res' = Success res
  /\ AllErrors res' = AllErrors res ++ errorsOf env a j
  /\ length (errorsOf env a j) = j
  /\ (j <> 0%nat -> LastError res' = fnResult env (a + Z.of_nat j - 1)
                   /\ Attempts res' = a + Z.of_nat j - 1
                   /\ fnResult env (a + Z.of_nat j - 1) <> None).
Proof.
  unfold errorsOf.
  induction j as [|j IH]; intros a res Hall; simpl.
  - repeat split; try done. by rewrite app_nil_r.
  - rewrite (seqZ_cons a (Z.of_nat (S j))) by lia.
    replace (Z.pred (Z.of_nat (S j))) with (Z.of_nat j) by lia.
    destruct (retried_inv a) as (_ & (err & Hfn & _) & _); [apply Hall; lia|].
    cbn [fold_left omap list_omap].
    destruct (IH (Z.succ a) (afterFailure env config res a)) as (HS & HA & HL & Hlast);
      [intros i Hi; apply Hall; lia|].
    rewrite HS, HA.
    assert (Haf : afterFailure env config res a
                  = {| Success := Success res; Attempts := a;
                       LastError := Some err;
                       AllErrors := AllErrors res ++ [err];
                       Delays := Delays res
                         ++ [(a, calculateDelay a config (randFloat64 env a))];
                       Panicked := Panicked res |})
      by (unfold afterFailure; by rewrite Hfn).
    rewrite Hfn, Haf. cbn [Success AllErrors].
    split; [done|]. split; [by rewrite <- app_assoc|].
    split; [simpl; by rewrite HL|].
    intros _. destruct j as [|j].
    + simpl.
      replace (a + Z.of_nat 1 - 1) with a by lia. rewrite Hfn. done.
    + destruct Hlast as (H1 & H2 & H3); [done|].
      replace (a + Z.of_nat (S (S j)) - 1) with (Z.succ a + Z.of_nat (S j) - 1) by lia.
      rewrite <- Haf. auto.
Qed.

End RetryFacts.

Section RetryClaims.
Context {rt : GoRuntime}.

Lemma isErrorRetryable_loop_false t rf kinds :
  ~ In t kinds \/ rf = false ->
  isErrorRetryable_loop t rf kinds = false.
Proof.
  induction kinds as [|k kinds IH]; intros H; simpl; [done|].
  destruct (ErrorType_eqb t k) eqn:E.
  - destruct H as [H| ->]; [|done].
    exfalso; apply H. left. by destruct t, k.
  - apply IH. destruct H as [H|H]; [left|by right].
    intros Hin. apply H. by right.
Qed.

(** The loop reaches attempt [k] with the record of the [k-1] failures. *)
Lemma Retry_reaches (env : RetryEnv) (cfg : RetryConfig) (k : Z) :
  1 <= k <= MaxAttempts cfg ->
  (forall i, 1 <= i < k -> retried env cfg i = true) ->
  exists res,
    Retry env (Some cfg)
    = Retry_loop env cfg (S (Z.to_nat (MaxAttempts cfg - k))) k res
    /\ Success res = false
    /\ AllErrors res = errorsOf env 1 (Z.to_nat (k - 1))
    /\ length (AllErrors res) = Z.to_nat (k - 1)
    /\ (k = 1 -> LastError res = None)
    /\ (1 < k -> LastError res = fnResult env (k - 1)
                 /\ fnResult env (k - 1) <> None).
Proof.
  intros Hk Hall. unfold Retry.
  destruct (MaxAttempts cfg <? 0) eqn:Hneg; [apply Z.ltb_lt in Hneg; lia|].
  set (init := {| Success := false; Attempts := 0; LastError := None;
                  AllErrors := []; Delays := []; Panicked := false |}).
  replace (Z.to_nat (MaxAttempts cfg))
    with (Z.to_nat (k - 1) + S (Z.to_nat (MaxAttempts cfg - k)))%nat by lia.
  rewrite Retry_loop_advance;
    [| intros i Hi; apply Hall; lia | lia].
  destruct (fold_afterFailure_fields env cfg (Z.to_nat (k - 1)) 1 init)
    as (HS & HA & HL & Hlast); [intros i Hi; apply Hall; lia|].
  subst init. cbn [Success AllErrors app] in HS, HA.
  eexists; split; [f_equal; lia|].
  split; [by rewrite HS|]. split; [by rewrite HA|].
  split; [by rewrite HA, HL|]. split.
  - intros ->. reflexivity.
  - intros H1. destruct Hlast as (H2 & _ & H3); [lia|].
    replace (1 + Z.of_nat (Z.to_nat (k - 1)) - 1) with (k - 1) in H2, H3 by lia.
    done.
Qed.

(** C5.  If the loop reaches attempt [k] (the earlier attempts failed with
    retryable errors and no context was done) and attempt [k] fails with a
    typed error whose kind is not among the configured retryable kinds, or
    whose retryable flag is false, then [Retry] returns at once: not
    succeeded, [k] attempts made, that error as last error and as the last
    entry of the history, however many attempts remain. *)
Theorem C5_non_retryable_error_stops_retry :
  forall (env : RetryEnv) (cfg : RetryConfig) (k : Z) t m c ctx ts rf,
    1 <= k <= MaxAttempts cfg ->
    (forall i, 1 <= i < k -> retried env cfg i = true) ->
    doneBefore env k = false ->
    fnResult env k = Some (App t m c ctx ts rf) ->
    ~ In t (RetryableErrors cfg) \/ rf = false ->
    let r := Retry env (Some cfg) in
    Success r = false
    /\ Attempts r = k
    /\ LastError r = Some (App t m c ctx ts rf)
    /\ AllErrors r = errorsOf env 1 (Z.to_nat (k - 1)) ++ [App t m c ctx ts rf].
Proof.
  intros env cfg k t m c ctx ts rf Hk Hall Hb Hfn Hnr r. subst r.
  destruct (Retry_reaches env cfg k Hk Hall) as (res & -> & HS & HA & _).
  cbn [Retry_loop]. rewrite Hb, Hfn.
  cbn [isErrorRetryable]. rewrite isErrorRetryable_loop_false by done.
  cbn. by rewrite HS, HA.
Qed.

(** A success leaves [LastError] as the last failure left it. *)
Lemma Retry_loop_success_LastError (env : RetryEnv) (cfg : RetryConfig)
    (fuel : nat) : forall a res,
  Success res = false ->
  1 <= a ->
  (LastError res = None <-> a = 1) ->
  let r := Retry_loop env cfg fuel a res in
  Success r = true -> (LastError r = None <-> Attempts r = 1).
Proof.
  induction fuel as [|fuel IH]; intros a res HS Ha Hiff; cbn [Retry_loop].
  - intros H. congruence.
  - destruct (doneBefore env a); [cbn; congruence|].
    destruct (fnResult env a) as [err|]; [|cbn; intros _; exact Hiff].
    destruct (negb _); [cbn; congruence|].
    destruct (a =? MaxAttempts cfg); [cbn; congruence|].
    cbn [Success Attempts LastError AllErrors Delays].
    destruct (doneDuringDelay _ _ _); [cbn; congruence|].
    apply IH; cbn; [done | lia |].
    split; [done | lia].
Qed.

(** C9.  If the loop reaches attempt [n > 1] and that attempt succeeds, the
    result has [Success = true] while [LastError] is still the (non-nil)
    error of attempt [n-1] and [AllErrors] holds the [n-1] earlier
    failures; so [WithRetry], which returns [LastError], reports that error
    although the call succeeded.  In general a successful result has a nil
    [LastError] exactly when the success came on the first attempt. *)
Theorem C9_success_after_failures_keeps_LastError :
  forall (env : RetryEnv) (cfg : RetryConfig),
    (forall n,
        1 < n <= MaxAttempts cfg ->
        (forall i, 1 <= i < n -> retried env cfg i = true) ->
        doneBefore env n = false ->
        fnResult env n = None ->
        let r := Retry env (Some cfg) in
        Success r = true
        /\ Attempts r = n
        /\ LastError r = fnResult env (n - 1)
        /\ LastError r <> None
        /\ AllErrors r = errorsOf env 1 (Z.to_nat (n - 1))
        /\ Z.of_nat (length (AllErrors r)) = n - 1
        /\ WithRetry (Some cfg) env = fnResult env (n - 1))
    /\ (let r := Retry env (Some cfg) in
        Success r = true -> (LastError r = None <-> Attempts r = 1)).
Proof.
  intros env cfg; split.
  - intros n Hn Hall Hb Hfn r.
    assert (Hr : Success r = true /\ Attempts r = n
                 /\ LastError r = fnResult env (n - 1)
                 /\ LastError r <> None
                 /\ AllErrors r = errorsOf env 1 (Z.to_nat (n - 1))
                 /\ Z.of_nat (length (AllErrors r)) = n - 1).
    { subst r.
      destruct (Retry_reaches env cfg n) as (res & -> & HS & HA & HL & _ & Hlast);
        [lia | done |].
      destruct Hlast as (H1 & H2); [lia|].
      cbn [Retry_loop]. rewrite Hb, Hfn. cbn.
      rewrite H1, HL. repeat split; try done. lia. }
    destruct Hr as (H1 & H2 & H3 & H4 & H5 & H6).
    repeat split; try done.
  - intros r. subst r. unfold Retry.
    destruct (MaxAttempts cfg <? 0); [cbn; congruence|].
    apply Retry_loop_success_LastError; cbn; try done; lia.
Qed.

(** *** The delays *)

(** Every delay the loop computes is computed after an attempt that is not
    the last one. *)
Lemma Retry_loop_Delays (env : RetryEnv) (cfg : RetryConfig) (fuel : nat) :
  forall a res,
    1 <= a ->
    a + Z.of_nat fuel = MaxAttempts cfg + 1 ->
    (forall i d, In (i, d) (Delays res) ->
                 1 <= i < MaxAttempts cfg
                 /\ d = calculateDelay i cfg (randFloat64 env i)) ->
    forall i d, In (i, d) (Delays (Retry_loop env cfg fuel a res)) ->
                1 <= i < MaxAttempts cfg
                /\ d = calculateDelay i cfg (randFloat64 env i).
Proof.
  induction fuel as [|fuel IH]; intros a res Ha Hfuel Hres; cbn [Retry_loop];
    [done|].
  destruct (doneBefore env a); [exact Hres|].
  destruct (fnResult env a) as [err|]; [|exact Hres].
  destruct (negb _); [exact Hres|].
  destruct (a =? MaxAttempts cfg) eqn:E; [exact Hres|].
  apply Z.eqb_neq in E.
  cbn [Success Attempts LastError AllErrors Delays].
  assert (Hnew : forall i d,
             In (i, d) (Delays res
                        ++ [(a, calculateDelay a cfg (randFloat64 env a))]) ->
             1 <= i < MaxAttempts cfg
             /\ d = calculateDelay i cfg (randFloat64 env i)).
  { intros i d [Hin|Hin]%in_app_or; [by apply Hres|].
    destruct Hin as [[= <- <-]|[]]. split; [lia|done]. }
  destruct (doneDuringDelay _ _ _); [exact Hnew|].
  apply IH; [lia | lia | exact Hnew].
Qed.

Lemma Retry_Delays (env : RetryEnv) (cfg : RetryConfig) (i : Z) (d : Duration) :
  In (i, d) (Delays (Retry env (Some cfg))) ->
  1 <= i < MaxAttempts cfg /\ d = calculateDelay i cfg (randFloat64 env i).
Proof.
  unfold Retry. destruct (MaxAttempts cfg <? 0) eqn:Hneg; [by intros []|].
  apply Z.ltb_ge in Hneg.
  apply Retry_loop_Delays; [lia | lia | by intros ? ? []].
Qed.

End RetryClaims.

(** *** The claims on examples *)

Section RetryExamples.
Import Scenarios.

Lemma C5_non_retryable_error_stops_retry_witness :
  let r := Retry (Scenarios.quietEnv (fun _ => Some Scenarios.validationFailure))
                 (Some NetworkRetryConfig) in
  MaxAttempts NetworkRetryConfig = 5 /\ Success r = false /\ Attempts r = 1.
Proof.
  intros r.
  destruct (C5_non_retryable_error_stops_retry
              (Scenarios.quietEnv (fun _ => Some Scenarios.validationFailure))
              NetworkRetryConfig 1 ValidationError "invalid input" None ∅ 0 false)
    as (H1 & H2 & _).
  - simpl. lia.
  - intros i Hi. lia.
  - reflexivity.
  - reflexivity.
  - right. reflexivity.
  - split; [reflexivity|]. split; [exact H1 | exact H2].
Defined.

Lemma C9_success_after_failures_keeps_LastError_witness :
  (let r := Retry (Scenarios.quietEnv Scenarios.failOnce)
                  (Some NetworkRetryConfig) in
   Success r = true /\ Attempts r = 2
   /\ LastError r = Some Scenarios.http500
   /\ WithRetry (Some NetworkRetryConfig)
                (Scenarios.quietEnv Scenarios.failOnce)
      = Some Scenarios.http500)
  /\ (let r := Retry (Scenarios.quietEnv (fun _ => None))
                     (Some NetworkRetryConfig) in
      LastError r = None <-> Attempts r = 1).
Proof.
  split.
  - intros r.
    destruct (C9_success_after_failures_keeps_LastError
                (Scenarios.quietEnv Scenarios.failOnce) NetworkRetryConfig)
      as (H & _).
    destruct (H 2) as (H1 & H2 & H3 & _ & _ & _ & H7).
    + simpl. lia.
    + intros i Hi. assert (i = 1) as -> by lia. reflexivity.
    + reflexivity.
    + reflexivity.
    + split; [exact H1|]. split; [exact H2|]. split; [exact H3 | exact H7].
  - destruct (C9_success_after_failures_keeps_LastError
                (Scenarios.quietEnv (fun _ => None)) NetworkRetryConfig)
      as (_ & H).
    apply H. reflexivity.
Defined.

End RetryExamples.

(* ===================================================================== *)
(** ** Properties of the traversal engine                                 *)
(* ===================================================================== *)

Import Crawler.

Lemma lookup_insert_task (l : list Task) (i j : nat) (x y : Task) :
  <[i := x]> l !! j = Some y ->
  (j = i /\ y = x) \/ (j <> i /\ l !! j = Some y).
Proof.
  intros [(-> & -> & _)|(Hne & H)]%list_lookup_insert_Some; [by left|].
  right. split; [congruence | done].
Qed.

Lemma lookup_spawn (p : nat) (d : Z) (links : list string) (j : nat) (t : Task) :
  spawn p d links !! j = Some t ->
  exists link, In link links /\ t = mkTask link (d + 1) (Some p) WaitSem.
Proof.
  unfold spawn. rewrite list_lookup_fmap.
  destruct (links !! j) as [link|] eqn:E; [|done].
  intros [= <-]. exists link. split; [|done].
  apply list_elem_of_In. by eapply list_elem_of_lookup_2.
Qed.

(** Opens [step s a = Some s'] into its enabled cases. *)
Ltac open_step H :=
  unfold step in H;
  repeat (cbv beta zeta in H;
          match type of H with
          | match ?x with _ => _ end = Some _ =>
              destruct x eqn:?; try discriminate H
          end);
  injection H as <-.

(** Resolves a lookup in the task list of a successor state: the task that
    moved, an untouched task, or a freshly spawned one. *)
Ltac task_cases Hl Hne :=
  unfold upd_task in Hl; cbn [tasks] in Hl;
  first
    [ apply lookup_insert_task in Hl as [[-> ->]|[Hne Hl]]
    | apply lookup_app_Some in Hl as [Hl|[_ Hl]];
      [ apply lookup_insert_task in Hl as [[-> ->]|[Hne Hl]]
      | apply lookup_spawn in Hl as (? & ? & ->) ] ].

Ltac norm_state :=
  unfold upd_task;
  cbn [tasks visited visitedMux sets fetched failed logged
       pc url depth parent set_pc].

Section CrawlFacts.
Context {rt : GoRuntime}.
Variable url_Parse : string -> option URL.
Variable ResolveReference_String : URL -> URL -> string.
Variable html_Parse : string -> option Node.
Variable jsSubmatches : nat -> string -> list string.
Variable config : Config.

Local Abbreviation step :=
  (step url_Parse ResolveReference_String html_Parse jsSubmatches config).
Local Abbreviation run :=
  (run url_Parse ResolveReference_String html_Parse jsSubmatches config).
Local Abbreviation isValidLink := (isValidLink url_Parse).
Local Abbreviation extractLinks :=
  (extractLinks url_Parse ResolveReference_String html_Parse).

Lemma LockInv_start out domain : LockInv (start out domain).
Proof.
  split; simpl; [| | |done| |constructor|done].
  all: intros [|?] ? Hl; [injection Hl as <-; done | done].
Qed.

Lemma LockInv_step s a s' : LockInv s -> step s a = Some s' -> LockInv s'.
Proof.
  intros [Hh Hi Hu Hf Hfg Hn Hfl] H.
  assert (Huniq : forall i j ti tj,
             tasks s !! i = Some ti -> inCritical (pc ti) = true ->
             tasks s !! j = Some tj -> inCritical (pc tj) = true -> i = j).
  { intros i j ti tj H1 H2 H3 H4.
    pose proof (Hh _ _ H1 H2). pose proof (Hh _ _ H3 H4). congruence. }
  assert (Hcrit : forall j tj, tasks s !! j = Some tj ->
             pc tj = AtInsert \/ pc tj = AtUnlock -> inCritical (pc tj) = true).
  { intros j tj _ [-> | ->]; reflexivity. }
  destruct a as [i|i|i|i|i|i|i fe|i|i]; open_step H.
  all: split; unfold upd_task; cbn [tasks visited visitedMux fetched failed].
  all: try done.
  all: try (intros j t1 Hl Hpc; task_cases Hl Hne;
            first [ discriminate Hpc
                  | by eapply Hh | by eapply Hi | by eapply Hu | by eapply Hfg
                  | idtac ]).
  - (* Lock: the task that took the lock *) reflexivity.
  - (* Lock: nobody else was inside *) by specialize (Hh _ _ Hl Hpc).
  - (* Test, seen *) eapply Hh; [eassumption | by rewrite Heqp].
  - (* Test, not seen *) eapply Hh; [eassumption | by rewrite Heqp].
  - simpl. assumption.
  - (* Insert *) eapply Hh; [eassumption | by rewrite Heqp].
  - exfalso. apply Hne. eapply (Huniq j i); eauto; by rewrite ?Hpc, ?Heqp.
  - simpl. split; [apply lookup_insert_eq|].
    intros Hin%Hf. specialize (Hi _ _ Heqo Heqp). by rewrite Hin in Hi.
  - exfalso. apply Hne. eapply (Huniq j i); eauto; by rewrite ?Hpc, ?Heqp.
  - intros u Hin. destruct (decide (u = url t)) as [->|Hu'].
    + apply lookup_insert_eq.
    + rewrite lookup_insert_ne by done. by apply Hf.
  - (* Unlock after a hit *)
    exfalso. apply Hne. eapply (Huniq j i); eauto; by rewrite ?Hpc, ?Heqp.
  - (* Unlock after the insert *)
    exfalso. apply Hne. eapply (Huniq j i); eauto; by rewrite ?Hpc, ?Heqp.
  - exfalso. apply Hne. eapply (Huniq j i); eauto; by rewrite ?Hpc, ?Heqp.
  - intros u. rewrite map_app. intros [Hin|Hin]%in_app_or; [by apply Hf|].
    destruct Hin as [<-|[]]. by destruct (Hu _ _ Heqo Heqp).
  - rewrite map_app. apply in_or_app. right. by left.
  - rewrite map_app. apply in_or_app. left. by eapply Hfg.
  - rewrite map_app. apply NoDup_app. split; [done|]. split; [|apply NoDup_singleton].
    intros u Hin%list_elem_of_In [= ->]%list_elem_of_singleton.
    by destruct (Hu _ _ Heqo Heqp).
  - intros j u Hin. rewrite map_app. apply in_or_app. left. by eapply Hfl.
  - (* FetchDone, failure *)
    intros j u [Hin|Hin]%in_app_or; [by eapply Hfl|].
    destruct Hin as [[= <- <-]|[]]. by eapply Hfg.
Qed.

Lemma run_invariant (P : State -> Prop) :
  (forall s a s', P s -> step s a = Some s' -> P s') ->
  forall sched s s', P s -> run s sched = Some s' -> P s'.
Proof.
  intros Hstep sched. induction sched as [|a sched IH]; intros s s' HP; simpl.
  - by intros [= <-].
  - destruct (step s a) as [s1|] eqn:E; [|done].
    apply IH. by eapply Hstep.
Qed.

Lemma run_app sched1 sched2 s :
  run s (sched1 ++ sched2)
  = match run s sched1 with
    | Some s1 => run s1 sched2
    | None => None
    end.
Proof.
  revert s. induction sched1 as [|a sched1 IH]; intros s; simpl; [done|].
  destruct (step s a); [apply IH | done].
Qed.

Lemma DepthInv_start out domain : DepthInv config (start out domain).
Proof.
  split; simpl.
  - intros [|?] ? Hl; [injection Hl as <-; done | done].
  - intros ? ? [].
Qed.

Lemma DepthInv_step s a s' :
  DepthInv config s -> step s a = Some s' -> DepthInv config s'.
Proof.
  intros [Ht Hf] H.
  destruct a as [i|i|i|i|i|i|i fe|i|i]; open_step H.
  all: split; unfold upd_task; cbn [tasks fetched]; try done.
  all: try (intros j t1 Hl Hpc; task_cases Hl Hne;
            first [ discriminate Hpc | by eapply Ht | idtac ]).
  all: try (simpl; eapply Ht; [eassumption | by rewrite Heqp]).
  - (* Enter, within the bound *) simpl. lia.
  - (* Unlock, the fetch starts *)
    intros u d [Hin|Hin]%in_app_or; [by eapply Hf|].
    destruct Hin as [[= <- <-]|[]].
    eapply Ht; [eassumption | by rewrite Heqp].
Qed.

Lemma isValidLink_trans a b c :
  isValidLink a b = true -> isValidLink b c = true -> isValidLink a c = true.
Proof.
  unfold Crawler.isValidLink.
  destruct (url_Parse a) as [pa|]; [|done].
  destruct (url_Parse b) as [pb|]; [|done].
  destruct (url_Parse c) as [pc|]; [|done].
  intros H1%String.eqb_eq H2%String.eqb_eq. apply String.eqb_eq. congruence.
Qed.

Lemma hrefLoop_valid base attrs : forall links,
  Forall (fun l => isValidLink l base = true) links ->
  Forall (fun l => isValidLink l base = true)
         (hrefLoop url_Parse ResolveReference_String base attrs links).
Proof.
  induction attrs as [|attr attrs IH]; intros links Hl; simpl; [done|].
  destruct (String.eqb (Key attr) "href"); [|by apply IH].
  destruct (isValidLink _ base) eqn:E; [|done].
  apply Forall_app. split; [done|]. by constructor.
Qed.

Lemma extractLinks_f_valid base : forall n links,
  Forall (fun l => isValidLink l base = true) links ->
  Forall (fun l => isValidLink l base = true)
         (extractLinks_f url_Parse ResolveReference_String base n links).
Proof.
  fix IH 1. intros [ty data attrs children] links Hl. simpl.
  match goal with |- Forall _ (_ children ?l0) => 
    assert (H0 : Forall (fun l => isValidLink l base = true) l0);
    [ destruct (_ && _); [by apply hrefLoop_valid | done] | revert H0; generalize l0 ]
  end.
  induction children as [|c cs IHcs]; intros l0 H0; [done|].
  apply IHcs. by apply IH.
Qed.

Lemma extractLinks_valid body base link :
  In link (extractLinks body base) -> isValidLink link base = true.
Proof.
  unfold Crawler.extractLinks. destruct (html_Parse body) as [doc|]; [|done].
  intros Hin%list_elem_of_In.
  assert (H := extractLinks_f_valid base doc [] (Forall_nil_2 _)).
  rewrite Forall_forall in H. by apply H.
Qed.

Lemma root_preserved (l extra : list Task) (i : nat) (t r : Task) (X : PC)
    (domain : string) :
  l !! 0%nat = Some r -> l !! i = Some t ->
  url r = domain -> parent r = None ->
  exists t0, (<[i := set_pc t X]> l ++ extra) !! 0%nat = Some t0
             /\ url t0 = domain /\ parent t0 = None.
Proof.
  intros Hr Ht Hu Hp. destruct l as [|x l]; [done|]. injection Hr as ->.
  destruct i as [|i]; simpl.
  - injection Ht as ->. by eexists.
  - by eexists.
Qed.

Lemma root_preserved' (l : list Task) (i : nat) (t r : Task) (X : PC)
    (domain : string) :
  l !! 0%nat = Some r -> l !! i = Some t ->
  url r = domain -> parent r = None ->
  exists t0, <[i := set_pc t X]> l !! 0%nat = Some t0
             /\ url t0 = domain /\ parent t0 = None.
Proof.
  intros Hr Ht Hu Hp.
  destruct (root_preserved l [] i t r X domain Hr Ht Hu Hp) as (t0 & H & ?).
  rewrite app_nil_r in H. by exists t0.
Qed.

Lemma HostInv_start out domain : HostInv url_Parse domain (start out domain).
Proof.
  split; simpl.
  - by eexists.
  - intros [|?] ? Hl; [done | done].
  - intros ? ? [].
  - intros [|?] ? ? Hl; [injection Hl as <-; done | done].
Qed.

Lemma HostInv_step domain s a s' :
  HostInv url_Parse domain s -> step s a = Some s' ->
  HostInv url_Parse domain s'.
Proof.
  intros [(r & Hr0 & Hru & Hrp) Hh Hf Hret] H.
  destruct a as [i|i|i|i|i|i|i fe|i|i]; open_step H.
  all: split; unfold upd_task; cbn [tasks fetched failed]; try done.
  all: try (intros j t1 Hl Hne0; task_cases Hl Hne; simpl;
            first [ by eapply Hh | idtac ]).
  all: try (intros j t1 e Hl Hpc; task_cases Hl Hne;
            first [ discriminate Hpc
                  | by eapply Hret
                  | apply in_or_app; left; by eapply Hret
                  | idtac ]).
  all: try (eapply root_preserved'; eassumption).
  all: try (eapply root_preserved; eassumption).
  - (* Unlock, the fetch starts *)
    intros u d [Hin|Hin]%in_app_or; [by eapply Hf|].
    destruct Hin as [[= <- <-]|[]].
    destruct (decide (i = 0%nat)) as [->|Hi0].
    + left. congruence.
    + right. by eapply Hh.
  - (* FetchDone, failure *) simpl. apply in_or_app. right. by left.
  - (* FetchDone, success: a spawned child *)
    split; [|done].
    match goal with Hin : In _ _ |- _ => apply extractLinks_valid in Hin; rename Hin into Hv end.
    destruct (decide (i = 0%nat)) as [->|Hi0].
    + assert (t = r) as -> by congruence. by rewrite <- Hru.
    + eapply isValidLink_trans; [exact Hv|]. by eapply Hh.
Qed.

Lemma LockInv_run out domain sched s :
  run (start out domain) sched = Some s -> LockInv s.
Proof.
  apply run_invariant; [apply LockInv_step | apply LockInv_start].
Qed.

Lemma DepthInv_run out domain sched s :
  run (start out domain) sched = Some s -> DepthInv config s.
Proof.
  apply run_invariant; [apply DepthInv_step | apply DepthInv_start].
Qed.

Lemma HostInv_run out domain sched s :
  run (start out domain) sched = Some s -> HostInv url_Parse domain s.
Proof.
  apply run_invariant; [apply HostInv_step | apply HostInv_start].
Qed.

(** The state in which task [i] has inserted its URL and started its
    fetch. *)
Lemma upToFetch_run s i t :
  tasks s !! i = Some t -> pc t = AtEntry ->
  depth t <= MaxDepth config ->
  default false (visited s !! url t) = false ->
  visitedMux s = None ->
  run s (Scenarios.upToFetch i)
  = Some {| tasks := <[i := set_pc t Fetching]> (tasks s);
            visited := <[url t := true]> (visited s);
            visitedMux := None; sets := sets s;
            fetched := fetched s ++ [(url t, depth t)];
            failed := failed s; logged := logged s |}.
Proof.
  intros Ht Hpc Hd Hv Hm.
  assert (Hlen : (i < length (tasks s))%nat) by by eapply lookup_lt_Some.
  assert (Hlt : (MaxDepth config <? depth t) = false) by lia.
  unfold Scenarios.upToFetch. cbn [Crawler.run].
  (* Enter *)
  unfold Crawler.step at 1. rewrite Ht, Hpc, Hlt. norm_state.
  (* Lock *)
  unfold Crawler.step at 1. norm_state.
  rewrite list_lookup_insert_eq by done. norm_state. rewrite Hm.
  (* Test *)
  unfold Crawler.step at 1. norm_state.
  rewrite list_lookup_insert_eq by (by rewrite ?length_insert).
  norm_state. rewrite Hv.
  (* Insert *)
  unfold Crawler.step at 1. norm_state.
  rewrite list_lookup_insert_eq by (by rewrite ?length_insert).
  norm_state.
  (* Unlock *)
  unfold Crawler.step at 1. norm_state.
  rewrite list_lookup_insert_eq by (by rewrite ?length_insert).
  norm_state.
  rewrite !list_insert_insert_eq. reflexivity.
Qed.

(** A call beyond the depth bound returns nil at once and changes nothing
    but its own program counter. *)
Lemma Enter_too_deep s i t :
  tasks s !! i = Some t -> pc t = AtEntry ->
  MaxDepth config < depth t ->
  step s (Enter i) = Some (upd_task s i (set_pc t (Returned None))).
Proof.
  intros Ht Hpc Hd. unfold Crawler.step. rewrite Ht, Hpc.
  by replace (MaxDepth config <? depth t) with true by lia.
Qed.

(** The log of fetches only grows. *)
Lemma fetched_step s a s' :
  step s a = Some s' -> exists k, fetched s' = fetched s ++ k.
Proof.
  intros H. destruct a; open_step H; unfold upd_task; cbn [fetched];
    first [ by exists [] ; rewrite app_nil_r | by eexists ].
Qed.

Lemma fetched_run sched : forall s s',
  run s sched = Some s' -> exists k, fetched s' = fetched s ++ k.
Proof.
  induction sched as [|a sched IH]; intros s s'; simpl.
  - intros [= <-]. exists []. by rewrite app_nil_r.
  - destruct (step s a) as [s1|] eqn:E; [|done].
    intros (k2 & ->)%IH. apply fetched_step in E as (k1 & ->).
    exists (k1 ++ k2). by rewrite app_assoc.
Qed.

(** C2.  In every state a crawl session can reach: no URL occurs twice
    among the calls of [utils.Retry]; at most one task is between
    [visitedMux.Lock()] and [Unlock()], so the test of [c.visited] still
    holds when the same task inserts; every URL whose fetch was started, and
    in particular every URL whose fetch failed, is in the visited set; and
    however the session goes on, none of these URLs is fetched again. *)
Theorem C2_no_URL_fetched_twice :
  forall out domain sched s,
    run (start out domain) sched = Some s ->
    NoDup (map fst (fetched s))
    /\ (forall i j ti tj,
          tasks s !! i = Some ti -> tasks s !! j = Some tj ->
          inCritical (pc ti) = true -> inCritical (pc tj) = true -> i = j)
    /\ (forall i t, tasks s !! i = Some t -> pc t = AtInsert ->
                    default false (visited s !! url t) = false)
    /\ (forall i t, tasks s !! i = Some t -> pc t = Fetching ->
                    visited s !! url t = Some true)
    /\ (forall u, In u (map fst (fetched s)) -> visited s !! u = Some true)
    /\ (forall i u, In (i, u) (failed s) ->
                    In u (map fst (fetched s))
                    /\ visited s !! u = Some true)
    /\ (forall sched' s',
          run s sched' = Some s' ->
          exists later,
            fetched s' = fetched s ++ later
            /\ forall u, In u (map fst (fetched s)) ->
                         ~ In u (map fst later)).
Proof.
  intros out domain sched s Hrun.
  destruct (LockInv_run _ _ _ _ Hrun) as [Hh Hi Hu Hf Hfg Hn Hfl].
  split; [done|]. split.
  { intros i j ti tj H1 H2 H3 H4.
    pose proof (Hh _ _ H1 H3). pose proof (Hh _ _ H2 H4). congruence. }
  split; [done|]. split; [by eauto|]. split; [done|]. split; [by eauto|].
  intros sched' s' Hrun'.
  destruct (fetched_run _ _ _ Hrun') as (later & Hl). exists later.
  split; [done|]. intros u Hin Hin'.
  assert (Hrun2 : run (start out domain) (sched ++ sched') = Some s')
    by (by rewrite run_app, Hrun).
  destruct (LockInv_run _ _ _ _ Hrun2) as [_ _ _ _ _ Hn' _].
  rewrite Hl, map_app in Hn'. apply NoDup_app in Hn' as (_ & Hdisj & _).
  apply (Hdisj u); by apply list_elem_of_In.
Qed.

(** C3.  A call at depth equal to the maximum, for a URL not yet visited,
    goes on to its fetch; a call at a depth above the maximum returns nil
    with no fetch and no change of the visited set; and no reachable state
    records a fetch at a depth above the maximum. *)
Theorem C3_depth_bound_is_inclusive :
  (forall s i t,
      tasks s !! i = Some t -> pc t = AtEntry ->
      depth t = MaxDepth config ->
      default false (visited s !! url t) = false ->
      visitedMux s = None ->
      exists s' t',
        run s (Scenarios.upToFetch i) = Some s'
        /\ fetched s' = fetched s ++ [(url t, MaxDepth config)]
        /\ tasks s' !! i = Some t' /\ pc t' = Fetching)
  /\ (forall s i t,
        tasks s !! i = Some t -> pc t = AtEntry ->
        MaxDepth config < depth t ->
        exists s' t',
          step s (Enter i) = Some s'
          /\ fetched s' = fetched s /\ visited s' = visited s
          /\ tasks s' !! i = Some t' /\ pc t' = Returned None)
  /\ (forall out domain sched s,
        run (start out domain) sched = Some s ->
        forall u d, In (u, d) (fetched s) -> d <= MaxDepth config).
Proof.
  split; [|split].
  - intros s i t Ht Hpc Hd Hv Hm.
    eexists. exists (set_pc t Fetching).
    split; [apply (upToFetch_run s i t); try done; lia|].
    cbn [fetched tasks]. rewrite Hd. split; [done|]. split; [|done].
    apply list_lookup_insert_eq. by eapply lookup_lt_Some.
  - intros s i t Ht Hpc Hd.
    eexists. exists (set_pc t (Returned None)).
    split; [by apply Enter_too_deep|]. norm_state.
    repeat split; try done.
    apply list_lookup_insert_eq. by eapply lookup_lt_Some.
  - intros out domain sched s Hrun u d Hin.
    destruct (DepthInv_run _ _ _ _ Hrun) as [_ Hf]. by eapply Hf.
Qed.

(** C10.  Two calls for the same URL stand at their entry, one beyond the
    depth bound and one within it, and the URL is not yet visited.  The deep
    call returns without touching the visited set; the other call then
    inserts the URL and starts its fetch. *)
Theorem C10_depth_drop_leaves_URL_unvisited :
  forall s i j ti tj,
    i <> j ->
    tasks s !! i = Some ti -> tasks s !! j = Some tj ->
    pc ti = AtEntry -> pc tj = AtEntry ->
    url ti = url tj ->
    MaxDepth config < depth ti -> depth tj <= MaxDepth config ->
    default false (visited s !! url ti) = false ->
    visitedMux s = None ->
    exists s1 s2 ti',
      step s (Enter i) = Some s1
      /\ tasks s1 !! i = Some ti' /\ pc ti' = Returned None
      /\ visited s1 = visited s /\ fetched s1 = fetched s
      /\ run s1 (Scenarios.upToFetch j) = Some s2
      /\ fetched s2 = fetched s ++ [(url tj, depth tj)]
      /\ visited s2 !! url tj = Some true.
Proof.
  intros s i j ti tj Hij Hti Htj Hpi Hpj Hurl Hdi Hdj Hv Hm.
  eexists. eexists. exists (set_pc ti (Returned None)).
  split; [by apply Enter_too_deep|]. norm_state.
  split; [apply list_lookup_insert_eq; by eapply lookup_lt_Some|].
  split; [done|]. split; [done|]. split; [done|].
  split.
  - apply (upToFetch_run _ j tj); norm_state; try done.
    + by rewrite list_lookup_insert_ne.
    + by rewrite <- Hurl.
  - cbn [fetched visited]. split; [done|]. apply lookup_insert_eq.
Qed.

Lemma isValidLink_spec link base :
  isValidLink link base = true
  <-> exists pl pb, url_Parse link = Some pl /\ url_Parse base = Some pb
                    /\ Host pl = Host pb.
Proof.
  unfold Crawler.isValidLink. split.
  - destruct (url_Parse link) as [pl|]; [|done].
    destruct (url_Parse base) as [pb|]; [|done].
    intros H%String.eqb_eq. by exists pl, pb.
  - intros (pl & pb & -> & -> & H). by apply String.eqb_eq.
Qed.

(** C7 (as the code has it).  A link is accepted only if it and the page
    it was found on both parse and have equal hosts.  The scheme is not
    compared: two links that differ in their scheme alone get the same
    verdict.  [mailto:] and [javascript:] references are excluded by the
    host comparison and not by their scheme: [url.Parse] gives an opaque
    reference ([mailto:addr], [javascript:code]) no host, so on a page that
    has a host such a reference is rejected and never returned by
    [extractLinks], and a [mailto:] or [javascript:] link that is accepted
    carries the host of the page.  [extractLinks] returns accepted links
    only, and in a session every URL fetched is the first URL or has the
    first URL's host: a link to another host is never fetched. *)
Theorem C7_links_are_filtered_by_host_only :
  (forall link base,
      isValidLink link base = true ->
      exists pl pb, url_Parse link = Some pl /\ url_Parse base = Some pb
                    /\ Host pl = Host pb)
  /\ (forall link link' base pl scheme',
        url_Parse link = Some pl ->
        url_Parse link' = Some {| Scheme := scheme'; Opaque := Opaque pl;
                                  Host := Host pl; Path := Path pl;
                                  Fragment := Fragment pl |} ->
        isValidLink link' base = isValidLink link base)
  /\ ((forall s u, url_Parse s = Some u -> Opaque u <> ""%string ->
                   Host u = ""%string) ->
      forall link base pl pb,
        url_Parse link = Some pl -> url_Parse base = Some pb ->
        Host pb <> ""%string ->
        (Opaque pl <> ""%string ->
         isValidLink link base = false
         /\ forall body, ~ In link (extractLinks body base))
        /\ (Scheme pl = "mailto"%string \/ Scheme pl = "javascript"%string ->
            isValidLink link base = true ->
            Opaque pl = ""%string /\ Host pl = Host pb))
  /\ (forall body base link,
        In link (extractLinks body base) -> isValidLink link base = true)
  /\ (forall out domain sched s,
        run (start out domain) sched = Some s ->
        forall u d, In (u, d) (fetched s) ->
          u = domain
          \/ exists pu pd, url_Parse u = Some pu /\ url_Parse domain = Some pd
                           /\ Host pu = Host pd).
Proof.
  split; [intros link base; apply isValidLink_spec|].
  split; [|split; [|split]].
  - intros link link' base pl scheme' Hl Hl'.
    unfold Crawler.isValidLink. by rewrite Hl, Hl'.
  - intros Hlib link base pl pb Hl Hb Hne.
    assert (Hrej : Opaque pl <> ""%string -> isValidLink link base = false).
    { intros Hop. unfold Crawler.isValidLink. rewrite Hl, Hb.
      apply String.eqb_neq. rewrite (Hlib link pl Hl Hop). congruence. }
    split.
    + intros Hop. split; [by apply Hrej|].
      intros body Hin%extractLinks_valid. rewrite Hrej in Hin; done.
    + intros _ Hacc. split.
      * destruct (String.eqb_spec (Opaque pl) "") as [E|E]; [done|].
        rewrite Hrej in Hacc; done.
      * apply isValidLink_spec in Hacc as (pl' & pb' & Hl' & Hb' & Hh).
        congruence.
  - apply extractLinks_valid.
  - intros out domain sched s Hrun u d Hin.
    destruct (HostInv_run _ _ _ _ Hrun) as [_ _ Hf _].
    destruct (Hf _ _ Hin) as [->|Hv]; [by left|].
    right. by apply isValidLink_spec.
Qed.

Lemma rootReturn_failed domain s e :
  HostInv url_Parse domain s -> rootReturn s = Some (Some e) ->
  In (0%nat, domain) (failed s).
Proof.
  intros [(r & Hr0 & Hru & _) _ _ Hret]. unfold rootReturn. rewrite Hr0.
  destruct (pc r) eqn:Hpc; try done. intros [= ->].
  rewrite <- Hru. by eapply Hret.
Qed.

End CrawlFacts.

(* ===================================================================== *)
(** ** The properties on the small site                                   *)
(* ===================================================================== *)

Section OnTheSite.
Import Scenarios.

Local Abbreviation runS :=
  (run url_Parse ResolveReference_String html_Parse jsSubmatches).
Local Abbreviation runS' :=
  (run url_Parse ResolveReference_String html_Parse' jsSubmatches).

(** C1, on the code: with [Threads = 2] the schedule [fanOut] is possible
    and leads to four calls of [utils.Retry] in flight at once.  The two
    children of /a hold the two slots of the semaphore made by the call for
    /a, the two children of /b those of the semaphore made by the call for
    /b: the semaphore belongs to one call of [crawlURL], not to the
    session. *)
Theorem C1_in_flight_fetches_exceed_Threads :
  exists s,
    runS cfgTwoThreads (start (Some []) "https://x.test/") fanOut = Some s
    /\ Threads cfgTwoThreads = 2
    /\ inFlight s = 4
    /\ map parent (List.filter isFetching (tasks s))
       = [Some 1%nat; Some 1%nat; Some 2%nat; Some 2%nat]
    /\ semLen s 1 = 2 /\ semLen s 2 = 2.
Proof.
  eexists. split; [vm_compute; reflexivity|].
  repeat split; vm_compute; reflexivity.
Qed.

Lemma C2_no_URL_fetched_twice_witness :
  exists s,
    runS cfgTwoThreads (start (Some []) "https://x.test/") fanOut = Some s
    /\ NoDup (map fst (fetched s))
    /\ length (fetched s) = 7%nat.
Proof.
  destruct (runS cfgTwoThreads (start (Some []) "https://x.test/") fanOut)
    as [s|] eqn:E; [|vm_compute in E; discriminate E].
  exists s. split; [reflexivity|].
  split.
  - exact (proj1 (C2_no_URL_fetched_twice url_Parse ResolveReference_String
                    html_Parse jsSubmatches cfgTwoThreads (Some [])
                    "https://x.test/" fanOut s E)).
  - vm_compute in E. injection E as <-. reflexivity.
Defined.

Lemma stateTwoPaths_reachable :
  runS' cfgDepthOne (start (Some []) "https://x.test/") twoPaths
  = Some stateTwoPaths.
Proof. vm_compute. reflexivity. Qed.

Lemma C3_depth_bound_is_inclusive_witness :
  (exists s' t',
      runS' cfgDepthOne stateTwoPaths (upToFetch 2) = Some s'
      /\ fetched s' = fetched stateTwoPaths ++ [("https://x.test/b", 1)]
      /\ tasks s' !! 2%nat = Some t' /\ pc t' = Fetching)
  /\ (exists s' t',
         step url_Parse ResolveReference_String html_Parse' jsSubmatches
              cfgDepthOne stateTwoPaths (Enter 3) = Some s'
         /\ fetched s' = fetched stateTwoPaths
         /\ visited s' = visited stateTwoPaths
         /\ tasks s' !! 3%nat = Some t' /\ pc t' = Returned None)
  /\ (forall u d, In (u, d) (fetched stateTwoPaths) -> d <= 1).
Proof.
  destruct (C3_depth_bound_is_inclusive url_Parse ResolveReference_String
              html_Parse' jsSubmatches cfgDepthOne) as (H1 & H2 & H3).
  split; [|split].
  - apply (H1 stateTwoPaths 2%nat
             {| url := "https://x.test/b"; depth := 1; parent := Some 0%nat;
                pc := AtEntry |});
      reflexivity.
  - apply (H2 stateTwoPaths 3%nat
             {| url := "https://x.test/b"; depth := 2; parent := Some 1%nat;
                pc := AtEntry |});
      [reflexivity | reflexivity | simpl; lia].
  - apply (H3 (Some []) "https://x.test/" twoPaths stateTwoPaths).
    vm_compute. reflexivity.
Defined.

Lemma C10_depth_drop_leaves_URL_unvisited_witness :
  exists s1 s2 ti',
    step url_Parse ResolveReference_String html_Parse' jsSubmatches
         cfgDepthOne stateTwoPaths (Enter 3) = Some s1
    /\ tasks s1 !! 3%nat = Some ti' /\ pc ti' = Returned None
    /\ visited s1 = visited stateTwoPaths
    /\ fetched s1 = fetched stateTwoPaths
    /\ runS' cfgDepthOne s1 (upToFetch 2) = Some s2
    /\ fetched s2 = fetched stateTwoPaths ++ [("https://x.test/b", 1)]
    /\ visited s2 !! "https://x.test/b" = Some true.
Proof.
  apply (C10_depth_drop_leaves_URL_unvisited url_Parse ResolveReference_String
           html_Parse' jsSubmatches cfgDepthOne stateTwoPaths 3%nat 2%nat
           {| url := "https://x.test/b"; depth := 2; parent := Some 1%nat;
              pc := AtEntry |}
           {| url := "https://x.test/b"; depth := 1; parent := Some 0%nat;
              pc := AtEntry |});
    first [ reflexivity | simpl; lia ].
Defined.


(** C7, counterexample: on the page https://x.test/ the link
    http://x.test/p2 has another scheme and the same host; [isValidLink]
    accepts it and [extractLinks] returns it. *)
Lemma C7_counterexample_other_scheme_is_accepted :
  isValidLink url_Parse "http://x.test/p2" "https://x.test/" = true
  /\ option_map Scheme (url_Parse "http://x.test/p2") = Some "http"%string
  /\ option_map Scheme (url_Parse "https://x.test/") = Some "https"%string
  /\ In "http://x.test/p2"%string
        (extractLinks url_Parse ResolveReference_String html_Parse pageOdd
           "https://x.test/").
Proof.
  repeat split; try reflexivity. vm_compute. left. reflexivity.
Qed.

(** The table of the small site gives an opaque reference no host, as
    [url.Parse] does. *)
Lemma url_Parse_opaque_has_no_host s u :
  url_Parse s = Some u -> Opaque u <> ""%string -> Host u = ""%string.
Proof.
  unfold url_Parse.
  destruct (find _ urlTable) as [e|] eqn:E; [|done].
  intros [= <-]. apply find_some in E as [Hin _].
  unfold urlTable in Hin. simpl in Hin.
  repeat (destruct Hin as [<-|Hin]; [simpl; done|]). done.
Qed.

Lemma C7_links_are_filtered_by_host_only_witness :
  (exists pl pb, url_Parse "https://x.test/a" = Some pl
                 /\ url_Parse "https://x.test/" = Some pb
                 /\ Host pl = Host pb)
  /\ isValidLink url_Parse "http://x.test/p2" "https://x.test/"
     = isValidLink url_Parse "https://x.test/p2" "https://x.test/"
  /\ isValidLink url_Parse "mailto:me@x.test" "https://x.test/" = false
  /\ isValidLink url_Parse "javascript:void(0)" "https://x.test/" = false
  /\ ~ In "javascript:void(0)"%string
          (extractLinks url_Parse ResolveReference_String html_Parse pageOdd
             "https://x.test/")
  /\ isValidLink url_Parse "https://x.test/a" "https://x.test/" = true
  /\ (forall s,
         runS cfgTwoThreads (start (Some []) "https://x.test/") fanOut = Some s ->
         ~ In "https://other.test/p"%string (map fst (fetched s))).
Proof.
  destruct (C7_links_are_filtered_by_host_only url_Parse
              ResolveReference_String html_Parse jsSubmatches cfgTwoThreads)
    as (H1 & H2 & H3 & H4 & H5).
  specialize (H3 url_Parse_opaque_has_no_host).
  split; [apply H1; reflexivity|].
  split; [apply (H2 "https://x.test/p2"%string "http://x.test/p2"%string
                    "https://x.test/"%string (https "x.test" "/p2" "") "http"%string);
          reflexivity|].
  split; [apply (H3 "mailto:me@x.test"%string "https://x.test/"%string
                    (opaque "mailto" "me@x.test") (https "x.test" "/" ""));
          [reflexivity | reflexivity | discriminate | discriminate]|].
  split; [apply (H3 "javascript:void(0)"%string "https://x.test/"%string
                    (opaque "javascript" "void(0)") (https "x.test" "/" ""));
          [reflexivity | reflexivity | discriminate | discriminate]|].
  split; [apply (H3 "javascript:void(0)"%string "https://x.test/"%string
                    (opaque "javascript" "void(0)") (https "x.test" "/" ""));
          [reflexivity | reflexivity | discriminate | discriminate]|].
  split; [apply (H4 pageRoot); vm_compute; left; reflexivity|].
  intros s Hrun Hin.
  apply in_map_iff in Hin as ((u & d) & Hu & Hin). simpl in Hu. subst u.
  destruct (H5 (Some []) "https://x.test/"%string fanOut s Hrun _ _ Hin)
    as [Heq|(pu & pd & Hpu & Hpd & Hhost)].
  - discriminate Heq.
  - vm_compute in Hpu, Hpd. injection Hpu as <-. injection Hpd as <-.
    discriminate Hhost.
Defined.

End OnTheSite.

(* ===================================================================== *)
(** ** Further properties of the retry executor                           *)
(* ===================================================================== *)

Import RetryAux.

Section MoreRetryFacts.
Context {rt : GoRuntime}.
Variable env : RetryEnv.
Variable config : RetryConfig.

(** [Retry] once its allocation has succeeded. *)
Lemma Retry_unfold :
  0 <= MaxAttempts config ->
  Retry env (Some config)
  = Retry_loop env config (Z.to_nat (MaxAttempts config)) 1 emptyResult.
Proof.
  intros H. unfold Retry. apply Z.ltb_ge in H. by rewrite H.
Qed.

(** The loop does not panic. *)
Lemma Retry_loop_Panicked (fuel : nat) : forall a res,
  Panicked (Retry_loop env config fuel a res) = Panicked res.
Proof.
  induction fuel as [|fuel IH]; intros a res; cbn [Retry_loop]; [done|].
  destruct (doneBefore env a); [done|].
  destruct (fnResult env a) as [err|]; [|done].
  destruct (negb _); [done|].
  destruct (a =? MaxAttempts config); [done|].
  cbn [Success Attempts LastError AllErrors Delays Panicked].
  destruct (doneDuringDelay _ _ _); [done|].
  by rewrite IH.
Qed.

Lemma fold_afterFailure_Delays (j : nat) : forall a res,
  (forall i, a <= i < a + Z.of_nat j -> retried env config i = true) ->
  map fst (Delays (fold_left (afterFailure env config)
                             (seqZ a (Z.of_nat j)) res))
  = map fst (Delays res) ++ seqZ a (Z.of_nat j).
Proof.
  induction j as [|j IH]; intros a res Hall.
  - simpl. by rewrite app_nil_r.
  - rewrite (seqZ_cons a (Z.of_nat (S j))) by lia.
    replace (Z.pred (Z.of_nat (S j))) with (Z.of_nat j) by lia.
    cbn [fold_left]. rewrite IH by (intros i Hi; apply Hall; lia).
    destruct (retried_inv env config a) as (_ & (err & Hfn & _) & _);
      [apply Hall; lia|].
    unfold afterFailure at 1. rewrite Hfn. cbn [Delays].
    rewrite map_app, <- app_assoc. reflexivity.
Qed.

Lemma Retry_reaches_fold (k : Z) :
  1 <= k <= MaxAttempts config ->
  (forall i, 1 <= i < k -> retried env config i = true) ->
  Retry env (Some config)
  = Retry_loop env config (S (Z.to_nat (MaxAttempts config - k))) k
      (fold_left (afterFailure env config) (seqZ 1 (k - 1)) emptyResult).
Proof.
  intros Hk Hall. rewrite Retry_unfold by lia.
  replace (Z.to_nat (MaxAttempts config))
    with (Z.to_nat (k - 1) + S (Z.to_nat (MaxAttempts config - k)))%nat by lia.
  rewrite Retry_loop_advance; [| intros i Hi; apply Hall; lia | lia].
  replace (1 + Z.of_nat (Z.to_nat (k - 1))) with k by lia.
  by replace (Z.of_nat (Z.to_nat (k - 1))) with (k - 1) by lia.
Qed.

Lemma prefix_fields (k : Z) :
  1 <= k ->
  (forall i, 1 <= i < k -> retried env config i = true) ->
  let res := fold_left (afterFailure env config) (seqZ 1 (k - 1)) emptyResult in
  Success res = false
  /\ AllErrors res = errorsOf env 1 (Z.to_nat (k - 1))
  /\ length (AllErrors res) = Z.to_nat (k - 1)
  /\ map fst (Delays res) = seqZ 1 (k - 1).
Proof.
  intros Hk Hall res. subst res.
  destruct (fold_afterFailure_fields env config (Z.to_nat (k - 1)) 1 emptyResult)
    as (HS & HA & HL & _); [intros i Hi; apply Hall; lia|].
  pose proof (fold_afterFailure_Delays (Z.to_nat (k - 1)) 1 emptyResult) as HD.
  replace (Z.of_nat (Z.to_nat (k - 1))) with (k - 1) in * by lia.
  cbn [Success AllErrors Delays app map emptyResult] in *.
  rewrite HD by (intros i Hi; apply Hall; lia).
  by rewrite HS, HA, HL.
Qed.

(** X1.  When every attempt fails with a retryable error and no context is done,
    [Retry] makes exactly [MaxAttempts] attempts, records one error per
    attempt, returns the last one, and has slept once after each attempt
    but the last. *)
Theorem Retry_exhausts_all_attempts (err : error) :
  1 <= MaxAttempts config ->
  (forall i, 1 <= i < MaxAttempts config -> retried env config i = true) ->
  doneBefore env (MaxAttempts config) = false ->
  fnResult env (MaxAttempts config) = Some err ->
  let r := Retry env (Some config) in
  Success r = false
  /\ Attempts r = MaxAttempts config
  /\ LastError r = Some err
  /\ AllErrors r = errorsOf env 1 (Z.to_nat (MaxAttempts config))
  /\ Z.of_nat (length (AllErrors r)) = MaxAttempts config
  /\ map fst (Delays r) = seqZ 1 (MaxAttempts config - 1).
Proof.
  intros Hm Hall Hb Hfn r. subst r.
  rewrite (Retry_reaches_fold (MaxAttempts config)) by (done || lia).
  destruct (prefix_fields (MaxAttempts config) Hm Hall) as (HS & HA & HL & HD).
  cbn [Retry_loop]. rewrite Hb, Hfn, Z.eqb_refl.
  assert (Herrs : errorsOf env 1 (Z.to_nat (MaxAttempts config))
                  = errorsOf env 1 (Z.to_nat (MaxAttempts config - 1)) ++ [err]).
  { unfold errorsOf.
    replace (Z.to_nat (MaxAttempts config))
      with (S (Z.to_nat (MaxAttempts config - 1))) by lia.
    rewrite seqZ_S, omap_app. cbn [omap list_omap].
    replace (1 + Z.of_nat (Z.to_nat (MaxAttempts config - 1)))
      with (MaxAttempts config) by lia.
    by rewrite Hfn. }
  destruct (negb _); cbn [Success Attempts LastError AllErrors Delays];
    rewrite HS, HA, HD, Herrs, length_app, <- HA, HL; cbn [length];
    repeat split; try done; lia.
Qed.


(** X3.  If a context is done when attempt [k] is about to start, the function
    is not called for that attempt: the result is a failure after [k]
    attempts whose last error, also the last entry of the history, is the
    Timeout-kind error with [ctx.Err()] as cause, whatever [fn] would have
    returned. *)
Theorem Retry_cancelled_before_attempt (k : Z) :
  1 <= k <= MaxAttempts config ->
  (forall i, 1 <= i < k -> retried env config i = true) ->
  doneBefore env k = true ->
  let r := Retry env (Some config) in
  Success r = false
  /\ Attempts r = k
  /\ LastError r = Some (cancelledBefore env)
  /\ Type_of (cancelledBefore env) = Some TimeoutError
  /\ Cause_of (cancelledBefore env) = Some (ctxErr env)
  /\ AllErrors r = errorsOf env 1 (Z.to_nat (k - 1)) ++ [cancelledBefore env]
  /\ map fst (Delays r) = seqZ 1 (k - 1).
Proof.
  intros Hk Hall Hb r. subst r.
  rewrite (Retry_reaches_fold k) by done.
  destruct (prefix_fields k) as (HS & HA & HL & HD); [lia | done |].
  cbn [Retry_loop]. rewrite Hb.
  cbn [Success Attempts LastError AllErrors Delays].
  by rewrite HS, HA, HD.
Qed.

(** X4.  If the backoff sleep after attempt [k] is interrupted by a context, the
    result is a failure after [k] attempts; the history holds the error of
    attempt [k] followed by a Timeout-kind error, which is the last error:
    the history is one longer than the number of attempts. *)
Theorem Retry_cancelled_during_delay (k : Z) (err : error) :
  1 <= k < MaxAttempts config ->
  (forall i, 1 <= i < k -> retried env config i = true) ->
  doneBefore env k = false ->
  fnResult env k = Some err ->
  isErrorRetryable (Some err) (RetryableErrors config) = true ->
  doneDuringDelay env k (calculateDelay k config (randFloat64 env k)) = true ->
  let r := Retry env (Some config) in
  Success r = false
  /\ Attempts r = k
  /\ LastError r = Some (cancelledDuringDelay env)
  /\ Type_of (cancelledDuringDelay env) = Some TimeoutError
  /\ AllErrors r = errorsOf env 1 (Z.to_nat (k - 1))
                   ++ [err; cancelledDuringDelay env]
  /\ Z.of_nat (length (AllErrors r)) = k + 1.
Proof.
  intros Hk Hall Hb Hfn Hr Hd r. subst r.
  rewrite (Retry_reaches_fold k) by (done || lia).
  destruct (prefix_fields k) as (HS & HA & HL & HD); [lia | done |].
  cbn [Retry_loop]. rewrite Hb, Hfn, Hr. cbn [negb].
  replace (k =? MaxAttempts config) with false by lia.
  cbn [Success Attempts LastError AllErrors Delays]. rewrite Hd.
  cbn [Success Attempts LastError AllErrors Delays].
  rewrite HS, HA, <- app_assoc. repeat split; try done.
  rewrite length_app, <- HA, HL. cbn [length app]. lia.
Qed.

(** What the loop keeps true from one attempt to the next. *)
Lemma Retry_loop_shape (fuel : nat) : forall a res,
  1 <= MaxAttempts config ->
  1 <= a ->
  a + Z.of_nat fuel = MaxAttempts config + 1 ->
  Success res = false ->
  Attempts res = a - 1 ->
  Z.of_nat (length (AllErrors res)) = a - 1 ->
  LastError res = last (AllErrors res) ->
  let r := Retry_loop env config fuel a res in
  1 <= Attempts r <= MaxAttempts config
  /\ LastError r = last (AllErrors r)
  /\ (Success r = true ->
      Z.of_nat (length (AllErrors r)) = Attempts r - 1)
  /\ (Success r = false ->
      Attempts r <= Z.of_nat (length (AllErrors r)) <= Attempts r + 1
      /\ LastError r <> None).
Proof.
  induction fuel as [|fuel IH]; intros a res Hm Ha Hfuel HS HAt HL Hlast;
    cbn [Retry_loop].
  - (* the loop condition fails only when [a = MaxAttempts + 1 >= 2] *)
    assert (a - 1 = MaxAttempts config) by lia.
    destruct (decide (a = 1)) as [->|Hne].
    + (* MaxAttempts = 0 *)
      exfalso. lia.
    + split; [lia|]. split; [done|].
      split; [congruence|]. intros _. split; [lia|].
      rewrite Hlast. destruct (AllErrors res) as [|e l] eqn:E using rev_ind.
      * simpl in HL. lia.
      * by rewrite last_snoc.
  - destruct (doneBefore env a).
    { cbn [Success Attempts LastError AllErrors Delays].
      rewrite last_snoc, length_app. cbn [length].
      split; [lia|]. split; [done|]. split; [congruence|].
      intros _. split; [lia | done]. }
    destruct (fnResult env a) as [err|].
    2:{ cbn [Success Attempts LastError AllErrors Delays].
        split; [lia|]. split; [done|]. split; [lia|]. congruence. }
    destruct (negb _).
    { cbn [Success Attempts LastError AllErrors Delays].
      rewrite last_snoc, length_app. cbn [length].
      split; [lia|]. split; [done|]. split; [congruence|].
      intros _. split; [lia | done]. }
    destruct (a =? MaxAttempts config) eqn:E.
    { cbn [Success Attempts LastError AllErrors Delays].
      rewrite last_snoc, length_app. cbn [length].
      split; [lia|]. split; [done|]. split; [congruence|].
      intros _. split; [lia | done]. }
    apply Z.eqb_neq in E.
    cbn [Success Attempts LastError AllErrors Delays].
    destruct (doneDuringDelay _ _ _).
    { cbn [Success Attempts LastError AllErrors Delays].
      rewrite last_snoc, !length_app. cbn [length].
      split; [lia|]. split; [done|]. split; [congruence|].
      intros _. split; [lia | done]. }
    apply IH; cbn [Success Attempts LastError AllErrors Delays];
      rewrite ?last_snoc, ?length_app; cbn [length]; try done; lia.
Qed.

(** X5.  For every run of [Retry] with at least one attempt allowed: between 1
    and [MaxAttempts] attempts are made; [LastError] is the last entry of
    the error history; a success has recorded one error less than attempts
    made; a failure has recorded one error per attempt, or one more, and
    always carries a non-nil [LastError]. *)
Theorem Retry_result_shape :
  1 <= MaxAttempts config ->
  let r := Retry env (Some config) in
  1 <= Attempts r <= MaxAttempts config
  /\ LastError r = last (AllErrors r)
  /\ (Success r = true ->
      Z.of_nat (length (AllErrors r)) = Attempts r - 1)
  /\ (Success r = false ->
      Attempts r <= Z.of_nat (length (AllErrors r)) <= Attempts r + 1
      /\ LastError r <> None).
Proof.
  intros Hm. rewrite Retry_unfold by lia.
  apply Retry_loop_shape; cbn; try done; lia.
Qed.

End MoreRetryFacts.

(* ===================================================================== *)
(** ** Further properties of the error taxonomy                           *)
(* ===================================================================== *)

Lemma isErrorRetryable_loop_true t rf kinds :
  isErrorRetryable_loop t rf kinds = true <-> In t kinds /\ rf = true.
Proof.
  induction kinds as [|k kinds IH]; simpl.
  - split; [done | by intros [[] _]].
  - destruct (ErrorType_eqb t k) eqn:E.
    + assert (t = k) as -> by (by destruct t, k).
      split; [intros ->; split; [by left | done] | by intros [_ ->]].
    + rewrite IH. split; [intros [H ->]; split; [by right | done]|].
      intros [[<-|H] ->]; [by destruct k | done].
Qed.

(** X6.  A typed error is retried exactly when its kind is among the configured
    kinds and its own flag is set; for an error that is not typed the
    configured kinds are never consulted: it is retried exactly when it is a
    network or timeout error of the standard library. *)
Theorem isErrorRetryable_characterised :
  (forall t m c ctx ts rf kinds,
      isErrorRetryable (Some (App t m c ctx ts rf)) kinds = true
      <-> In t kinds /\ rf = true)
  /\ (forall g kinds,
         isErrorRetryable (Some (Plain g)) kinds = true
         <-> goIsNetError g = true \/ goIsDNSError g = true
             \/ goIsDeadlineExceeded g = true)
  /\ (forall kinds, isErrorRetryable None kinds = false).
Proof.
  split; [|split; [|done]].
  - intros. apply isErrorRetryable_loop_true.
  - intros [msg net tmo dns ddl] kinds. simpl.
    destruct net, tmo, dns, ddl; simpl; intuition congruence.
Qed.

(** X7.  Errors made by the constructors: whatever the message, the cause and the
    time, such an error is retried exactly when its kind is Network, Timeout
    or HTTP and that kind is configured; for [NewHTTPError] the status code
    plays no role, a 404 is retried like a 503. *)
Theorem constructed_errors_retry_eligibility :
  (forall now k m c kinds,
      isErrorRetryable (Some (NewError now k m c)) kinds = true
      <-> In k kinds
          /\ (k = NetworkError \/ k = TimeoutError \/ k = HTTPError))
  /\ (forall now m status c kinds,
         isErrorRetryable (Some (NewHTTPError now m status c)) kinds = true
         <-> In HTTPError kinds).
Proof.
  split.
  - intros now k m c kinds. unfold NewError. cbn [isErrorRetryable].
    rewrite isErrorRetryable_loop_true.
    destruct k; simpl; intuition congruence.
  - intros now m status c kinds. unfold NewHTTPError, NewError, WithContext.
    cbn [isErrorRetryable]. rewrite isErrorRetryable_loop_true.
    simpl. intuition.
Qed.

(** X8.  [WrapError] returns nil exactly for nil; otherwise it returns a typed
    error on which [IsRetryableError] gives the same verdict as on the error
    that was wrapped, typed or not.  A plain error becomes the cause of the
    new error. *)
Theorem WrapError_keeps_retry_verdict :
  (forall now msg, WrapError now None msg = None)
  /\ (forall now e msg,
         exists e', WrapError now (Some e) msg = Some e'
                    /\ isApp e' = true
                    /\ IsRetryableError e' = IsRetryableError e)
  /\ (forall now g msg,
         exists e', WrapError now (Some (Plain g)) msg = Some e'
                    /\ Cause_of e' = Some (Plain g)
                    /\ Message_of e' = Some msg).
Proof.
  split; [done|]. split.
  - intros now [g|t m c ctx ts r] msg.
    + destruct g as [gm net tmo dns ddl].
      eexists. split; [reflexivity|]. split.
      * simpl. by destruct net, dns, tmo, ddl, (strings_Contains gm "parse").
      * simpl. by destruct net, dns, tmo, ddl, (strings_Contains gm "parse").
    + eexists. split; [reflexivity|]. by split.
  - intros now g msg. eexists. split; [reflexivity|]. by split.
Qed.

(* ===================================================================== *)
(** ** Properties of [LogError]                                           *)
(* ===================================================================== *)

Import Logging.

Lemma FieldLogger_log_writes l fields lv msg :
  LogLevel_int (level l) <= LogLevel_int lv ->
  FieldLogger_log l fields lv msg
  = {| level := level l;
       written := written l ++ [ {| lineLevel := lv; lineMsg := msg;
                                    lineFields := fields |} ] |}.
Proof.
  intros H. unfold FieldLogger_log.
  by replace (LogLevel_int lv <? LogLevel_int (level l)) with false by lia.
Qed.

Lemma FieldLogger_log_drops l fields lv msg :
  LogLevel_int lv < LogLevel_int (level l) ->
  FieldLogger_log l fields lv msg = l.
Proof.
  intros H. unfold FieldLogger_log.
  by replace (LogLevel_int lv <? LogLevel_int (level l)) with true by lia.
Qed.

(** The single line [LogError] writes for a typed error on a logger whose
    level lets warnings through. *)
Lemma LogError_typed l t m c ctx ts r context :
  LogLevel_int (level l) <= LogLevel_int WARN ->
  exists lv,
    LogError l (Some (App t m c ctx ts r)) context
    = {| level := level l;
         written := written l
                    ++ [ {| lineLevel := lv;
                            lineMsg := Error_ (App t m c ctx ts r);
                            lineFields := convertToStringMap (context ∪ ctx) |} ] |}
    /\ (lv = WARN \/ lv = ERROR)
    /\ (t = NetworkError \/ t = TimeoutError -> lv = WARN)
    /\ (t = HTTPError ->
        forall sc, ctx !! "status_code" = Some (CtxInt sc) ->
                   (500 <= sc -> lv = ERROR) /\ (sc < 500 -> lv = WARN)).
Proof.
  intros Hl. simpl in Hl. unfold LogError.
  destruct t;
    try (eexists; split; [apply FieldLogger_log_writes; simpl; lia|];
         split; [by auto|]; split; [by intros [|]|]; by intros).
  (* HTTPError *)
  destruct (ctx !! "status_code") as [[sc|str]|] eqn:E.
  - destruct (500 <=? sc) eqn:Hsc.
    + eexists; split; [apply FieldLogger_log_writes; simpl; lia|].
      split; [by auto|]. split; [by intros [|]|].
      intros _ sc' [= <-]. split; [done | lia].
    + eexists; split; [apply FieldLogger_log_writes; simpl; lia|].
      split; [by auto|]. split; [by intros [|]|].
      intros _ sc' [= <-]. split; [lia | done].
  - eexists; split; [apply FieldLogger_log_writes; simpl; lia|].
    split; [by auto|]. split; [by intros [|]|]. by intros.
  - eexists; split; [apply FieldLogger_log_writes; simpl; lia|].
    split; [by auto|]. split; [by intros [|]|]. by intros.
Qed.


(** X10.  The fields of the line written for a typed error are the error's own
    context with the caller's context laid over it: on a key both have, the
    caller's value is printed. *)
Theorem LogError_caller_context_wins :
  forall l t m c ctx ts r context,
    LogLevel_int (level l) <= LogLevel_int WARN ->
    exists line,
      written (LogError l (Some (App t m c ctx ts r)) context)
      = written l ++ [line]
      /\ forall key,
           lineFields line !! key
           = match context !! key with
             | Some v => Some (fmt_v v)
             | None => fmt_v <$> ctx !! key
             end.
Proof.
  intros l t m c ctx ts r context Hl.
  destruct (LogError_typed l t m c ctx ts r context Hl) as (lv & -> & _).
  eexists. split; [reflexivity|]. intros key. cbn [lineFields].
  unfold convertToStringMap. rewrite lookup_fmap.
  destruct (context !! key) as [v|] eqn:E.
  - by erewrite lookup_union_Some_l.
  - by rewrite lookup_union_r.
Qed.

(** X11.  An HTTP error made by [NewHTTPError] and wrapped any number of times is
    logged at ERROR when its status code is 500 or more and at WARN
    otherwise: wrapping keeps the status code in the error's context, and a
    [status_code] in the caller's context changes the printed field but not
    the level. *)
Theorem LogError_level_of_wrapped_HTTP_error :
  forall l now msg status cause nowf k msgs context,
    LogLevel_int (level l) <= LogLevel_int WARN ->
    exists e' line,
      WrapMany nowf k (Some (NewHTTPError now msg status cause)) msgs = Some e'
      /\ written (LogError l (Some e') context) = written l ++ [line]
      /\ (500 <= status -> lineLevel line = ERROR)
      /\ (status < 500 -> lineLevel line = WARN)
      /\ lineFields line !! "status_code"
         = Some (match context !! "status_code" with
                 | Some v => fmt_v v
                 | None => pretty status
                 end).
Proof.
  intros l now msg status cause nowf k msgs context Hl.
  unfold NewHTTPError, NewError, WithContext.
  destruct (WrapMany_App nowf msgs k HTTPError msg cause
              (<["status_code" := CtxInt status]> ∅) now
              (isRetryableError HTTPError cause)) as (m' & ts' & ->).
  destruct (LogError_typed l HTTPError m' cause
              (<["status_code" := CtxInt status]> ∅) ts'
              (isRetryableError HTTPError cause) context Hl)
    as (lv & Heq & _ & _ & Hhttp).
  destruct (Hhttp eq_refl status) as (H1 & H2); [apply lookup_insert_eq|].
  eexists. eexists. split; [reflexivity|]. rewrite Heq.
  split; [reflexivity|]. split; [done|]. split; [done|].
  cbn [lineFields]. unfold convertToStringMap. rewrite lookup_fmap.
  destruct (context !! "status_code") as [v|] eqn:E.
  - by erewrite lookup_union_Some_l.
  - rewrite lookup_union_r by done. by rewrite lookup_insert_eq.
Qed.

(* ===================================================================== *)
(** ** Further properties of the traversal engine                         *)
(* ===================================================================== *)

Import CrawlerAux.

Lemma addJSFile_SinkInv u s : SinkInv s -> SinkInv (addJSFile u s).
Proof.
  intros (lines & Hout & Hnd & Hiff). unfold addJSFile.
  destruct (default false (jsFiles s !! u)) eqn:E; simpl.
  - by exists lines.
  - exists (lines ++ [u]). rewrite Hout. cbn [output]. split; [done|]. split.
    + apply NoDup_app. split; [done|]. split; [|apply NoDup_singleton].
      intros x Hx%list_elem_of_In [= ->]%list_elem_of_singleton.
      apply Hiff in Hx. congruence.
    + intros x. rewrite in_app_iff. cbn [jsFiles].
      destruct (decide (x = u)) as [->|Hne].
      * rewrite lookup_insert_eq. simpl. split; [done|]. intros _. right. by left.
      * rewrite lookup_insert_ne by done. rewrite <- Hiff.
        split; [intros [H|[H|[]]]; [done | congruence] | by left].
Qed.

Lemma addJSFiles_SinkInv urls : forall s, SinkInv s -> SinkInv (addJSFiles urls s).
Proof.
  unfold addJSFiles. induction urls as [|u urls IH]; intros s H; simpl; [done|].
  by apply IH, addJSFile_SinkInv.
Qed.

Lemma addJSFile_member u x s :
  default false (jsFiles (addJSFile u s) !! x) = true
  <-> x = u \/ default false (jsFiles s !! x) = true.
Proof.
  unfold addJSFile. destruct (default false (jsFiles s !! u)) eqn:E; simpl.
  - split; [by right|]. by intros [->|].
  - destruct (decide (x = u)) as [->|Hne].
    + rewrite lookup_insert_eq. simpl. split; [by left | done].
    + rewrite lookup_insert_ne by done. split; [by right|]. by intros [|].
Qed.

Lemma addJSFiles_member urls x : forall s,
  default false (jsFiles (addJSFiles urls s) !! x) = true
  <-> In x urls \/ default false (jsFiles s !! x) = true.
Proof.
  unfold addJSFiles. induction urls as [|u urls IH]; intros s; simpl.
  - split; [by right | by intros [[]|]].
  - rewrite IH, addJSFile_member. intuition.
Qed.


(** Counting the tasks that satisfy a test, under the updates a step makes
    to the task list. *)
Lemma count_insert (f : Task -> bool) (l : list Task) (i : nat) (t t' : Task) :
  l !! i = Some t ->
  (length (filter (fun x => f x = true) (<[i := t']> l))
   + (if f t then 1 else 0)
   = length (filter (fun x => f x = true) l) + (if f t' then 1 else 0))%nat.
Proof.
  revert i. induction l as [|x l IH]; intros i Hl; [done|].
  destruct i as [|i]; simpl in *.
  - injection Hl as ->. rewrite !filter_cons.
    destruct (decide (f t' = true)) as [->|Hn'];
      destruct (decide (f t = true)) as [->|Hn]; simpl; try lia.
    + apply not_true_is_false in Hn. rewrite Hn. lia.
    + apply not_true_is_false in Hn'. rewrite Hn'. lia.
    + apply not_true_is_false in Hn, Hn'. rewrite Hn, Hn'. lia.
  - rewrite !filter_cons. specialize (IH i Hl).
    destruct (decide (f x = true)); simpl; lia.
Qed.

Lemma count_spawn_none (f : Task -> bool) p d links :
  (forall link, f (mkTask link (d + 1) (Some p) WaitSem) = false) ->
  filter (fun x => f x = true) (spawn p d links) = [].
Proof.
  intros Hf. unfold spawn. induction links as [|l links IH]; [done|].
  simpl. rewrite filter_cons. destruct (decide _) as [H|H]; [|done].
  by rewrite Hf in H.
Qed.

Section MoreCrawlFacts.
Context {rt : GoRuntime}.
Variable url_Parse : string -> option URL.
Variable ResolveReference_String : URL -> URL -> string.
Variable html_Parse : string -> option Node.
Variable jsSubmatches : nat -> string -> list string.
Variable config : Config.

Local Abbreviation step :=
  (step url_Parse ResolveReference_String html_Parse jsSubmatches config).
Local Abbreviation run :=
  (run url_Parse ResolveReference_String html_Parse jsSubmatches config).
Local Abbreviation extractLinks :=
  (extractLinks url_Parse ResolveReference_String html_Parse).
Local Abbreviation extractJSFromHTML :=
  (extractJSFromHTML url_Parse ResolveReference_String jsSubmatches).

Lemma extractJSFromHTML_SinkInv body base s :
  SinkInv s -> SinkInv (extractJSFromHTML body base s).
Proof.
  unfold Crawler.extractJSFromHTML. generalize [0%nat; 1%nat].
  intros patterns. revert s.
  induction patterns as [|p patterns IH]; intros s H; simpl; [done|].
  apply IH. generalize (jsSubmatches p body). intros ms. revert s H.
  induction ms as [|m ms IHm]; intros s H; simpl; [done|].
  by apply IHm, addJSFile_SinkInv.
Qed.

Lemma SinkInv_step s a s' :
  SinkInv (sets s) -> step s a = Some s' -> SinkInv (sets s').
Proof.
  intros Hs H. destruct a; open_step H; unfold upd_task; cbn [sets];
    try done.
  by apply extractJSFromHTML_SinkInv.
Qed.


Lemma hrefLoop_length base attrs links :
  (length (hrefLoop url_Parse ResolveReference_String base attrs links)
   <= S (length links))%nat.
Proof.
  induction attrs as [|attr attrs IH]; simpl; [lia|].
  destruct (String.eqb (Key attr) "href"); [|done].
  destruct (isValidLink _ _ _); rewrite ?length_app; simpl; lia.
Qed.

Lemma extractLinks_f_length base : forall n links,
  (length (extractLinks_f url_Parse ResolveReference_String base n links)
   <= length links + countAnchors n)%nat.
Proof.
  fix IH 1. intros [ty data attrs children] links. simpl.
  destruct (NodeType_eqb ty ElementNode && String.eqb data "a").
  - pose proof (hrefLoop_length base attrs links) as H0. revert H0.
    generalize (hrefLoop url_Parse ResolveReference_String base attrs links).
    intros l0 H0.
    enough (forall l1,
               (length ((fix siblings (cs : list Node) (links0 : list string)
                           {struct cs} : list string :=
                           match cs with
                           | [] => links0
                           | child :: cs' =>
                               siblings cs'
                                 (extractLinks_f url_Parse
                                    ResolveReference_String base child links0)
                           end) children l1)
                <= length l1
                   + (fix sum (cs : list Node) : nat :=
                        match cs with
                        | [] => 0
                        | c :: cs' => countAnchors c + sum cs'
                        end) children)%nat) as Hs
      by (specialize (Hs l0); lia).
    induction children as [|c cs IHcs]; intros l1; [lia|].
    specialize (IHcs (extractLinks_f url_Parse ResolveReference_String
                        base c l1)).
    specialize (IH c l1). lia.
  - simpl.
    enough (forall l1,
               (length ((fix siblings (cs : list Node) (links0 : list string)
                           {struct cs} : list string :=
                           match cs with
                           | [] => links0
                           | child :: cs' =>
                               siblings cs'
                                 (extractLinks_f url_Parse
                                    ResolveReference_String base child links0)
                           end) children l1)
                <= length l1
                   + (fix sum (cs : list Node) : nat :=
                        match cs with
                        | [] => 0
                        | c :: cs' => countAnchors c + sum cs'
                        end) children)%nat) as Hs
      by (specialize (Hs links); lia).
    induction children as [|c cs IHcs]; intros l1; [lia|].
    specialize (IHcs (extractLinks_f url_Parse ResolveReference_String
                        base c l1)).
    specialize (IH c l1). lia.
Qed.

(** X14.  [extractLinks] returns at most one link per [a] element of the parsed
    page (only the first [href] attribute of an anchor is looked at), none
    for a page that has no [a] element whatever other elements carry an
    [href], and none when the page does not parse. *)
Theorem extractLinks_at_most_one_per_anchor :
  (forall body base doc,
      html_Parse body = Some doc ->
      (length (extractLinks body base) <= countAnchors doc)%nat)
  /\ (forall body base doc,
         html_Parse body = Some doc -> countAnchors doc = 0%nat ->
         extractLinks body base = [])
  /\ (forall body base, html_Parse body = None -> extractLinks body base = []).
Proof.
  split; [|split].
  - intros body base doc Hp. unfold Crawler.extractLinks. rewrite Hp.
    apply (extractLinks_f_length base doc []).
  - intros body base doc Hp H0. unfold Crawler.extractLinks. rewrite Hp.
    pose proof (extractLinks_f_length base doc []) as H. rewrite H0 in H.
    simpl in H.
    destruct (extractLinks_f _ _ _ _ _) as [|x l]; [done | simpl in H; lia].
  - intros body base Hp. unfold Crawler.extractLinks. by rewrite Hp.
Qed.

Lemma holdsSlot_spawn p q d links :
  filter (fun x => holdsSlot p x = true) (spawn q d links) = [].
Proof.
  apply count_spawn_none. intros link. unfold holdsSlot. simpl.
  apply andb_false_r.
Qed.

Lemma semLen_step s a s' p :
  step s a = Some s' ->
  semLen s' p <= semLen s p
  \/ (semLen s p < Threads config /\ semLen s' p = semLen s p + 1).
Proof.
  intros H. destruct a as [i|i|i|i|i|i|i fe|i|i]; open_step H.
  all: unfold semLen; norm_state;
    rewrite ?filter_app, ?length_app, ?holdsSlot_spawn, ?Nat.add_0_r.
  all: match goal with
       | Ht : ?l !! ?i = Some ?t |- context [<[?i := ?t']> ?l] =>
           pose proof (count_insert (holdsSlot p) l i t t' Ht) as Hc
       end.
  all: match goal with
       | Ht : ?l !! ?i = Some ?t, Hpc : pc ?t = _
         |- context [<[?i := ?t']> ?l] =>
           destruct (holdsSlot p t) eqn:E1; destruct (holdsSlot p t') eqn:E2;
           unfold holdsSlot in E1, E2; cbn [parent pc set_pc] in E1, E2;
           rewrite Hpc in E1
       end.
  all: try (left; lia).
  all: try (destruct (parent t) as [q|]; [destruct (Nat.eqb p q)|];
            simpl in E1, E2; congruence).
  (* Acquire: the only step that takes a slot *)
  right. rewrite Heqo0 in E2. destruct (Nat.eqb p n) eqn:E; [|done].
  apply Nat.eqb_eq in E as ->. unfold semLen in Heqb. split; lia.
Qed.

(** X15.  The semaphore a call of [crawlURL] makes is respected: in every state
    of a session, of the goroutines started by one call at most [Threads]
    are past their send on that call's semaphore. *)
Theorem semaphore_of_each_call_is_respected :
  0 <= Threads config ->
  forall out domain sched s,
    run (start out domain) sched = Some s ->
    forall p, 0 <= semLen s p <= Threads config.
Proof.
  intros HT out domain sched s Hrun p. split; [unfold semLen; lia|].
  revert p.
  apply (run_invariant url_Parse ResolveReference_String html_Parse
           jsSubmatches config
           (fun s => forall p, semLen s p <= Threads config))
    with (sched := sched) (s := start out domain); [| |done].
  - intros s0 a s1 H0 Hstep p.
    destruct (semLen_step s0 a s1 p Hstep) as [H|[H1 H2]];
      [specialize (H0 p); lia | lia].
  - intros p. by vm_compute.
Qed.

(** Every step moves the program counter of one task and, when that task
    has fetched its page, appends its children. *)
Lemma step_shape s a s' :
  step s a = Some s' ->
  exists i t Y links,
    tasks s !! i = Some t
    /\ moves (pc t) Y
    /\ tasks s' = <[i := set_pc t Y]> (tasks s) ++ spawn i (depth t) links
    /\ (links <> [] -> pc t = Fetching /\ Y = Waiting)
    /\ (pc t = Waiting -> childrenDone s i = true)
    /\ (Y = Finished -> parent t <> None)
    /\ (pc t = WaitSem ->
        exists p, parent t = Some p /\ semLen s p < Threads config).
Proof.
  intros H. destruct a as [i|i|i|i|i|i|i fe|i|i]; open_step H.
  all: norm_state.
  all: match goal with Hpc : pc ?t = _ |- _ => rename Hpc into Hpc' end.
  all: try (exists i, t; eexists; exists [];
            split; [eassumption|]; rewrite Hpc';
            split; [|split; [by rewrite app_nil_r|]];
            [by constructor|];
            split; [done|]; split; [done|];
            split; [first [done | congruence]|];
            first [done | intros _; eexists; split; [eassumption | lia]]).
  (* FetchDone, success *)
  exists i, t, Waiting. eexists. split; [eassumption|]. rewrite Hpc'.
  split; [constructor|]. split; [reflexivity|]. by repeat split.
Qed.

Lemma childrenDone_spec s i j tj :
  childrenDone s i = true -> tasks s !! j = Some tj -> parent tj = Some i ->
  pc tj = Finished.
Proof.
  unfold childrenDone. rewrite forallb_forall. intros Hall Hl Hp.
  specialize (Hall tj). rewrite Hp, Nat.eqb_refl in Hall.
  destruct (pc tj); try done; exfalso;
    (assert (false = true) as Hf; [apply Hall | discriminate Hf]);
    apply list_elem_of_In; by eapply list_elem_of_lookup_2.
Qed.

(** How the task list of a successor state is looked up. *)
Lemma step_lookups s s' i t Y links :
  tasks s !! i = Some t ->
  tasks s' = <[i := set_pc t Y]> (tasks s) ++ spawn i (depth t) links ->
  (forall j tj, tasks s' !! j = Some tj ->
      (j = i /\ tj = set_pc t Y)
      \/ (j <> i /\ tasks s !! j = Some tj)
      \/ ((length (tasks s) <= j)%nat
          /\ exists link, links <> []
                          /\ tj = mkTask link (depth t + 1) (Some i) WaitSem))
  /\ (forall j tj, tasks s !! j = Some tj -> j <> i -> tasks s' !! j = Some tj)
  /\ tasks s' !! i = Some (set_pc t Y).
Proof.
  intros Ht HT.
  assert (Hlen : (i < length (tasks s))%nat) by by eapply lookup_lt_Some.
  rewrite HT. split; [|split].
  - intros j tj Hl. apply lookup_app_Some in Hl as [Hl|[Hge Hl]].
    + apply lookup_insert_task in Hl as [[-> ->]|[Hne Hl]]; auto.
    + right; right. rewrite length_insert in Hge. split; [done|].
      apply lookup_spawn in Hl as (link & Hin & ->). exists link.
      split; [by intros ->|done].
  - intros j tj Hl Hne.
    rewrite lookup_app_l
      by (rewrite length_insert; by eapply lookup_lt_Some).
    by rewrite list_lookup_insert_ne.
  - rewrite lookup_app_l by (by rewrite length_insert).
    by apply list_lookup_insert_eq.
Qed.

Lemma TreeInv_start out domain : TreeInv (start out domain).
Proof.
  split; simpl.
  - by eexists.
  - intros [|?] ? Hl; [done | done].
  - intros [|?] ? ? ? Hl Hp; [injection Hl as <-; done | done].
  - intros r [= <-]. done.
Qed.

Lemma TreeInv_step s a s' : TreeInv s -> step s a = Some s' -> TreeInv s'.
Proof.
  intros [(r & Hr0 & Hrp & Hrd) Hc Hj Hrf] H.
  destruct (step_shape s a s' H)
    as (i & t & Y & links & Ht & Hmv & HT & Hlinks & Hwait & Hfin & _).
  destruct (step_lookups s s' i t Y links Ht HT) as (Hlook & Hold & Hnew).
  split.
  - (* the root *)
    destruct (decide (i = 0%nat)) as [->|Hne].
    + exists (set_pc t Y). assert (t = r) as -> by congruence. by rewrite Hnew.
    + exists r. split; [by apply Hold | done].
  - (* parents *)
    intros j tj Hl Hj0.
    destruct (Hlook j tj Hl) as [[-> ->]|[[Hne Hl']|(Hge & link & Hnn & ->)]].
    + destruct (Hc i t Ht Hj0) as (p & tp & Hp & Hlt & Hlp & Hd).
      exists p, tp. simpl. repeat split; try done. apply Hold; [done | lia].
    + destruct (Hc j tj Hl' Hj0) as (p & tp & Hp & Hlt & Hlp & Hd).
      destruct (decide (p = i)) as [->|Hpi].
      * exists i, (set_pc t Y). assert (tp = t) as -> by congruence.
        by repeat split.
      * exists p, tp. repeat split; try done. by apply Hold.
    + exists i, (set_pc t Y). simpl. repeat split; try done.
      apply lookup_lt_Some in Ht. lia.
  - (* the join barrier *)
    intros j tj p tp Hl Hpar Hlp.
    destruct (Hlook j tj Hl) as [[-> ->]|[[Hne Hl']|(Hge & link & Hnn & ->)]].
    + simpl in Hpar.
      destruct (decide (i = 0%nat)) as [->|Hi0];
        [assert (t = r) as -> by congruence; congruence|].
      destruct (Hc i t Ht Hi0) as (p' & tp' & Hp' & Hlt & Hlp' & _).
      assert (p' = p) as -> by congruence.
      assert (tp = tp') as ->.
      { assert (tasks s' !! p = Some tp') by (apply Hold; [done | lia]).
        congruence. }
      specialize (Hj i t p tp' Ht Hpar Hlp').
      destruct (pc tp'); try done; rewrite Hj in Hmv; inversion Hmv.
    + destruct (decide (j = 0%nat)) as [->|Hj0];
        [assert (tj = r) as -> by congruence; congruence|].
      destruct (Hc j tj Hl' Hj0) as (p' & tp' & Hp' & Hlt & Hlp' & _).
      assert (p' = p) as -> by congruence.
      specialize (Hj j tj p tp' Hl' Hpar Hlp').
      destruct (decide (p = i)) as [->|Hpi].
      * assert (tp' = t) as -> by congruence.
        assert (tp = set_pc t Y) as -> by congruence. cbn [pc set_pc].
        inversion Hmv as [| | | | | | | | | ret Hx | Hx | Hx | ret Hx];
          subst; try (rewrite <- Hx in Hj; done);
          match goal with Hx : _ = pc t |- _ => rewrite <- Hx in Hj end;
          try done.
        by eapply childrenDone_spec; [apply Hwait| |].
      * assert (tp = tp') as ->.
        { assert (tasks s' !! p = Some tp') by by apply Hold. congruence. }
        done.
    + simpl in Hpar. injection Hpar as <-.
      assert (tp = set_pc t Y) as -> by congruence.
      destruct (Hlinks Hnn) as (_ & ->). done.
  - (* the root is no goroutine of a fan-out *)
    intros r' Hr'. destruct (decide (i = 0%nat)) as [->|Hne].
    + assert (t = r) as -> by congruence.
      assert (r' = set_pc r Y) as -> by congruence. cbn [pc set_pc].
      split; [intros ->; by apply Hfin | intros ->; inversion Hmv].
    + apply Hrf. assert (tasks s' !! 0%nat = Some r) by by apply Hold.
      congruence.
Qed.

Lemma TreeInv_run out domain sched s :
  run (start out domain) sched = Some s -> TreeInv s.
Proof.
  apply (run_invariant url_Parse ResolveReference_String html_Parse
           jsSubmatches config TreeInv);
    [apply TreeInv_step | apply TreeInv_start].
Qed.

Lemma keep_started (l extra : list Task) (i j : nat) (t tj : Task) (X : PC) :
  l !! i = Some t -> l !! j = Some tj ->
  startedFetch (pc tj) = true ->
  (startedFetch (pc t) = true -> startedFetch X = true) ->
  exists tj', (<[i := set_pc t X]> l ++ extra) !! j = Some tj'
              /\ url tj' = url tj /\ depth tj' = depth tj
              /\ startedFetch (pc tj') = true.
Proof.
  intros Ht Hj Hs HX.
  assert (Hlen : (j < length l)%nat) by by eapply lookup_lt_Some.
  rewrite lookup_app_l by (by rewrite length_insert).
  destruct (decide (j = i)) as [->|Hne].
  - assert (tj = t) as -> by congruence.
    rewrite list_lookup_insert_eq by done. exists (set_pc t X).
    cbn [url depth pc set_pc]. auto.
  - rewrite list_lookup_insert_ne by done. by exists tj.
Qed.

Lemma FetchedInv_step s a s' :
  FetchedInv s -> step s a = Some s' -> FetchedInv s'.
Proof.
  intros Hf H.
  destruct a as [i|i|i|i|i|i|i fe|i|i]; open_step H;
    unfold FetchedInv; norm_state; intros u d Hin.
  all: try (apply in_app_or in Hin as [Hin|Hin]).
  all: try (destruct (Hf u d Hin) as (j & tj & Hl & <- & <- & Hs);
            match goal with
            | Ht : ?l !! ?i = Some ?t, Hpc : pc ?t = _
              |- context [<[?i := set_pc ?t ?X]> ?l ++ ?k] =>
                destruct (keep_started l k i j t tj X Ht Hl Hs)
                  as (tj' & ? & ? & ? & ?);
                [by rewrite Hpc | by exists j, tj']
            | Ht : ?l !! ?i = Some ?t, Hpc : pc ?t = _
              |- context [<[?i := set_pc ?t ?X]> ?l] =>
                destruct (keep_started l [] i j t tj X Ht Hl Hs)
                  as (tj' & Hl' & ? & ? & ?);
                [by rewrite Hpc
                | rewrite app_nil_r in Hl'; by exists j, tj']
            end).
  (* Unlock: the entry added for the task that starts its fetch *)
  destruct Hin as [[= <- <-]|[]].
  exists i, (set_pc t Fetching). split; [|done].
  apply list_lookup_insert_eq. by eapply lookup_lt_Some.
Qed.

Lemma FetchedInv_run out domain sched s :
  run (start out domain) sched = Some s -> FetchedInv s.
Proof.
  apply (run_invariant url_Parse ResolveReference_String html_Parse
           jsSubmatches config FetchedInv);
    [apply FetchedInv_step | by intros ? ? []].
Qed.

Lemma filter_none (f : Task -> bool) (l : list Task) :
  (forall j x, l !! j = Some x -> f x = false) ->
  filter (fun x => f x = true) l = [].
Proof.
  induction l as [|x l IH]; intros H; [done|].
  rewrite filter_cons. destruct (decide (f x = true)) as [Hx|Hx].
  - specialize (H 0%nat x eq_refl). congruence.
  - apply IH. intros j y Hj. by apply (H (S j)).
Qed.

Lemma depth_nonneg s : TreeInv s ->
  forall i t, tasks s !! i = Some t ->
              0 <= depth t /\ (i <> 0%nat -> 1 <= depth t).
Proof.
  intros [(r & Hr0 & _ & Hrd) Hc _ _] i.
  induction i as [i IH] using lt_wf_ind. intros t Ht.
  destruct (decide (i = 0%nat)) as [->|Hne].
  - assert (t = r) as -> by congruence. split; [lia | done].
  - destruct (Hc i t Ht Hne) as (p & tp & _ & Hlt & Hp & Hd).
    destruct (IH p Hlt tp Hp) as (H0 & _). split; [lia | intros _; lia].
Qed.

Lemma finished_below_returned_root s :
  TreeInv s -> (exists ret, rootReturn s = Some ret) ->
  forall i t, tasks s !! i = Some t -> i <> 0%nat -> pc t = Finished.
Proof.
  intros [(r & Hr0 & _ & _) Hc Hj _] (ret & Hret) i.
  unfold rootReturn in Hret. rewrite Hr0 in Hret.
  destruct (pc r) eqn:Hpr; try done.
  induction i as [i IH] using lt_wf_ind. intros t Ht Hne.
  destruct (Hc i t Ht Hne) as (p & tp & Hp & Hlt & Hlp & _).
  specialize (Hj i t p tp Ht Hp Hlp).
  destruct (decide (p = 0%nat)) as [->|Hp0].
  - assert (tp = r) as -> by congruence. by rewrite Hpr in Hj.
  - by rewrite (IH p Hlt tp Hlp Hp0) in Hj.
Qed.

(** X16.  The join barrier.  Once the root call of [crawlURL] has returned, every
    goroutine the session has started has finished: no fetch is in flight
    and no semaphore slot is taken. *)
Theorem root_returns_after_all_goroutines :
  forall out domain sched s ret,
    run (start out domain) sched = Some s ->
    rootReturn s = Some ret ->
    (forall i t, tasks s !! i = Some t -> i <> 0%nat -> pc t = Finished)
    /\ inFlight s = 0
    /\ forall p, semLen s p = 0.
Proof.
  intros out domain sched s ret Hrun Hret.
  pose proof (TreeInv_run _ _ _ _ Hrun) as Htree.
  assert (Hfin := finished_below_returned_root s Htree (ex_intro _ ret Hret)).
  split; [done|]. split.
  - unfold inFlight. rewrite filter_none; [done|].
    intros j x Hj. unfold isFetching.
    destruct (decide (j = 0%nat)) as [->|Hne].
    + unfold rootReturn in Hret. rewrite Hj in Hret. by destruct (pc x).
    + by rewrite (Hfin j x Hj Hne).
  - intros p. unfold semLen. rewrite filter_none; [done|].
    intros j x Hj. unfold holdsSlot.
    destruct (decide (j = 0%nat)) as [->|Hne].
    + destruct Htree as [(r & Hr0 & Hrp & _) _ _ _].
      assert (x = r) as -> by congruence. by rewrite Hrp.
    + rewrite (Hfin j x Hj Hne). destruct (parent x); [|done].
      apply andb_false_r.
Qed.

(** X17.  Depth counts hops from the first URL: the root call has depth 0, every
    other call is one deeper than the call that spawned it, so depths are
    never negative and only the root has depth 0; every fetch was made at a
    depth between 0 and the configured maximum. *)
Theorem depth_counts_hops :
  forall out domain sched s,
    run (start out domain) sched = Some s ->
    (forall i t, tasks s !! i = Some t ->
       0 <= depth t
       /\ (depth t = 0 <-> i = 0%nat)
       /\ (i <> 0%nat ->
           exists p tp, parent t = Some p /\ (p < i)%nat
                        /\ tasks s !! p = Some tp
                        /\ depth t = depth tp + 1))
    /\ (forall u d, In (u, d) (fetched s) -> 0 <= d <= MaxDepth config).
Proof.
  intros out domain sched s Hrun.
  pose proof (TreeInv_run _ _ _ _ Hrun) as Htree.
  split.
  - intros i t Ht. destruct (depth_nonneg s Htree i t Ht) as (H0 & H1).
    split; [done|]. split.
    + split.
      * intros Hd. destruct (decide (i = 0%nat)); [done|].
        specialize (H1 n). lia.
      * intros ->. destruct Htree as [(r & Hr0 & _ & Hrd) _ _ _]. congruence.
    + intros Hne. by apply (tree_child s Htree).
  - intros u d Hin. split.
    + destruct (FetchedInv_run _ _ _ _ Hrun u d Hin) as (i & t & Ht & _ & <- & _).
      by apply (depth_nonneg s Htree i t Ht).
    + destruct (DepthInv_run url_Parse ResolveReference_String html_Parse
                  jsSubmatches config _ _ _ _ Hrun) as [_ Hf].
      by eapply Hf.
Qed.

Lemma children_wait_step s a s' :
  Threads config <= 0 ->
  (forall i t, tasks s !! i = Some t -> i <> 0%nat -> pc t = WaitSem) ->
  step s a = Some s' ->
  forall i t, tasks s' !! i = Some t -> i <> 0%nat -> pc t = WaitSem.
Proof.
  intros HT Hw H.
  destruct (step_shape s a s' H)
    as (i & t & Y & links & Ht & Hmv & HTs & _ & _ & _ & Hacq).
  destruct (step_lookups s s' i t Y links Ht HTs) as (Hlook & _ & _).
  intros j tj Hl Hne.
  destruct (Hlook j tj Hl) as [[-> ->]|[[Hne' Hl']|(_ & link & _ & ->)]].
  - exfalso. destruct (Hacq (Hw i t Ht Hne)) as (p & _ & Hlt).
    unfold semLen in Hlt. lia.
  - by apply (Hw j).
  - done.
Qed.

(** X18.  With [Threads <= 0] no goroutine of a fan-out ever gets past its send on
    the semaphore: only the first URL is ever fetched, and once the root
    call has spawned a goroutine it never returns. *)
Theorem without_threads_the_crawl_hangs :
  Threads config <= 0 ->
  forall out domain sched s,
    run (start out domain) sched = Some s ->
    (forall i t, tasks s !! i = Some t -> i <> 0%nat -> pc t = WaitSem)
    /\ (forall u d, In (u, d) (fetched s) -> u = domain /\ d = 0)
    /\ ((1 < length (tasks s))%nat -> rootReturn s = None).
Proof.
  intros HT out domain sched s Hrun.
  assert (Hw : forall i t, tasks s !! i = Some t -> i <> 0%nat ->
                           pc t = WaitSem).
  { revert Hrun.
    apply (run_invariant url_Parse ResolveReference_String html_Parse
             jsSubmatches config
             (fun s => forall i t, tasks s !! i = Some t -> i <> 0%nat ->
                                   pc t = WaitSem)).
    - intros s0 a s1 H0 Hstep. by eapply children_wait_step.
    - intros [|?] ? Hl; [done | done]. }
  pose proof (TreeInv_run _ _ _ _ Hrun) as Htree.
  split; [done|]. split.
  - intros u d Hin.
    destruct (FetchedInv_run _ _ _ _ Hrun u d Hin) as (i & t & Ht & <- & <- & Hs).
    destruct (decide (i = 0%nat)) as [->|Hne].
    + destruct (HostInv_run url_Parse ResolveReference_String html_Parse
                  jsSubmatches config _ _ _ _ Hrun)
        as [(r & Hr0 & Hru & _) _ _ _].
      destruct Htree as [(r' & Hr0' & _ & Hrd) _ _ _].
      assert (t = r) as -> by congruence.
      assert (r' = r) as -> by congruence. done.
    + rewrite (Hw i t Ht Hne) in Hs. done.
  - intros Hlen.
    destruct (lookup_lt_is_Some_2 (tasks s) 1%nat Hlen) as (t1 & Ht1).
    destruct (tree_child s Htree 1%nat t1 Ht1) as (p & tp & Hp & Hlt & Hlp & _);
      [done|].
    assert (p = 0%nat) as -> by lia.
    pose proof (tree_join s Htree 1%nat t1 0%nat tp Ht1 Hp Hlp) as Hj.
    rewrite (Hw 1%nat t1 Ht1) in Hj by done.
    unfold rootReturn. rewrite Hlp. by destruct (pc tp).
Qed.

Lemma failed_Retry_has_error (e : RetryEnv) :
  Success (Retry e (Some retryConfig)) = false ->
  exists err, LastError (Retry e (Some retryConfig)) = Some err.
Proof.
  intros Hs.
  assert (Hm : 1 <= MaxAttempts retryConfig) by (cbv; congruence).
  assert (Hf : 1 + Z.of_nat (Z.to_nat (MaxAttempts retryConfig))
               = MaxAttempts retryConfig + 1) by reflexivity.
  pose proof (Retry_loop_shape e retryConfig
                (Z.to_nat (MaxAttempts retryConfig)) 1 emptyResult
                Hm (Z.le_refl 1) Hf eq_refl eq_refl eq_refl eq_refl)
    as (_ & _ & _ & Hfail).
  destruct (Hfail Hs) as (_ & Hne).
  change (Retry_loop e retryConfig (Z.to_nat (MaxAttempts retryConfig)) 1
            emptyResult) with (Retry e (Some retryConfig)) in Hne.
  destruct (LastError _) as [err|]; [by exists err | done].
Qed.

(** X19.  A failed fetch of a link below the root ends that branch and is logged
    twice: once by [crawlURL] before it returns the error and once more by
    the goroutine that called it.  No child is spawned, the error is typed
    and wraps the last error of [Retry], and the goroutine then ends. *)
Theorem failed_branch_is_logged_twice :
  forall s i t p fe,
    tasks s !! i = Some t -> pc t = Fetching -> parent t = Some p ->
    Success (Retry (retryEnvOf (url t) fe) (Some retryConfig)) = false ->
    exists e s1 s2,
      WrapError (timeNow (ctxEnv fe))
        (LastError (Retry (retryEnvOf (url t) fe) (Some retryConfig)))
        ("failed to crawl " ++ url t ++ " after "
         ++ pretty (Attempts (Retry (retryEnvOf (url t) fe) (Some retryConfig)))
         ++ " attempts")%string = Some e
      /\ isApp e = true
      /\ step s (FetchDone i fe) = Some s1
      /\ step s1 (Release i) = Some s2
      /\ logged s2 = logged s ++ [e; e]
      /\ length (tasks s2) = length (tasks s)
      /\ tasks s2 !! i = Some (set_pc t Finished)
      /\ fetched s2 = fetched s /\ visited s2 = visited s.
Proof.
  intros s i t p fe Ht Hpc Hp Hfail.
  destruct (failed_Retry_has_error _ Hfail) as (err & Herr).
  assert (Hlen : (i < length (tasks s))%nat) by by eapply lookup_lt_Some.
  assert (Hw : exists e,
             WrapError (timeNow (ctxEnv fe)) (Some err)
               ("failed to crawl " ++ url t ++ " after "
                ++ pretty (Attempts (Retry (retryEnvOf (url t) fe)
                                       (Some retryConfig)))
                ++ " attempts")%string = Some e /\ isApp e = true).
  { destruct err as [g|ty m c ctx ts r]; eexists; split; try reflexivity. }
  destruct Hw as (e & Hw & Happ).
  exists e. eexists. eexists. rewrite Herr.
  split; [exact Hw|]. split; [exact Happ|].
  split.
  { unfold Crawler.step. rewrite Ht, Hpc, Hfail. cbn [negb].
    rewrite Herr, Hw. reflexivity. }
  split.
  { unfold Crawler.step. norm_state.
    rewrite list_lookup_insert_eq by done. norm_state. rewrite Hp.
    reflexivity. }
  norm_state. rewrite list_insert_insert_eq, !length_insert, <- app_assoc.
  repeat split; try done.
  apply list_lookup_insert_eq. done.
Qed.

Lemma LockInv_nextSession s domain :
  LockInv s -> LockInv (nextSession s domain).
Proof.
  intros [Hh Hi Hu Hf Hfg Hn Hfl]. split; unfold nextSession; norm_state;
    try done.
  all: intros [|?] ? Hl; [injection Hl as <-; done | done].
Qed.

Lemma LockInv_stdinLoop lines : forall s scheds errs s' errs',
  LockInv s ->
  stdinLoop url_Parse ResolveReference_String html_Parse jsSubmatches config
            s lines scheds errs = Some (s', errs') ->
  LockInv s'.
Proof.
  induction lines as [|domain lines IH]; intros s scheds errs s' errs' Hinv;
    simpl.
  - by intros [= <- _].
  - destruct (String.eqb domain ""); [by apply IH|].
    destruct scheds as [|sched scheds]; [done|].
    destruct (run (nextSession s domain) sched) as [s1|] eqn:Hrun; [|done].
    assert (LockInv s1).
    { revert Hrun.
      apply (run_invariant url_Parse ResolveReference_String html_Parse
               jsSubmatches config LockInv).
      - apply LockInv_step.
      - by apply LockInv_nextSession. }
    destruct (rootReturn s1) as [[e|]|]; [by apply IH | by apply IH | done].
Qed.

(** X20.  The sessions of [CrawlFromStdin] share one visited set: over all the
    lines read, no URL is fetched twice, so a start URL that is repeated, or
    that an earlier session has already crawled, is not fetched again. *)
Theorem CrawlFromStdin_fetches_no_URL_twice :
  forall lines scheds s errs,
    stdinLoop url_Parse ResolveReference_String html_Parse jsSubmatches config
              (start (Some []) "") lines scheds [] = Some (s, errs) ->
    NoDup (map fst (fetched s))
    /\ forall u, In u (map fst (fetched s)) -> visited s !! u = Some true.
Proof.
  intros lines scheds s errs Hloop.
  destruct (LockInv_stdinLoop lines _ _ _ _ _
              (LockInv_start (Some []) "") Hloop)
    as [_ _ _ Hf _ Hn _].
  by split.
Qed.

End MoreCrawlFacts.

(* ===================================================================== *)
(** ** A crawl with a single thread                                     *)
(* ===================================================================== *)

Lemma count_at_most_one (f : Task -> bool) (l : list Task) :
  (forall i j ti tj, l !! i = Some ti -> l !! j = Some tj ->
                     f ti = true -> f tj = true -> i = j) ->
  (length (filter (fun x => f x = true) l) <= 1)%nat.
Proof.
  induction l as [|x l IH]; intros H; [simpl; lia|].
  rewrite filter_cons. destruct (decide (f x = true)) as [Hx|Hx].
  - rewrite filter_none; [simpl; lia|].
    intros j y Hj. destruct (f y) eqn:E; [|done].
    by specialize (H 0%nat (S j) x y eq_refl Hj Hx E).
  - apply IH. intros i j ti tj Hi Hj Fi Fj.
    specialize (H (S i) (S j) ti tj Hi Hj Fi Fj). lia.
Qed.

Section SequentialCrawl.
Context {rt : GoRuntime}.
Variable url_Parse : string -> option URL.
Variable ResolveReference_String : URL -> URL -> string.
Variable html_Parse : string -> option Node.
Variable jsSubmatches : nat -> string -> list string.
Variable config : Config.

Local Abbreviation step :=
  (step url_Parse ResolveReference_String html_Parse jsSubmatches config).
Local Abbreviation run :=
  (run url_Parse ResolveReference_String html_Parse jsSubmatches config).

(** [len(semaphore)] of every call before and after a step. *)
Lemma semLen_shape s s' i t Y links q :
  tasks s !! i = Some t ->
  tasks s' = <[i := set_pc t Y]> (tasks s) ++ spawn i (depth t) links ->
  semLen s' q + (if holdsSlot q t then 1 else 0)
  = semLen s q + (if holdsSlot q (set_pc t Y) then 1 else 0).
Proof.
  intros Ht HT. unfold semLen.
  rewrite HT, filter_app, length_app, holdsSlot_spawn.
  pose proof (count_insert (holdsSlot q) (tasks s) i t (set_pc t Y) Ht) as Hc.
  simpl. destruct (holdsSlot q t); destruct (holdsSlot q (set_pc t Y)); lia.
Qed.

Lemma semLen_children_done s i :
  childrenDone s i = true -> semLen s i = 0.
Proof.
  intros Hd. unfold semLen. rewrite filter_none; [done|].
  intros k x Hk. unfold holdsSlot.
  destruct (parent x) as [q|] eqn:Hp; [|done].
  destruct (Nat.eqb i q) eqn:E; [|done].
  apply Nat.eqb_eq in E as <-.
  by rewrite (childrenDone_spec s i k x Hd Hk Hp).
Qed.

Lemma OneAtWork_step s a s' :
  Threads config = 1 -> TreeInv s -> OneAtWork s -> step s a = Some s' ->
  OneAtWork s'.
Proof.
  intros HT Htree Hone H.
  destruct (step_shape url_Parse ResolveReference_String html_Parse
              jsSubmatches config s a s' H)
    as (i & t & Y & links & Ht & Hmv & HTs & Hlinks & Hwait & Hfin & Hacq).
  destruct (step_lookups s s' i t Y links Ht HTs) as (Hlook & Hold & Hnew).
  pose proof (fun q => semLen_shape s s' i t Y links q Ht HTs) as Hsem.
  (* a task that was there and did not move *)
  assert (Hkeep : forall j tj,
             tasks s !! j = Some tj ->
             holdsSlot j (set_pc t Y) = holdsSlot j t ->
             atWork s' j tj = true -> atWork s j tj = true).
  { intros j tj Hj Heq. unfold atWork. specialize (Hsem j).
    rewrite Heq in Hsem.
    assert (semLen s' j = semLen s j) as -> by (destruct (holdsSlot j t); lia).
    done. }
  assert (Hw : exists w, forall j tj,
             tasks s' !! j = Some tj -> atWork s' j tj = true -> j = w).
  2:{ destruct Hw as (w & Hw). intros j k tj tk Hj Hk Aj Ak.
      by rewrite (Hw j tj Hj Aj), (Hw k tk Hk Ak). }
  destruct (pc t) eqn:Hpc; inversion Hmv; subst Y.
  (* Acquire *)
  { destruct (Hacq eq_refl) as (p & Hp & Hlt).
    assert (Hzero : semLen s p = 0) by (unfold semLen in *; lia).
    assert (Hi0 : i <> 0%nat).
    { intros ->. destruct (tree_root_never_finished s Htree t Ht). congruence. }
    destruct (tree_child s Htree i t Ht Hi0) as (p' & tp & Hp' & _ & Hlp & _).
    assert (p' = p) as -> by congruence.
    pose proof (tree_join s Htree i t p tp Ht Hp Hlp) as Hj.
    assert (Hwp : pc tp = Waiting)
      by (destruct (pc tp); try done; congruence).
    assert (Hatp : atWork s p tp = true).
    { unfold atWork, isWaiting. rewrite Hwp, Hzero. apply orb_true_r. }
    exists i. intros j tj Hl Hat.
    destruct (Hlook j tj Hl) as [[-> ->]|[[Hne Hl']|(_ & link & _ & ->)]];
      [done | | done].
    exfalso. destruct (decide (j = p)) as [->|Hjp].
    - assert (tj = tp) as -> by congruence.
      specialize (Hsem p). unfold holdsSlot in Hsem.
      cbn [parent pc set_pc] in Hsem. rewrite Hp, Hpc, Nat.eqb_refl in Hsem.
      simpl in Hsem. unfold atWork, running, isWaiting in Hat.
      rewrite Hwp in Hat. simpl in Hat.
      apply Z.eqb_eq in Hat. lia.
    - apply Hjp. apply (Hone j p tj tp); try done.
      apply Hkeep; try done. unfold holdsSlot. cbn [parent pc set_pc].
      rewrite Hp. apply Nat.eqb_neq in Hjp. by rewrite Hjp. }
  (* Release *)
  12:{ destruct (parent t) as [p|] eqn:Hp; [|by destruct (Hfin eq_refl)].
       assert (Hati : atWork s i t = true)
         by (unfold atWork, running; by rewrite Hpc).
       exists p. intros j tj Hl Hat.
       destruct (Hlook j tj Hl) as [[-> ->]|[[Hne Hl']|(_ & link & _ & ->)]];
         [done | | done].
       destruct (decide (j = p)) as [->|Hjp]; [done|].
       exfalso. apply Hne. apply (Hone j i tj t); try done.
       apply Hkeep; try done. unfold holdsSlot. cbn [parent pc set_pc].
       rewrite Hp. apply Nat.eqb_neq in Hjp. by rewrite Hjp. }
  (* the moves that keep every semaphore as it is *)
  all: assert (Hati : atWork s i t = true)
         by (unfold atWork, running, isWaiting; rewrite Hpc; simpl;
             first [done | by rewrite semLen_children_done by auto]).
  all: exists i; intros j tj Hl Hat;
       destruct (Hlook j tj Hl) as [[-> ->]|[[Hne Hl']|(_ & link & _ & ->)]];
         [done | | done].
  all: exfalso; apply Hne; apply (Hone j i tj t); try done.
  all: apply Hkeep; try done; unfold holdsSlot; cbn [parent pc set_pc];
       by rewrite Hpc.
Qed.


End SequentialCrawl.

(* ===================================================================== *)
(** ** The errors that reach the caller                                 *)
(* ===================================================================== *)

Section RootErrors.
Context {rt : GoRuntime}.
Variable url_Parse : string -> option URL.
Variable ResolveReference_String : URL -> URL -> string.
Variable html_Parse : string -> option Node.
Variable jsSubmatches : nat -> string -> list string.
Variable config : Config.

Local Abbreviation step :=
  (step url_Parse ResolveReference_String html_Parse jsSubmatches config).
Local Abbreviation run :=
  (run url_Parse ResolveReference_String html_Parse jsSubmatches config).
Local Abbreviation CrawlDomain :=
  (CrawlDomain url_Parse ResolveReference_String html_Parse jsSubmatches
               config).
Local Abbreviation stdinLoop :=
  (stdinLoop url_Parse ResolveReference_String html_Parse jsSubmatches config).
Local Abbreviation CrawlFromStdin :=
  (CrawlFromStdin url_Parse ResolveReference_String html_Parse jsSubmatches
                  config).

Lemma failsWith_typed u fe e : failsWith u fe e -> isApp e = true.
Proof.
  intros [_ Hw]. destruct (LastError _) as [[g|ty m c ctx ts r]|];
    [| |done]; by injection Hw as <-.
Qed.

Lemma FailInv_step s a s' : FailInv s -> step s a = Some s' -> FailInv s'.
Proof.
  intros Hinv H.
  assert (Hkeep : forall i t t' extra more j u,
             tasks s !! i = Some t ->
             (forall e, pc t = Returned (Some e) ->
                        pc t' = Finished /\ url t' = url t) ->
             pc t <> Finished ->
             In (j, u) (failed s) ->
             exists tj e fe,
               (<[i := t']> (tasks s) ++ extra) !! j = Some tj /\ url tj = u
               /\ failsWith u fe e /\ In e (logged s ++ more)
               /\ (pc tj = Returned (Some e) \/ pc tj = Finished)).
  { intros i t t' extra more j u Ht Hret Hnf Hin.
    destruct (Hinv j u Hin) as (tj & e & fe & Htj & Hu & Hf & Hlog & Hpc).
    assert (Hlt : (j < length (<[i := t']> (tasks s)))%nat)
      by (rewrite length_insert; by eapply lookup_lt_Some).
    destruct (decide (j = i)) as [->|Hne].
    - assert (tj = t) as -> by congruence.
      destruct Hpc as [Hpc|Hpc]; [|done].
      destruct (Hret e Hpc) as (Hfin & Hurl).
      exists t', e, fe. rewrite lookup_app_l by done.
      rewrite list_lookup_insert_eq by (by eapply lookup_lt_Some).
      split; [done|]. split; [congruence|]. split; [done|].
      split; [apply in_or_app; by left | by right].
    - exists tj, e, fe. rewrite lookup_app_l by done.
      rewrite list_lookup_insert_ne by done.
      split; [done|]. split; [done|]. split; [done|].
      split; [apply in_or_app; by left | done]. }
  destruct a as [i|i|i|i|i|i|i fe|i|i]; open_step H.
  all: unfold FailInv; norm_state; intros j u Hin.
  all: match goal with
       | |- context [<[?i := ?t']> ?l ++ ?extra] => idtac
       | |- context [<[?i := ?t']> ?l] =>
           rewrite <- (app_nil_r (<[i := t']> l))
       end.
  all: match goal with
       | |- context [In _ (logged ?s0 ++ _)] => idtac
       | |- context [In _ (logged ?s0)] =>
           rewrite <- (app_nil_r (logged s0))
       end.
  all: match goal with
       | Ht : ?l !! ?i = Some ?t, Hpc : pc ?t = _ |- _ =>
           try (eapply (Hkeep i t); [exact Ht | | | exact Hin];
                [intros e' He'; rewrite Hpc in He'; first [done | by split]
                | rewrite Hpc; done])
       end.
  (* FetchDone, failure *)
  apply negb_true_iff in Heqb.
  destruct (failed_Retry_has_error _ Heqb) as (err & Herr).
  destruct (WrapError _ _ _) as [e|] eqn:Hw.
  2:{ rewrite Herr in Hw. by destruct err. }
  apply in_app_or in Hin as [Hin|[[= <- <-]|[]]].
  - eapply (Hkeep i t); [exact Heqo | | | exact Hin]; rewrite Heqp; done.
  - exists (set_pc t (Returned (Some e))), e, fe. rewrite app_nil_r.
    split; [apply list_lookup_insert_eq; by eapply lookup_lt_Some|].
    split; [done|]. split; [by split|].
    split; [apply in_or_app; right; by left | by left].
Qed.

Lemma FailInv_run s sched s' :
  FailInv s -> run s sched = Some s' -> FailInv s'.
Proof.
  apply (run_invariant url_Parse ResolveReference_String html_Parse
           jsSubmatches config FailInv). apply FailInv_step.
Qed.

Lemma TreeInv_nextSession s domain : TreeInv (nextSession s domain).
Proof.
  split; simpl.
  - by eexists.
  - intros [|?] ? Hl; [done | done].
  - intros [|?] ? ? ? Hl Hp; [injection Hl as <-; done | done].
  - intros r [= <-]. done.
Qed.

(** A session in which the root's own fetch has failed: the root call has
    returned the error made of that failure. *)
Lemma root_failure_is_returned s0 sched s domain :
  TreeInv s0 -> FailInv s0 ->
  run s0 sched = Some s ->
  In (0%nat, domain) (failed s) ->
  exists e fe, rootReturn s = Some (Some e)
               /\ failsWith domain fe e /\ In e (logged s).
Proof.
  intros Htree Hfail Hrun Hin.
  assert (Htree' : TreeInv s).
  { revert Hrun. apply (run_invariant url_Parse ResolveReference_String
                          html_Parse jsSubmatches config TreeInv); [|done].
    apply TreeInv_step. }
  destruct (FailInv_run _ _ _ Hfail Hrun _ _ Hin)
    as (t & e & fe & Ht & Hu & Hf & Hlog & Hpc).
  exists e, fe. split; [|done].
  unfold rootReturn. rewrite Ht.
  destruct Hpc as [-> | Hpc]; [done|].
  by destruct (tree_root_never_finished s Htree' t Ht).
Qed.


End RootErrors.

(* ===================================================================== *)
(** ** Properties of the timeout manager                                  *)
(* ===================================================================== *)

Section TimeoutFacts.
Import Timeouts.

Lemma ManagerInv_new config : ManagerInv (NewTimeoutManager config).
Proof. split; simpl; [intros ? ? H; by rewrite lookup_empty in H | done | done]. Qed.

Lemma ManagerInv_Create tm id timeout :
  ManagerInv tm -> ManagerInv (fst (CreateOperation tm id timeout)).
Proof.
  intros [Hr Hp Hc]. split; simpl; [| done |].
  - intros id' addr Hl. destruct (decide (id' = id)) as [->|Hne].
    + rewrite lookup_insert_eq in Hl. injection Hl as <-.
      eexists. split; [by apply list_lookup_middle|]. done.
    + rewrite lookup_insert_ne in Hl by done.
      destruct (Hr id' addr Hl) as (op & Hop & ? & ?).
      exists op. split; [|done]. by apply lookup_app_l_Some.
  - intros addr op Hl Hd.
    apply lookup_app_Some in Hl as [Hl|[_ Hl]]; [by eapply Hc|].
    destruct (addr - length (heap tm))%nat; [|done].
    injection Hl as <-. done.
Qed.

(** What [CompleteOperation] and [CancelOperation] do to a registered
    operation, and what they leave alone. *)
Lemma Complete_registered tm id addr opCtx :
  operations tm !! id = Some addr -> heap tm !! addr = Some opCtx ->
  DoneClosed opCtx = false ->
  CompleteOperation tm id
  = {| tmConfig := tmConfig tm;
       heap := <[addr := {| ID := ID opCtx; OpTimeout := OpTimeout opCtx;
                            Cancelled := true; DoneClosed := true;
                            HeartbeatFull := HeartbeatFull opCtx |}]> (heap tm);
       operations := delete id (operations tm);
       globalCancelled := globalCancelled tm;
       panicked := panicked tm |}
  /\ CancelOperation tm id = CompleteOperation tm id.
Proof.
  intros Ho Hh Hd. unfold CompleteOperation, CancelOperation.
  rewrite Ho, Hh. unfold closeDone, cancelOp. simpl. rewrite Hd.
  by rewrite orb_false_r.
Qed.

Lemma ManagerInv_Complete tm id :
  ManagerInv tm -> ManagerInv (CompleteOperation tm id).
Proof.
  intros Hinv. destruct (operations tm !! id) as [addr|] eqn:Ho.
  2:{ unfold CompleteOperation. by rewrite Ho. }
  destruct Hinv as [Hr Hp Hc].
  destruct (Hr id addr Ho) as (op & Hop & Hid & Hopen).
  destruct (Complete_registered tm id addr op Ho Hop Hopen) as (-> & _).
  split; simpl; [| done |].
  - intros id' addr' Hl.
    apply lookup_delete_Some in Hl as (Hne & Hl).
    destruct (Hr id' addr' Hl) as (op' & Hop' & Hid' & Hopen').
    exists op'. split; [|done].
    rewrite list_lookup_insert_ne; [done|].
    intros <-. congruence.
  - intros addr' op' Hl Hd.
    apply list_lookup_insert_Some in Hl as [(-> & <- & _)|(Hne & Hl)]; [done|].
    by eapply Hc.
Qed.

Lemma ManagerInv_Cancel tm id :
  ManagerInv tm -> ManagerInv (CancelOperation tm id).
Proof.
  intros Hinv. destruct (operations tm !! id) as [addr|] eqn:Ho.
  2:{ unfold CancelOperation. by rewrite Ho. }
  destruct (mi_registered tm Hinv id addr Ho) as (op & Hop & Hid & Hopen).
  destruct (Complete_registered tm id addr op Ho Hop Hopen) as (_ & ->).
  by apply ManagerInv_Complete.
Qed.

(** An update of one operation that keeps its id and its [Done] channel
    and does not take a cancellation back. *)
Lemma ManagerInv_update tm addr opCtx opCtx' :
  ManagerInv tm -> heap tm !! addr = Some opCtx ->
  ID opCtx' = ID opCtx -> DoneClosed opCtx' = DoneClosed opCtx ->
  (Cancelled opCtx = true -> Cancelled opCtx' = true) ->
  ManagerInv {| tmConfig := tmConfig tm;
                heap := <[addr := opCtx']> (heap tm);
                operations := operations tm;
                globalCancelled := globalCancelled tm;
                panicked := panicked tm |}.
Proof.
  intros [Hr Hp Hc] Hop Hid Hd Hcan. split; simpl; [| done |].
  - intros id a Hl. destruct (Hr id a Hl) as (op & Ha & Hi & Ho).
    destruct (decide (a = addr)) as [->|Hne].
    + exists opCtx'. assert (op = opCtx) as -> by congruence.
      split; [|by rewrite Hid, Hd].
      apply list_lookup_insert_eq. by eapply lookup_lt_Some.
    + exists op. by rewrite list_lookup_insert_ne.
  - intros a op Hl Hcl.
    apply list_lookup_insert_Some in Hl as [(-> & <- & _)|(Hne & Hl)].
    + apply Hcan. eapply Hc; [exact Hop | congruence].
    + by eapply Hc.
Qed.

Lemma ManagerInv_Heartbeat tm id :
  ManagerInv tm -> ManagerInv (SendHeartbeat tm id).
Proof.
  intros Hinv. unfold SendHeartbeat.
  destruct (operations tm !! id) as [addr|]; [|done].
  destruct (heap tm !! addr) as [op|] eqn:Hop; [|done].
  destruct (HeartbeatFull op); [done|].
  by eapply ManagerInv_update.
Qed.

Lemma registered_addresses_NoDup tm :
  ManagerInv tm -> NoDup (map snd (map_to_list (operations tm))).
Proof.
  intros [Hr _ _]. apply NoDup_fmap_2_strong; [|apply NoDup_map_to_list].
  intros [id1 a1] [id2 a2] H1%elem_of_map_to_list H2%elem_of_map_to_list.
  simpl. intros <-.
  destruct (Hr id1 a1 H1) as (op1 & Ho1 & Hi1 & _).
  destruct (Hr id2 a1 H2) as (op2 & Ho2 & Hi2 & _).
  congruence.
Qed.

(** The loop of [Shutdown] over distinct addresses of open operations. *)
Lemma shutdown_fold (addrs : list nat) : forall h,
  NoDup addrs ->
  (forall a, In a addrs ->
             exists op, h !! a = Some op /\ DoneClosed op = false) ->
  (forall a op, h !! a = Some op -> DoneClosed op = true ->
                Cancelled op = true) ->
  exists h',
    fold_left shutdownOne addrs (h, false) = (h', false)
    /\ (forall a op, h' !! a = Some op -> DoneClosed op = true ->
                     Cancelled op = true)
    /\ (forall a, In a addrs ->
                  exists op op', h !! a = Some op /\ h' !! a = Some op'
                                 /\ ID op' = ID op /\ DoneClosed op' = true
                                 /\ Cancelled op' = true)
    /\ (forall a, ~ In a addrs -> h' !! a = h !! a).
Proof.
  induction addrs as [|a addrs IH]; intros h Hnd Hopen Hcc.
  - exists h. by repeat split.
  - apply NoDup_cons in Hnd as (Hnotin & Hnd).
    destruct (Hopen a) as (op & Hop & Hd); [by left|].
    cbn [fold_left]. unfold shutdownOne at 2. cbn [fst snd].
    rewrite Hop. unfold closeDone, cancelOp. cbn. rewrite Hd.
    set (op' := {| ID := ID op; OpTimeout := OpTimeout op; Cancelled := true;
                   DoneClosed := true; HeartbeatFull := HeartbeatFull op |}).
    destruct (IH (<[a := op']> h) Hnd) as (h' & Hfold & Hcc' & Hcl & Hrest).
    + intros b Hb. destruct (Hopen b) as (opb & Hob & Hdb); [by right|].
      exists opb. split; [|done]. rewrite list_lookup_insert_ne; [done|].
      intros <-. apply Hnotin. by apply list_elem_of_In.
    + intros b opb Hl Hdb.
      apply list_lookup_insert_Some in Hl as [(-> & <- & _)|(Hne & Hl)];
        [done | by eapply Hcc].
    + exists h'. split; [exact Hfold|]. split; [done|]. split.
      * intros b [<-|Hb].
        -- exists op, op'. split; [done|]. split; [|done].
           rewrite Hrest
             by (intros Hin; apply Hnotin; by apply list_elem_of_In).
           apply list_lookup_insert_eq. by eapply lookup_lt_Some.
        -- destruct (Hcl b Hb) as (opb & opb' & H1 & H2 & H3).
           exists opb, opb'. split; [|done].
           rewrite list_lookup_insert_ne in H1; [done|].
           intros <-. apply Hnotin. by apply list_elem_of_In.
      * intros b Hb. rewrite Hrest by (intros Hin; apply Hb; by right).
        apply list_lookup_insert_ne. intros <-. apply Hb. by left.
Qed.

Lemma Shutdown_spec tm :
  ManagerInv tm ->
  ManagerInv (Shutdown tm)
  /\ operations (Shutdown tm) = ∅
  /\ globalCancelled (Shutdown tm) = true
  /\ (forall id addr, operations tm !! id = Some addr ->
        exists opCtx, heap (Shutdown tm) !! addr = Some opCtx
                      /\ ID opCtx = id
                      /\ DoneClosed opCtx = true /\ Cancelled opCtx = true).
Proof.
  intros Hinv. pose proof (registered_addresses_NoDup tm Hinv) as Hnd.
  destruct Hinv as [Hr Hp Hc].
  destruct (shutdown_fold (map snd (map_to_list (operations tm))) (heap tm) Hnd)
    as (h' & Hfold & Hcc & Hcl & _); [| done |].
  { intros a ((id & a') & <- & Hin%list_elem_of_In%elem_of_map_to_list)%in_map_iff.
    destruct (Hr id a' Hin) as (op & ? & _ & ?). by exists op. }
  unfold Shutdown. rewrite Hp, Hfold. cbn.
  split; [|split; [done|split; [done|]]].
  - split; simpl; [intros ? ? H; by rewrite lookup_empty in H | done | done].
  - intros id addr Hl.
    destruct (Hcl addr) as (op & op' & H1 & H2 & H3 & H4).
    { apply in_map_iff. exists (id, addr).
      split; [done|]. by apply list_elem_of_In, elem_of_map_to_list. }
    destruct (Hr id addr Hl) as (op0 & Hop0 & Hid0 & _).
    exists op'. split; [done|]. split; [congruence | done].
Qed.

Lemma cancelAll_fold (addrs : list nat) : forall h : list OperationContext,
  let h' := fold_left (fun (h : list OperationContext) (addr : nat) =>
                         match h !! addr with
                         | Some opCtx => <[addr := cancelOp opCtx]> h
                         | None => h
                         end) addrs h in
  forall a,
    match h !! a with
    | Some op => exists op', h' !! a = Some op' /\ ID op' = ID op
                             /\ DoneClosed op' = DoneClosed op
                             /\ (Cancelled op = true -> Cancelled op' = true)
    | None => h' !! a = None
    end.
Proof.
  induction addrs as [|b addrs IH]; intros h h' a; subst h'.
  - simpl. destruct (h !! a) as [op|]; [by exists op | done].
  - cbn [fold_left]. destruct (h !! b) as [opb|] eqn:Hb; [|apply IH].
    specialize (IH (<[b := cancelOp opb]> h) a). cbn zeta in IH.
    destruct (decide (a = b)) as [->|Hne].
    + rewrite list_lookup_insert_eq in IH by (by eapply lookup_lt_Some).
      rewrite Hb. destruct IH as (op' & H1 & H2 & H3 & H4).
      exists op'. split; [done|]. split; [done|]. split; [done|].
      intros _. by apply H4.
    + by rewrite list_lookup_insert_ne in IH.
Qed.

Lemma ManagerInv_cancelAll tm snapshot :
  ManagerInv tm -> ManagerInv (cancelAll tm snapshot).
Proof.
  intros [Hr Hp Hc]. unfold cancelAll. split; simpl; [| done |].
  - intros id addr Hl. destruct (Hr id addr Hl) as (op & Hop & Hi & Hd).
    pose proof (cancelAll_fold snapshot (heap tm) addr) as H.
    cbn zeta in H. rewrite Hop in H.
    destruct H as (op' & H1 & H2 & H3 & _). exists op'.
    split; [done|]. split; congruence.
  - intros addr op' Hl Hd.
    pose proof (cancelAll_fold snapshot (heap tm) addr) as H. cbn zeta in H.
    destruct (heap tm !! addr) as [op|] eqn:Hop; [|congruence].
    destruct H as (op'' & H1 & H2 & H3 & H4).
    assert (op'' = op') as -> by congruence.
    apply H4. eapply Hc; [exact Hop | congruence].
Qed.

Lemma ManagerInv_call tm c : ManagerInv tm -> ManagerInv (call tm c).
Proof.
  intros Hinv. destruct c as [id t|id|id|id|addr| |snapshot|addr|addr]; simpl.
  - by apply ManagerInv_Create.
  - by apply ManagerInv_Complete.
  - by apply ManagerInv_Cancel.
  - by apply ManagerInv_Heartbeat.
  - unfold sendTo. destruct (heap tm !! addr) as [op|] eqn:Hop; [|done].
    destruct (HeartbeatFull op); [done|]. by eapply ManagerInv_update.
  - by apply Shutdown_spec.
  - by apply ManagerInv_cancelAll.
  - destruct (heap tm !! addr); [by apply ManagerInv_Cancel | done].
  - destruct (heap tm !! addr) as [op|] eqn:Hop; [|done].
    by eapply ManagerInv_update.
Qed.

Lemma ManagerInv_calls cs : forall tm, ManagerInv tm -> ManagerInv (calls tm cs).
Proof.
  unfold calls. induction cs as [|c cs IH]; intros tm H; simpl; [done|].
  by apply IH, ManagerInv_call.
Qed.

(** X22.  Whatever calls are made on a new manager, by its users and by its
    monitor goroutines, no [Done] channel is ever closed twice (nothing
    panics); every registered id leads to an open operation carrying that
    id; and every operation whose [Done] is closed has had its context
    cancelled. *)
Theorem manager_never_closes_a_channel_twice :
  forall config cs,
    let tm := calls (NewTimeoutManager config) cs in
    panicked tm = false
    /\ (forall id addr, operations tm !! id = Some addr ->
          exists opCtx, heap tm !! addr = Some opCtx /\ ID opCtx = id
                        /\ DoneClosed opCtx = false)
    /\ (forall addr opCtx, heap tm !! addr = Some opCtx ->
          DoneClosed opCtx = true -> Cancelled opCtx = true).
Proof.
  intros config cs tm.
  destruct (ManagerInv_calls cs _ (ManagerInv_new config)) as [Hr Hp Hc].
  by repeat split.
Qed.

(** X23.  Completing is idempotent, cancelling after completing does nothing, a
    second heartbeat before the monitor has taken the first is dropped, and
    for an id that is not registered all three calls leave the manager as
    it is. *)
Theorem manager_calls_are_idempotent :
  forall tm id,
    CompleteOperation (CompleteOperation tm id) id = CompleteOperation tm id
    /\ CancelOperation (CompleteOperation tm id) id = CompleteOperation tm id
    /\ CancelOperation (CancelOperation tm id) id = CancelOperation tm id
    /\ SendHeartbeat (SendHeartbeat tm id) id = SendHeartbeat tm id
    /\ (operations tm !! id = None ->
        CompleteOperation tm id = tm /\ CancelOperation tm id = tm
        /\ SendHeartbeat tm id = tm).
Proof.
  intros tm id.
  assert (Hgone : forall tm', operations tm' !! id = None ->
             CompleteOperation tm' id = tm' /\ CancelOperation tm' id = tm'
             /\ SendHeartbeat tm' id = tm').
  { intros tm' H. unfold CompleteOperation, CancelOperation, SendHeartbeat.
    by rewrite H. }
  assert (Hc : operations (CompleteOperation tm id) !! id = None
               \/ CompleteOperation tm id = tm).
  { unfold CompleteOperation.
    destruct (operations tm !! id) as [addr|] eqn:Ho; [|by right].
    destruct (heap tm !! addr) as [op|] eqn:Hop; [|by right].
    left. unfold closeDone. simpl. apply lookup_delete_eq. }
  assert (Hk : operations (CancelOperation tm id) !! id = None
               \/ CancelOperation tm id = tm).
  { unfold CancelOperation.
    destruct (operations tm !! id) as [addr|] eqn:Ho; [|by right].
    destruct (heap tm !! addr) as [op|] eqn:Hop; [|by right].
    left. unfold closeDone. simpl. apply lookup_delete_eq. }
  split; [|split; [|split; [|split; [|apply Hgone]]]].
  - destruct Hc as [Hc|Hc]; [by apply Hgone | by rewrite !Hc].
  - destruct Hc as [Hc|Hc]; [by apply Hgone|].
    rewrite Hc. unfold CompleteOperation, CancelOperation in *.
    destruct (operations tm !! id) as [addr|] eqn:Ho; [|done].
    destruct (heap tm !! addr) as [op|] eqn:Hop; [|done].
    exfalso. apply (f_equal operations) in Hc. unfold closeDone in Hc.
    simpl in Hc. apply (f_equal (fun m => m !! id)) in Hc.
    rewrite lookup_delete_eq in Hc. congruence.
  - destruct Hk as [Hk|Hk]; [by apply Hgone | by rewrite !Hk].
  - destruct (operations tm !! id) as [addr|] eqn:Ho.
    2:{ destruct (Hgone tm Ho) as (_ & _ & Hs). by rewrite !Hs. }
    destruct (heap tm !! addr) as [op|] eqn:Hop.
    2:{ unfold SendHeartbeat. by rewrite Ho, Hop, Ho, Hop. }
    destruct (HeartbeatFull op) eqn:Hf.
    + unfold SendHeartbeat. by rewrite Ho, Hop, Hf, Ho, Hop, Hf.
    + unfold SendHeartbeat. rewrite Ho, Hop, Hf. cbn [operations heap].
      rewrite Ho.
      rewrite list_lookup_insert_eq by (by eapply lookup_lt_Some).
      reflexivity.
Qed.



(** An operation that is not registered and whose [Done] is open stays
    so under every call. *)
Lemma orphan_call tm c a i :
  ManagerInv tm ->
  (forall id, operations tm !! id <> Some a) ->
  (exists opCtx, heap tm !! a = Some opCtx /\ ID opCtx = i
                 /\ DoneClosed opCtx = false) ->
  (forall id, operations (call tm c) !! id <> Some a)
  /\ (exists opCtx, heap (call tm c) !! a = Some opCtx /\ ID opCtx = i
                    /\ DoneClosed opCtx = false).
Proof.
  intros Hinv Hnr (op & Hop & Hid & Hopen).
  assert (Hcancel : forall id,
             (forall id', operations (CancelOperation tm id) !! id' <> Some a)
             /\ (exists opCtx, heap (CancelOperation tm id) !! a = Some opCtx
                               /\ ID opCtx = i /\ DoneClosed opCtx = false)
             /\ CompleteOperation tm id = CancelOperation tm id).
  { intros id. destruct (operations tm !! id) as [addr|] eqn:Ho.
    2:{ unfold CancelOperation, CompleteOperation. rewrite Ho.
        split; [done|]. split; [by exists op | done]. }
    destruct (mi_registered tm Hinv id addr Ho) as (op' & Hop' & _ & Hopen').
    destruct (Complete_registered tm id addr op' Ho Hop' Hopen') as (Hc & Hk).
    rewrite Hk, Hc. cbn [operations heap]. split; [|split; [|done]].
    - intros id' Hl. apply lookup_delete_Some in Hl as (_ & Hl).
      by apply (Hnr id').
    - exists op. split; [|done]. rewrite list_lookup_insert_ne; [done|].
      intros ->. by apply (Hnr id). }
  destruct c as [id t|id|id|id|addr| |snapshot|addr|addr]; simpl.
  - split.
    + intros id' Hl. destruct (decide (id' = id)) as [->|Hne].
      * rewrite lookup_insert_eq in Hl. injection Hl as Hl.
        apply lookup_lt_Some in Hop. lia.
      * rewrite lookup_insert_ne in Hl by done. by apply (Hnr id').
    + exists op. split; [by apply lookup_app_l_Some | done].
  - destruct (Hcancel id) as (H1 & H2 & ->). by split.
  - destruct (Hcancel id) as (H1 & H2 & _). by split.
  - split.
    + unfold SendHeartbeat. destruct (operations tm !! id) as [addr|]; [|done].
      destruct (heap tm !! addr) as [op'|]; [|done].
      by destruct (HeartbeatFull op').
    + unfold SendHeartbeat.
      destruct (operations tm !! id) as [addr|] eqn:Ho; [|by exists op].
      destruct (heap tm !! addr) as [op'|] eqn:Hop'; [|by exists op].
      destruct (HeartbeatFull op'); [by exists op|]. cbn [heap].
      exists op. split; [|done]. rewrite list_lookup_insert_ne; [done|].
      intros ->. by apply (Hnr id).
  - unfold sendTo.
    destruct (heap tm !! addr) as [op'|] eqn:Hop'; [|by split; [|exists op]].
    destruct (HeartbeatFull op'); [by split; [|exists op]|].
    cbn [operations heap]. split; [done|].
    destruct (decide (a = addr)) as [->|Hne].
    + eexists. split; [apply list_lookup_insert_eq; by eapply lookup_lt_Some|].
      simpl. split; congruence.
    + exists op. by rewrite list_lookup_insert_ne.
  - split; [unfold Shutdown; by destruct (fold_left _ _ _)|].
    pose proof (registered_addresses_NoDup tm Hinv) as Hnd.
    destruct Hinv as [Hr Hp Hc].
    destruct (shutdown_fold (map snd (map_to_list (operations tm))) (heap tm)
                Hnd) as (h' & Hfold & _ & _ & Hrest); [| done |].
    { intros b ((id & b') & <- & Hin%list_elem_of_In%elem_of_map_to_list)%in_map_iff.
      destruct (Hr id b' Hin) as (op' & ? & _ & ?). by exists op'. }
    unfold Shutdown. rewrite Hp, Hfold. cbn [heap]. exists op.
    split; [|done]. rewrite Hrest; [done|].
    intros ((id & b') & Hb & Hin%list_elem_of_In%elem_of_map_to_list)%in_map_iff.
    simpl in Hb. subst b'. by apply (Hnr id).
  - split; [done|]. unfold cancelAll. cbn [heap].
    pose proof (cancelAll_fold snapshot (heap tm) a) as H.
    cbn zeta in H. rewrite Hop in H.
    destruct H as (op' & H1 & H2 & H3 & _). exists op'. split; [done|].
    split; congruence.
  - destruct (heap tm !! addr) as [op'|]; [|by split; [|exists op]].
    destruct (Hcancel (ID op')) as (H1 & H2 & _). by split.
  - destruct (heap tm !! addr) as [op'|] eqn:Hop'; [|by split; [|exists op]].
    cbn [operations heap]. split; [done|].
    destruct (decide (a = addr)) as [->|Hne].
    + eexists. split; [apply list_lookup_insert_eq; by eapply lookup_lt_Some|].
      simpl. split; congruence.
    + exists op. by rewrite list_lookup_insert_ne.
Qed.

Lemma orphan_calls cs a i : forall tm,
  ManagerInv tm ->
  (forall id, operations tm !! id <> Some a) ->
  (exists opCtx, heap tm !! a = Some opCtx /\ ID opCtx = i
                 /\ DoneClosed opCtx = false) ->
  exists opCtx, heap (calls tm cs) !! a = Some opCtx /\ ID opCtx = i
                /\ DoneClosed opCtx = false.
Proof.
  unfold calls. induction cs as [|c cs IH]; intros tm Hinv Hnr Hop; simpl;
    [done|].
  destruct (orphan_call tm c a i Hinv Hnr Hop) as (Hnr' & Hop').
  apply IH; [by apply ManagerInv_call | done | done].
Qed.

(** X25.  Creating an operation under an id that is still registered replaces
    the registration: the first operation can no longer be reached through
    the manager, and no call whatever ever closes its [Done] channel.  When
    the monitor of the first operation then sees its context expire, its
    [CancelOperation(opCtx.ID)] cancels and closes the second operation and
    removes the id. *)
Theorem recreated_id_orphans_the_first_operation :
  forall config cs id t1 t2,
    let tm := calls (NewTimeoutManager config) cs in
    let tm1 := fst (CreateOperation tm id t1) in
    let a1 := snd (CreateOperation tm id t1) in
    let tm2 := fst (CreateOperation tm1 id t2) in
    let a2 := snd (CreateOperation tm1 id t2) in
    a1 <> a2
    /\ GetOperationContext tm2 id = Some a2
    /\ (forall cs', exists opCtx,
          heap (calls tm2 cs') !! a1 = Some opCtx /\ ID opCtx = id
          /\ DoneClosed opCtx = false)
    /\ (exists opCtx,
          heap (call tm2 (MonitorExpired a1)) !! a2 = Some opCtx
          /\ Cancelled opCtx = true /\ DoneClosed opCtx = true)
    /\ GetOperationContext (call tm2 (MonitorExpired a1)) id = None.
Proof.
  intros config cs id t1 t2 tm tm1 a1 tm2 a2.
  assert (Hinv : ManagerInv tm) by apply ManagerInv_calls, ManagerInv_new.
  assert (Hinv1 : ManagerInv tm1) by by apply ManagerInv_Create.
  assert (Hinv2 : ManagerInv tm2) by by apply ManagerInv_Create.
  assert (Ha : a2 = S a1).
  { subst a2 a1 tm1. cbn [CreateOperation fst snd heap].
    rewrite length_app. simpl. lia. }
  assert (Ho2 : operations tm2 !! id = Some a2) by apply lookup_insert_eq.
  assert (Hh1 : exists op1, heap tm2 !! a1 = Some op1 /\ ID op1 = id
                            /\ DoneClosed op1 = false).
  { eexists. split.
    - apply lookup_app_l_Some. by apply list_lookup_middle.
    - done. }
  destruct (mi_registered tm2 Hinv2 id a2 Ho2) as (op2 & Hop2 & Hid2 & Hopen2).
  assert (Hnr : forall id', operations tm2 !! id' <> Some a1).
  { intros id' Hl.
    destruct (mi_registered tm2 Hinv2 id' a1 Hl) as (op & Hop & Hid & _).
    destruct Hh1 as (op1 & Hop1 & Hid1 & _).
    assert (id' = id) as -> by congruence.
    rewrite Ho2 in Hl. injection Hl as Hl. lia. }
  split; [lia|]. split; [exact Ho2|].
  split; [intros cs'; by apply orphan_calls|].
  destruct Hh1 as (op1 & Hop1 & Hid1 & _).
  cbn [call]. rewrite Hop1, Hid1.
  destruct (Complete_registered tm2 id a2 op2 Ho2 Hop2 Hopen2) as (Hc & ->).
  rewrite Hc. unfold GetOperationContext. cbn [heap operations].
  split; [|apply lookup_delete_eq].
  eexists. split.
  - apply list_lookup_insert_eq. by eapply lookup_lt_Some.
  - done.
Qed.

(** X26.  [Shutdown] after any history: nothing panics, no operation is left
    active, every operation that was registered has its context cancelled
    and its [Done] channel closed, and a second [Shutdown] changes
    nothing. *)
Theorem Shutdown_closes_every_registered_operation :
  forall config cs,
    let tm := calls (NewTimeoutManager config) cs in
    panicked (Shutdown tm) = false
    /\ GetActiveOperations (Shutdown tm) = 0
    /\ globalCancelled (Shutdown tm) = true
    /\ (forall id addr, GetOperationContext tm id = Some addr ->
          exists opCtx, heap (Shutdown tm) !! addr = Some opCtx
                        /\ ID opCtx = id
                        /\ DoneClosed opCtx = true /\ Cancelled opCtx = true)
    /\ Shutdown (Shutdown tm) = Shutdown tm.
Proof.
  intros config cs tm.
  assert (Hinv : ManagerInv tm) by apply ManagerInv_calls, ManagerInv_new.
  destruct (Shutdown_spec tm Hinv) as (Hinv' & Hops & Hg & Hcl).
  split; [by destruct Hinv'|].
  split; [unfold GetActiveOperations; by rewrite Hops|].
  split; [done|]. split; [exact Hcl|].
  unfold Shutdown at 1. rewrite Hops, map_to_list_empty. simpl.
  destruct (Shutdown tm) eqn:E. simpl in *. by subst.
Qed.

End TimeoutFacts.

(* ===================================================================== *)
(** ** The further properties on examples                                 *)
(* ===================================================================== *)

Section FurtherExamples.
Import Scenarios MoreScenarios.

Lemma Retry_exhausts_all_attempts_witness :
  let r := Retry (quietEnv (fun _ => Some http500)) (Some NetworkRetryConfig) in
  Success r = false /\ Attempts r = 5 /\ LastError r = Some http500
  /\ length (AllErrors r) = 5%nat.
Proof.
  intros r.
  destruct (Retry_exhausts_all_attempts (quietEnv (fun _ => Some http500))
              NetworkRetryConfig http500) as (H1 & H2 & H3 & H4 & _).
  - simpl. lia.
  - intros i Hi. simpl in Hi.
    assert (i = 1 \/ i = 2 \/ i = 3 \/ i = 4) as [->|[->|[->| ->]]] by lia;
      reflexivity.
  - reflexivity.
  - reflexivity.
  - split; [exact H1|]. split; [exact H2|]. split; [exact H3|].
    fold r in H4. rewrite H4. reflexivity.
Defined.


Lemma Retry_cancelled_before_attempt_witness :
  let r := Retry doneAtThird (Some NetworkRetryConfig) in
  Success r = false /\ Attempts r = 3
  /\ LastError r = Some (cancelledBefore doneAtThird)
  /\ length (AllErrors r) = 3%nat.
Proof.
  intros r.
  destruct (Retry_cancelled_before_attempt doneAtThird NetworkRetryConfig 3)
    as (H1 & H2 & H3 & _ & _ & H6 & _).
  - simpl. lia.
  - intros i Hi. assert (i = 1 \/ i = 2) as [->| ->] by lia; reflexivity.
  - reflexivity.
  - split; [exact H1|]. split; [exact H2|]. split; [exact H3|].
    fold r in H6. rewrite H6. reflexivity.
Defined.

Lemma Retry_cancelled_during_delay_witness :
  let r := Retry doneInSecondSleep (Some NetworkRetryConfig) in
  Success r = false /\ Attempts r = 2
  /\ AllErrors r = [http500; http500; cancelledDuringDelay doneInSecondSleep].
Proof.
  intros r.
  destruct (Retry_cancelled_during_delay doneInSecondSleep NetworkRetryConfig
              2 http500) as (H1 & H2 & _ & _ & H5 & _).
  - simpl. lia.
  - intros i Hi. assert (i = 1) as -> by lia. reflexivity.
  - reflexivity.
  - reflexivity.
  - reflexivity.
  - reflexivity.
  - split; [exact H1|]. split; [exact H2|]. exact H5.
Defined.

Lemma Retry_result_shape_witness :
  let r := Retry (quietEnv failOnce) (Some NetworkRetryConfig) in
  1 <= Attempts r <= 5 /\ LastError r = last (AllErrors r).
Proof.
  intros r.
  destruct (Retry_result_shape (quietEnv failOnce) NetworkRetryConfig)
    as (H1 & H2 & _).
  - simpl. lia.
  - split; [exact H1 | exact H2].
Defined.

Lemma LogError_caller_context_wins_witness :
  exists line,
    written (LogError NewDefaultLogger (Some http500) callerContext) = [line]
    /\ lineFields line !! "url" = Some "https://x.test/a"%string
    /\ lineFields line !! "status_code" = Some "n/a"%string.
Proof.
  destruct (LogError_caller_context_wins NewDefaultLogger HTTPError
              "HTTP error for https://x.test/" None
              (<["status_code" := CtxInt 500]> ∅) 0 true callerContext)
    as (line & Hw & Hf).
  - simpl. lia.
  - exists line. split; [exact Hw|].
    split; rewrite Hf; reflexivity.
Defined.

Lemma LogError_level_of_wrapped_HTTP_error_witness :
  exists e' line,
    WrapError 0 (Some http500) "failed to crawl https://x.test/ after 5 attempts"
    = Some e'
    /\ written (LogError NewDefaultLogger (Some e') ∅) = [line]
    /\ lineLevel line = ERROR
    /\ lineFields line !! "status_code" = Some "500"%string.
Proof.
  destruct (LogError_level_of_wrapped_HTTP_error NewDefaultLogger 0
              "HTTP error for https://x.test/" 500 None (fun _ => 0) 0%nat
              ["failed to crawl https://x.test/ after 5 attempts"%string] ∅)
    as (e' & line & Hw & Hl & Hhi & _ & Hf).
  - simpl. lia.
  - exists e', line. split; [exact Hw|]. split; [exact Hl|].
    split; [apply Hhi; lia | exact Hf].
Defined.


Lemma semaphore_of_each_call_is_respected_witness :
  exists s,
    run url_Parse ResolveReference_String html_Parse jsSubmatches cfgTwoThreads
        (start (Some []) "https://x.test/") fanOut = Some s
    /\ forall p, 0 <= semLen s p <= 2.
Proof.
  destruct (run url_Parse ResolveReference_String html_Parse jsSubmatches
              cfgTwoThreads (start (Some []) "https://x.test/") fanOut)
    as [s|] eqn:E; [|vm_compute in E; discriminate E].
  exists s. split; [reflexivity|].
  apply (semaphore_of_each_call_is_respected url_Parse ResolveReference_String
           html_Parse jsSubmatches cfgTwoThreads) with (out := Some [])
           (domain := "https://x.test/"%string) (sched := fanOut);
    [simpl; lia | exact E].
Defined.

Lemma root_returns_after_all_goroutines_witness :
  exists s,
    run url_Parse ResolveReference_String html_Parse jsSubmatches cfgTwoThreads
        (start (Some []) "https://x.test/") wholeCrawl = Some s
    /\ rootReturn s = Some None
    /\ length (tasks s) = 3%nat
    /\ inFlight s = 0.
Proof.
  destruct (run url_Parse ResolveReference_String html_Parse jsSubmatches
              cfgTwoThreads (start (Some []) "https://x.test/") wholeCrawl)
    as [s|] eqn:E; [|vm_compute in E; discriminate E].
  exists s. split; [reflexivity|].
  assert (Hret : rootReturn s = Some None)
    by (vm_compute in E; injection E as <-; reflexivity).
  split; [exact Hret|].
  split; [vm_compute in E; injection E as <-; reflexivity|].
  exact (proj1 (proj2 (root_returns_after_all_goroutines url_Parse
                         ResolveReference_String html_Parse jsSubmatches
                         cfgTwoThreads (Some []) "https://x.test/" wholeCrawl
                         s None E Hret))).
Defined.

Lemma depth_counts_hops_witness :
  exists s,
    run url_Parse ResolveReference_String html_Parse jsSubmatches cfgTwoThreads
        (start (Some []) "https://x.test/") fanOut = Some s
    /\ length (fetched s) = 7%nat
    /\ forall u d, In (u, d) (fetched s) -> 0 <= d <= 2.
Proof.
  destruct (run url_Parse ResolveReference_String html_Parse jsSubmatches
              cfgTwoThreads (start (Some []) "https://x.test/") fanOut)
    as [s|] eqn:E; [|vm_compute in E; discriminate E].
  exists s. split; [reflexivity|].
  split; [vm_compute in E; injection E as <-; reflexivity|].
  exact (proj2 (depth_counts_hops url_Parse ResolveReference_String html_Parse
                  jsSubmatches cfgTwoThreads (Some []) "https://x.test/"
                  fanOut s E)).
Defined.

Lemma without_threads_the_crawl_hangs_witness :
  exists s,
    run url_Parse ResolveReference_String html_Parse jsSubmatches cfgNoThreads
        (start (Some []) "https://x.test/") rootFetched = Some s
    /\ length (tasks s) = 3%nat
    /\ rootReturn s = None.
Proof.
  destruct (run url_Parse ResolveReference_String html_Parse jsSubmatches
              cfgNoThreads (start (Some []) "https://x.test/") rootFetched)
    as [s|] eqn:E; [|vm_compute in E; discriminate E].
  exists s. split; [reflexivity|].
  assert (Hlen : length (tasks s) = 3%nat)
    by (vm_compute in E; injection E as <-; reflexivity).
  split; [exact Hlen|].
  apply (without_threads_the_crawl_hangs url_Parse ResolveReference_String
           html_Parse jsSubmatches cfgNoThreads) with (out := Some [])
           (domain := "https://x.test/"%string) (sched := rootFetched);
    [simpl; lia | exact E | rewrite Hlen; lia].
Defined.

Lemma stateChildFetching_reachable :
  run url_Parse ResolveReference_String html_Parse jsSubmatches cfgTwoThreads
      (start (Some []) "https://x.test/") childFetching
  = Some stateChildFetching.
Proof. vm_compute. reflexivity. Qed.

Lemma failed_branch_is_logged_twice_witness :
  exists e s1 s2,
    step url_Parse ResolveReference_String html_Parse jsSubmatches cfgTwoThreads
         stateChildFetching (FetchDone 1 serves500) = Some s1
    /\ step url_Parse ResolveReference_String html_Parse jsSubmatches
            cfgTwoThreads s1 (Release 1) = Some s2
    /\ logged s2 = [e; e]
    /\ Type_of e = Some HTTPError
    /\ length (tasks s2) = 3%nat.
Proof.
  destruct (failed_branch_is_logged_twice url_Parse ResolveReference_String
              html_Parse jsSubmatches cfgTwoThreads stateChildFetching 1%nat
              {| url := "https://x.test/a"; depth := 1; parent := Some 0%nat;
                 pc := Fetching |} 0%nat serves500)
    as (e & s1 & s2 & He & _ & H1 & H2 & H3 & H4 & _);
    [reflexivity | reflexivity | reflexivity | reflexivity |].
  exists e, s1, s2. split; [exact H1|]. split; [exact H2|].
  split; [exact H3|]. split; [|exact H4].
  vm_compute in He. injection He as <-. reflexivity.
Defined.

Lemma CrawlFromStdin_fetches_no_URL_twice_witness :
  exists s errs,
    stdinLoop url_Parse ResolveReference_String html_Parse jsSubmatches
              cfgTwoThreads (start (Some []) "") stdinLines stdinScheds []
    = Some (s, errs)
    /\ length (fetched s) = 3%nat
    /\ NoDup (map fst (fetched s)).
Proof.
  destruct (stdinLoop url_Parse ResolveReference_String html_Parse jsSubmatches
              cfgTwoThreads (start (Some []) "") stdinLines stdinScheds [])
    as [[s errs]|] eqn:E; [|vm_compute in E; discriminate E].
  exists s, errs. split; [reflexivity|].
  split; [vm_compute in E; injection E as <- _; reflexivity|].
  exact (proj1 (CrawlFromStdin_fetches_no_URL_twice url_Parse
                  ResolveReference_String html_Parse jsSubmatches cfgTwoThreads
                  stdinLines stdinScheds s errs E)).
Defined.



End FurtherExamples.
